(** * python-proton-core: the component loader and the API session

    A shallow embedding of [proton/loader/loader.py] and
    [proton/session/api.py], with the properties of their override,
    ordering, retry, refresh, logout and persistence logic.

    Conventions of the embedding:
    - a Python [str] is a [string]; an [ascii] stands for a code point in
      0..255, compared by its number as Python compares code points;
    - a Python [dict] is an association list in insertion order, with
      unique keys ([Dict.wf]);
    - a call that can raise returns an [outcome]; code that mutates an
      object threads the object's state explicitly. *)

From Stdlib Require Import ZArith QArith List String Ascii Bool Lia.
From Stdlib Require Import Permutation Sorted.
Import ListNotations.

Local Open Scope string_scope.
Local Open Scope Z_scope.

(** ** Python strings *)

Module PyStr.

(** [str.isspace] on one character, for code points below 256. *)
Definition isspace (c : ascii) : bool :=
  let n := N_of_ascii c in
  ((9 <=? n) && (n <=? 13) || (28 <=? n) && (n <=? 32)
   || (n =? 133) || (n =? 160))%N.

(** [s[n:]] *)
Fixpoint drop (n : nat) (s : string) : string :=
  match n, s with
  | O, _ => s
  | S n', String _ s' => drop n' s'
  | S _, EmptyString => EmptyString
  end.

(** [s.startswith(p)] *)
Definition startswith (s p : string) : bool := String.prefix p s.

(** [s.lstrip()] and [s.strip()] *)
Fixpoint lstrip (s : string) : string :=
  match s with
  | String c s' => if isspace c then lstrip s' else s
  | EmptyString => EmptyString
  end.

Fixpoint rev_acc (s acc : string) : string :=
  match s with
  | EmptyString => acc
  | String c s' => rev_acc s' (String c acc)
  end.

Definition rev (s : string) : string := rev_acc s EmptyString.

Definition strip (s : string) : string := rev (lstrip (rev (lstrip s))).

(** [s.split()]: the maximal runs of non-whitespace characters.
    [cur] is the run being read, reversed. *)
Fixpoint split_acc (s cur : string) : list string :=
  match s with
  | EmptyString =>
      match cur with EmptyString => [] | _ => [rev cur] end
  | String c s' =>
      if isspace c
      then match cur with
           | EmptyString => split_acc s' EmptyString
           | _ => rev cur :: split_acc s' EmptyString
           end
      else split_acc s' (String c cur)
  end.

Definition split (s : string) : list string := split_acc s EmptyString.

(** [s.endswith(p)] *)
Definition endswith (s p : string) : bool := String.prefix (rev p) (rev s).

(** [s[:n]] *)
Fixpoint take (n : nat) (s : string) : string :=
  match n, s with
  | S n', String c s' => String c (take n' s')
  | _, _ => EmptyString
  end.

(** [s.lower()], for code points below 256: A-Z and the capital
    letters 192..222 other than the sign 215 move up by 32. *)
Definition lower_char (c : ascii) : ascii :=
  let n := N_of_ascii c in
  if ((65 <=? n) && (n <=? 90)
      || (192 <=? n) && (n <=? 222) && negb (n =? 215))%N
  then ascii_of_N (n + 32) else c.

Fixpoint lower (s : string) : string :=
  match s with
  | EmptyString => EmptyString
  | String c s' => String (lower_char c) (lower s')
  end.

(** One numeric character ([str.isnumeric]), for code points below
    256: the digits 0-9, the superscripts 2, 3 and 1 (178, 179, 185)
    and the fractions 1/4, 1/2 and 3/4 (188, 189, 190). *)
Definition isnumeric_char (c : ascii) : bool :=
  let n := N_of_ascii c in
  ((48 <=? n) && (n <=? 57) || (n =? 178) || (n =? 179) || (n =? 185)
   || (188 <=? n) && (n <=? 190))%N.

Fixpoint all_chars (p : ascii -> bool) (s : string) : bool :=
  match s with
  | EmptyString => true
  | String c s' => p c && all_chars p s'
  end.

(** [s.isnumeric()]: at least one character, all of them numeric. *)
Definition isnumeric (s : string) : bool :=
  match s with
  | EmptyString => false
  | _ => all_chars isnumeric_char s
  end.

Definition is_decimal_digit (c : ascii) : bool :=
  let n := N_of_ascii c in ((48 <=? n) && (n <=? 57))%N.

Fixpoint digits_value (s : string) (acc : Z) : Z :=
  match s with
  | EmptyString => acc
  | String c s' => digits_value s' (10 * acc + (Z.of_N (N_of_ascii c) - 48))
  end.

(** [sys.int_info.default_max_str_digits]: the longest decimal string
    that [int] converts (CPython 3.11 and the security releases of
    3.7 to 3.10), unless the interpreter is configured otherwise. *)
Definition int_max_str_digits : nat := 4300.

(** [int(s)] for a string of numeric characters: its decimal value
    when every character is a decimal digit and there are no more of
    them than the limit; [None] stands for the [ValueError] that [int]
    raises on any other numeric character, and on a string of digits
    that is longer than the limit. *)
Definition int (s : string) : option Z :=
  match s with
  | EmptyString => None
  | _ =>
      if all_chars is_decimal_digit s
         && (String.length s <=? int_max_str_digits)%nat
      then Some (digits_value s 0)
      else None
  end.

(** [x in l] for a list of strings *)
Definition mem (x : string) (l : list string) : bool :=
  existsb (String.eqb x) l.

(** [needle in s] for two strings (substring test) *)
Fixpoint contains (s needle : string) : bool :=
  String.prefix needle s
  || match s with
     | EmptyString => false
     | String _ s' => contains s' needle
     end.

End PyStr.

(** ** [base64.b64encode] and [base64.b64decode]

    Bytes are strings of characters 0..255.  The decoder is
    [binascii.a2b_base64] as [b64decode] calls it (not strict):
    characters outside the alphabet are skipped, a pad ends the data
    once it completes a quad, and data that ends inside a quad is an
    error. *)

Module Base64.

(** The value of a character of the alphabet. *)
Definition value_of (c : ascii) : option N :=
  let n := N_of_ascii c in
  if ((65 <=? n) && (n <=? 90))%N then Some (n - 65)%N
  else if ((97 <=? n) && (n <=? 122))%N then Some (n - 71)%N
  else if ((48 <=? n) && (n <=? 57))%N then Some (n + 4)%N
  else if (n =? 43)%N then Some 62%N
  else if (n =? 47)%N then Some 63%N
  else None.

(** The character of a value below 64. *)
Definition char_of (v : N) : ascii :=
  if (v <? 26)%N then ascii_of_N (v + 65)
  else if (v <? 52)%N then ascii_of_N (v + 71)
  else if (v <? 62)%N then ascii_of_N (v - 4)
  else if (v =? 62)%N then "+"%char
  else "/"%char.

(** The loop of [a2b_base64]: [quad_pos] is the place in the quad,
    [leftchar] the bits that are left of the last character, [pads]
    the pads that were just read, [out] the bytes so far, last first.
    [None] stands for [binascii.Error]. *)
Fixpoint a2b_loop (s : string) (quad_pos : nat) (leftchar : N) (pads : nat)
    (out : string) : option string :=
  match s with
  | EmptyString =>
      match quad_pos with
      | O => Some (PyStr.rev out)
      | _ => None
      end
  | String c s' =>
      if Ascii.eqb c "="%char then
        if (2 <=? quad_pos)%nat then
          if (4 <=? quad_pos + S pads)%nat then Some (PyStr.rev out)
          else a2b_loop s' quad_pos leftchar (S pads) out
        else a2b_loop s' quad_pos leftchar pads out
      else
        match value_of c with
        | None => a2b_loop s' quad_pos leftchar pads out
        | Some v =>
            match quad_pos with
            | O => a2b_loop s' 1%nat v O out
            | S O =>
                a2b_loop s' 2%nat (N.land v 15) O
                  (String (ascii_of_N (leftchar * 4 + v / 16)) out)
            | S (S O) =>
                a2b_loop s' 3%nat (N.land v 3) O
                  (String (ascii_of_N (leftchar * 16 + v / 4)) out)
            | _ =>
                a2b_loop s' O 0%N O
                  (String (ascii_of_N (leftchar * 64 + v)) out)
            end
        end
  end.

Definition a2b_base64 (s : string) : option string :=
  a2b_loop s O 0%N O EmptyString.

(** [s.encode('ascii')] succeeds: every character is below 128. *)
Definition is_ascii (s : string) : bool :=
  PyStr.all_chars (fun c => (N_of_ascii c <? 128)%N) s.

(** [base64.b64encode(b).decode('utf8')] *)
Fixpoint b64encode (b : string) : string :=
  match b with
  | EmptyString => EmptyString
  | String x EmptyString =>
      let x := N_of_ascii x in
      String (char_of (x / 4))
        (String (char_of (N.land x 3 * 16)) "==")
  | String x (String y EmptyString) =>
      let x := N_of_ascii x in
      let y := N_of_ascii y in
      String (char_of (x / 4))
        (String (char_of (N.land x 3 * 16 + y / 16))
           (String (char_of (N.land y 15 * 4)) "="))
  | String x (String y (String z b')) =>
      let x := N_of_ascii x in
      let y := N_of_ascii y in
      let z := N_of_ascii z in
      String (char_of (x / 4))
        (String (char_of (N.land x 3 * 16 + y / 16))
           (String (char_of (N.land y 15 * 4 + z / 64))
              (String (char_of (N.land z 63)) (b64encode b'))))
  end.

End Base64.

(** ** Python dictionaries, as association lists in insertion order *)

Module Dict.
Section Dict.
Context {K V : Type} (eqb : K -> K -> bool).

Definition t := list (K * V).

(** [d.get(k)] *)
Fixpoint get (k : K) (d : t) : option V :=
  match d with
  | [] => None
  | (k', v) :: d' => if eqb k k' then Some v else get k d'
  end.

(** [k in d] *)
Definition mem (k : K) (d : t) : bool :=
  match get k d with Some _ => true | None => false end.

(** [d[k] = v]: an existing key keeps its place, a new key goes last *)
Fixpoint set (k : K) (v : V) (d : t) : t :=
  match d with
  | [] => [(k, v)]
  | (k', v') :: d' =>
      if eqb k k' then (k', v) :: d' else (k', v') :: set k v d'
  end.

(** [del d[k]] *)
Fixpoint del (k : K) (d : t) : t :=
  match d with
  | [] => []
  | (k', v') :: d' => if eqb k k' then d' else (k', v') :: del k d'
  end.

Definition keys (d : t) : list K := map fst d.

(** Keys of a dictionary are pairwise distinct. *)
Definition wf (d : t) : Prop := NoDup (keys d).
End Dict.
End Dict.

(** ** proton/loader/loader.py *)

Module Loader.

(** What a call of the code can end in. *)
Inductive exn :=
| RuntimeError (msg : string)
| NameError (var : string)           (* the variable has no value *)
| LoadFailure.                       (* any other exception of [ep.load()] *)

Inductive outcome (A : Type) :=
| Return (a : A)
| Raise (e : exn).
Arguments Return {A} a.
Arguments Raise {A} e.

(** [validate_params] is an optional dict of caller arguments. *)
Definition params := list (string * string).

(** The [_validate] class method, when a class has one: either it
    takes a [validate_params] argument or it takes none. *)
Inductive validator :=
| ValidateWithParams (f : option params -> bool)
| ValidateNoParams (r : bool).

(** A pluggable class: its identity as an object, what
    [_get_priority()] returns, and its [_validate] if it has one. *)
Record Cls := {
  cls_id : nat;
  _get_priority : option Z;
  _validate : option validator
}.

(** [PluggableComponent = namedtuple(priority, class_name, cls)] *)
Record PluggableComponent := {
  priority : option Z;
  class_name : string;
  cls : Cls
}.

(** [PluggableComponentName = namedtuple(type_name, class_name)] *)
Definition PluggableComponentName := (string * string)%type.

(** An entry point of the package metadata and what [ep.load()] does. *)
Inductive load_result :=
| Loaded (c : Cls)
| LoadAttributeError
| LoadOtherError.

Record EntryPoint := { ep_name : string; ep_load : load_result }.

(** [importlib.metadata.entry_points()]: group name to entry points. *)
Definition Metadata := list (string * list EntryPoint).

(** The two private dictionaries of the singleton. *)
Record Loader := {
  known_types : list (string * list (string * Cls));
  name_resolution_cache : list (nat * PluggableComponentName)
}.

Definition loader_prefix : string := "proton_loader_".

(** [__init__] *)
Definition init : Loader :=
  {| known_types := []; name_resolution_cache := [] |}.

(** [reset] *)
Definition reset (_ : Loader) : Loader :=
  {| known_types := []; name_resolution_cache := [] |}.

(** [_get_metadata_group_for_typename] *)
Definition _get_metadata_group_for_typename (type_name : string) : string :=
  loader_prefix ++ type_name.

(** [_proton_entry_point_groups] *)
Definition _proton_entry_point_groups (md : Metadata) : Metadata :=
  filter (fun g => PyStr.startswith (fst g) loader_prefix) md.

Definition cache_set (c : Cls) (n : PluggableComponentName)
    (cache : list (nat * PluggableComponentName)) :=
  Dict.set Nat.eqb (cls_id c) n cache.

(** [set_all] *)
Definition set_all (type_name : string) (implementations : list (string * Cls))
    (L : Loader) : Loader :=
  {| known_types := Dict.set String.eqb type_name implementations (known_types L);
     name_resolution_cache :=
       fold_left (fun cache kv => cache_set (snd kv) (type_name, fst kv) cache)
                 implementations (name_resolution_cache L) |}.

(** [get_name] *)
Definition get_name (c : Cls) (L : Loader) : option PluggableComponentName :=
  Dict.get Nat.eqb (cls_id c) (name_resolution_cache L).

(** The discovery loop of [get_all], run on the entry points that are
    left; [found] is [self.__known_types[type_name]] so far.  A
    repeated name deletes the type's dictionary and raises; a load
    that raises [AttributeError] is skipped with a warning. *)
Fixpoint discover (type_name : string) (eps : list EntryPoint)
    (found : list (string * Cls)) (L : Loader) : outcome unit * Loader :=
  match eps with
  | [] =>
      (Return tt,
       {| known_types := Dict.set String.eqb type_name found (known_types L);
          name_resolution_cache := name_resolution_cache L |})
  | ep :: eps' =>
      if Dict.mem String.eqb (ep_name ep) found
      then (Raise (RuntimeError
              "Loader error : found 2 modules with same name (that would create security issues)"),
            {| known_types := Dict.del String.eqb type_name (known_types L);
               name_resolution_cache := name_resolution_cache L |})
      else match ep_load ep with
           | Loaded c =>
               discover type_name eps'
                 (Dict.set String.eqb (ep_name ep) c found)
                 {| known_types := known_types L;
                    name_resolution_cache :=
                      cache_set c (type_name, ep_name ep) (name_resolution_cache L) |}
           | LoadAttributeError => discover type_name eps' found L
           | LoadOtherError =>
               (Raise LoadFailure,
                {| known_types := Dict.set String.eqb type_name found (known_types L);
                   name_resolution_cache := name_resolution_cache L |})
           end
  end.

(** The first block of [get_all]: load the entry points of a type
    that is not known yet. *)
Definition ensure_known (md : Metadata) (type_name : string) (L : Loader)
    : outcome unit * Loader :=
  if Dict.mem String.eqb type_name (known_types L)
  then (Return tt, L)
  else
    let metadata_group_name := _get_metadata_group_for_typename type_name in
    let entry_points :=
      match Dict.get String.eqb metadata_group_name (_proton_entry_point_groups md) with
      | Some eps => eps
      | None => []
      end in
    discover type_name entry_points []
      {| known_types := Dict.set String.eqb type_name [] (known_types L);
         name_resolution_cache := name_resolution_cache L |}.

(** [os.environ.get('PROTON_LOADER_OVERRIDES', '')], cut into its
    tokens: [[x.strip() for x in overrides.split()]]. *)
Definition override_tokens (environ : option string) : list string :=
  let overrides := match environ with Some s => s | None => "" end in
  map PyStr.strip (PyStr.split overrides).

(** The override tokens of [type_name], with the [type_name=] prefix
    removed: line 189. *)
Definition overrides_for (environ : option string) (type_name : string)
    : list string :=
  map (PyStr.drop (String.length type_name + 1))
      (filter (fun x => PyStr.startswith x (type_name ++ "="))
              (override_tokens environ)).

(** [set([x for x in overrides if not x.startswith('-')])], as the
    list of its distinct elements. *)
Definition force_class_set (overrides : list string) : list string :=
  nodup string_dec
    (filter (fun x => negb (PyStr.startswith x "-")) overrides).

(** Lines 191-203: the variable [acceptable_entry_points], the names
    whose priority is asked for.  [None] says that no branch has
    assigned it: one name is forced, and the type does not have it. *)
Definition acceptable_entry_points (type_name : string)
    (overrides : list string) (known : list (string * Cls))
    : outcome (option (list string)) :=
  match force_class_set overrides with
  | [force_class] =>
      if Dict.mem String.eqb force_class known
      then Return (Some [force_class])
      else Return None
  | _ :: _ :: _ =>
      Raise (RuntimeError
               ("Loader: PROTON_LOADER_OVERRIDES contains multiple force for "
                ++ type_name))
  | [] =>
      Return (Some (filter (fun k => negb (PyStr.mem ("-" ++ k) overrides))
                           (Dict.keys known)))
  end.

(** The variable as the comprehensions of lines 205-206 read it: once
    for each item of [known], so that with no item it is not read, and
    with an item the read of a variable without a value raises
    [NameError] (as its subclass [UnboundLocalError] since the
    comprehensions are inlined: Python 3.12). *)
Definition read_for_each_item (known : list (string * Cls))
    (variable : option (list string)) : outcome (list string) :=
  match variable, known with
  | Some acceptable, _ => Return acceptable
  | None, [] => Return []
  | None, _ :: _ => Raise (NameError "acceptable_entry_points")
  end.

(** Lines 191-206 as far as the names go: the assignment of the
    variable, then its reads. *)
Definition names_asked (type_name : string) (overrides : list string)
    (known : list (string * Cls)) : outcome (list string) :=
  match acceptable_entry_points type_name overrides known with
  | Raise e => Raise e
  | Return variable => read_for_each_item known variable
  end.

(** The order of the tuples [(priority, class_name, cls)] with a
    priority: by priority, then by name.  Two entries of one type
    never share a name, so the class is never compared. *)
Definition component_ltb (a b : PluggableComponent) : bool :=
  match priority a, priority b with
  | Some p, Some q =>
      (p <? q) || ((p =? q) && String.ltb (class_name a) (class_name b))
  | _, _ => false
  end.

(** [list.sort(reverse=True)]: stable, largest first. *)
Fixpoint insert_desc (x : PluggableComponent) (l : list PluggableComponent)
    : list PluggableComponent :=
  match l with
  | [] => [x]
  | y :: l' => if component_ltb x y then y :: insert_desc x l' else x :: l
  end.

Definition sort_reverse (l : list PluggableComponent) : list PluggableComponent :=
  fold_right insert_desc [] l.

Definition has_priority (c : PluggableComponent) : bool :=
  match priority c with Some _ => true | None => false end.

(** The two kinds of tuple of lines 205-206: an acceptable name is
    asked for its priority, any other name gets [None]. *)
Definition with_own_priority (kv : string * Cls) : PluggableComponent :=
  {| priority := _get_priority (snd kv); class_name := fst kv; cls := snd kv |}.

Definition without_priority (kv : string * Cls) : PluggableComponent :=
  {| priority := None; class_name := fst kv; cls := snd kv |}.

(** Lines 205-206: [acceptable_classes], before it is split. *)
Definition acceptable_classes (acceptable : list string)
    (known : list (string * Cls)) : list PluggableComponent :=
  (map with_own_priority
       (filter (fun kv => PyStr.mem (fst kv) acceptable) known)
   ++ map without_priority
        (filter (fun kv => negb (PyStr.mem (fst kv) acceptable)) known))%list.

(** Lines 207-213. *)
Definition order_components (acceptable : list string)
    (known : list (string * Cls)) : list PluggableComponent :=
  let acceptable_classes := acceptable_classes acceptable known in
  let acceptable_classes_with_prio := filter has_priority acceptable_classes in
  let acceptable_classes_without_prio :=
    filter (fun c => negb (has_priority c)) acceptable_classes in
  (sort_reverse acceptable_classes_with_prio ++ acceptable_classes_without_prio)%list.

(** [self.__known_types[type_name]] *)
Definition implementations (type_name : string) (L : Loader)
    : list (string * Cls) :=
  match Dict.get String.eqb type_name (known_types L) with
  | Some d => d
  | None => []
  end.

(** [get_all].  [md] is the installed package metadata and [environ]
    the value of [PROTON_LOADER_OVERRIDES], if set. *)
Definition get_all (md : Metadata) (environ : option string)
    (type_name : string) (L : Loader)
    : outcome (list PluggableComponent) * Loader :=
  match ensure_known md type_name L with
  | (Raise e, L') => (Raise e, L')
  | (Return _, L') =>
      let overrides := overrides_for environ type_name in
      let known := implementations type_name L' in
      match names_asked type_name overrides known with
      | Raise e => (Raise e, L')
      | Return acceptable => (Return (order_components acceptable known), L')
      end
  end.

(** Whether [_validate] accepts the entry: lines 118-127. *)
Definition entry_is_valid (c : Cls) (validate_params : option params) : bool :=
  match _validate c with
  | Some (ValidateWithParams f) => f validate_params
  | Some (ValidateNoParams r) => r
  | None => true
  end.

(** The loop of [get] over the entries that are left. *)
Fixpoint get_loop (entries : list PluggableComponent)
    (class_name_arg : option string) (validate_params : option params)
    : option Cls :=
  match entries with
  | [] => None
  | entry :: rest =>
      match class_name_arg with
      | Some wanted =>
          if String.eqb (class_name entry) wanted
          then Some (cls entry)
          else get_loop rest class_name_arg validate_params
      | None =>
          match priority entry with
          | None => get_loop rest class_name_arg validate_params
          | Some _ =>
              if entry_is_valid (cls entry) validate_params
              then Some (cls entry)
              else get_loop rest class_name_arg validate_params
          end
      end
  end.

(** [get] *)
Definition get (md : Metadata) (environ : option string)
    (type_name : string) (class_name_arg : option string)
    (validate_params : option params) (L : Loader)
    : outcome Cls * Loader :=
  match get_all md environ type_name L with
  | (Raise e, L') => (Raise e, L')
  | (Return acceptable_classes, L') =>
      match get_loop acceptable_classes class_name_arg validate_params with
      | Some c => (Return c, L')
      | None =>
          (Raise (RuntimeError
                    ("Loader: couldn't find an acceptable implementation for "
                     ++ type_name ++ ".")),
           L')
      end
  end.

(** [type_names] *)
Definition type_names (md : Metadata) : list string :=
  map (fun g => PyStr.drop (String.length loader_prefix) (fst g))
      (_proton_entry_point_groups md).

(** Every dictionary of implementations has distinct names. *)
Definition wf (L : Loader) : Prop :=
  Forall (fun td => Dict.wf (snd td)) (known_types L).

(** The name and the class of an entry of the list. *)
Definition entry_of (c : PluggableComponent) : string * Cls :=
  (class_name c, cls c).


(** [name] is excluded for [type_name]: a token [type_name=-name]. *)
Definition excluded (environ : option string) (type_name name : string) : Prop :=
  In (type_name ++ "=-" ++ name) (override_tokens environ).

(** [name] is forced for [type_name]: a token [type_name=name]. *)
Definition forced (environ : option string) (type_name name : string) : Prop :=
  In (type_name ++ "=" ++ name) (override_tokens environ).

End Loader.

(** ** proton/session/environments.py and proton/session/api.py *)

Module Session.

(** The values that replies, snapshots and session attributes hold. *)
Inductive value :=
| VNone
| VInt (z : Z)
| VStr (s : string)
| VList (l : list string)
| VDict (d : list (string * string)).

(** A parsed JSON object, or any dict with string keys. *)
Definition json := list (string * value).

(** Modelled from the spec: the exception classes of
    proton/session/exceptions.py, which is not among the sources.  An
    API error carries the HTTP status, the response headers and the
    error code of the body.  [async_logout] also reads an attribute
    [code], which the spec does not list: [None] says that the object
    has no such attribute. *)
Record api_error := {
  http_code : Z;
  http_headers : list (string * string);
  body_code : Z;
  code : option Z
}.

Inductive exn :=
| ProtonAPIError (e : api_error)
| ProtonAPIAuthenticationNeeded (e : api_error)
| ProtonAPI2FANeeded (e : api_error)
| ProtonAPIMissingScopeError (e : api_error)
| ProtonCryptoError (msg : string)
| RuntimeError (msg : string)
| ValueError
| BinasciiError                      (* [binascii.Error], a [ValueError] *)
| OverflowError
| TypeError
| AssertionError
| KeyError (key : string)
| AttributeError (name : string)
| OtherError (tag : nat).

(** [except ProtonAPIError as e]: the class and its subclasses. *)
Definition as_api_error (x : exn) : option api_error :=
  match x with
  | ProtonAPIError e | ProtonAPIAuthenticationNeeded e
  | ProtonAPI2FANeeded e | ProtonAPIMissingScopeError e => Some e
  | _ => None
  end.

(** A coroutine returns, raises, or waits for ever (it waits for a
    gate that nothing else opens, or for a transport that is silent). *)
Inductive outcome (A : Type) :=
| Return (a : A)
| Raise (x : exn)
| Blocked.
Arguments Return {A} a.
Arguments Raise {A} x.
Arguments Blocked {A}.

(** An instance of a subclass of [Environment], by the name of its
    class. *)
Record Environment := { env_class_name : string }.

(** [Environment.name] *)
Definition name (e : Environment) : outcome string :=
  let cls_name := env_class_name e in
  if PyStr.endswith cls_name "Environment"
  then Return (PyStr.lower
                 (PyStr.take (String.length cls_name - 11) cls_name))
  else Raise AssertionError.

Definition ProdEnvironment : Environment :=
  {| env_class_name := "ProdEnvironment" |}.

(** A transport object, by its identity. *)
Definition Transport := nat.

Record Session := mkSession {
  appversion : string;
  user_agent : string;
  UID : value;
  AccessToken : value;
  RefreshToken : value;
  Scopes : value;
  AccountName : value;
  __2FA : value;
  __refresh_revision : Z;
  __transport : option Transport;
  (** the transport that the factory builds, when a factory is set *)
  __transport_factory : option Transport;
  (** the [asyncio.Event]: not created yet, or cleared / set *)
  __can_run_requests : option bool;
  __environment : option Environment;
  __persistence_observers : list nat
}.

Record request := {
  endpoint : string;
  jsondata : option json;
  additional_headers : option (list (string * string));
  method : option string;
  params : option (list (string * string))
}.

(** What [asyncio.sleep] is given: an [int], or the value of
    [3+random.random()*5] (computed exactly, on rationals). *)
Inductive duration :=
| Seconds (n : Z)
| SecondsQ (q : Q).

Inductive event :=
| Requested (r : request)
| Slept (d : duration)
| Acquired (observer : nat) (account_name : value) (session_data : json)
| Released (observer : nat) (account_name : value) (session_data : json).

(** Modelled from the spec: the SRP engine (proton/session/srp.py) and
    the check of the signed modulus against the embedded key
    (constants.py, gnupg), which are not among the sources.  The
    engine makes a client challenge from password and modulus, makes a
    client proof from salt, server challenge and version or signals an
    invalid challenge, and verifies a server proof.  Modulus,
    challenges, salt and proofs are bytes. *)
Record SrpEngine := {
  verify_modulus : value -> option string;
  get_challenge : string -> string -> string;
  process_challenge :
    string -> string -> string -> string -> value -> option string;
  verify_session :
    string -> string -> string -> string -> value -> string -> bool
}.

(** All that lies outside the session object: the answers that the
    transport will give, call after call; the samples that
    [random.random()] will return, as numerators over 2^53; what
    [Loader.get] finds; the SRP engine; and the record of what was
    done. *)
Record World := mkWorld {
  script : nat -> outcome json;
  calls : nat;
  randoms : nat -> N;
  drawn : nat;
  trace : list event;
  loader_transport : option Transport;
  loader_environment : option Environment;
  srp : SrpEngine
}.

Definition St := (Session * World)%type.

(** *** The monad of coroutines over a session and its world *)

Definition M (A : Type) := St -> outcome A * St.

Definition ret {A} (a : A) : M A := fun st => (Return a, st).
Definition raise {A} (x : exn) : M A := fun st => (Raise x, st).
Definition blocked {A} : M A := fun st => (Blocked, st).

Definition bind {A B} (m : M A) (k : A -> M B) : M B :=
  fun st =>
    match m st with
    | (Return a, st') => k a st'
    | (Raise x, st') => (Raise x, st')
    | (Blocked, st') => (Blocked, st')
    end.

Declare Scope py_scope.
Delimit Scope py_scope with py.
Notation "x <- c1 ;; c2" := (bind c1 (fun x => c2))
  (at level 61, c1 at next level, right associativity) : py_scope.
Notation "c1 ;; c2" := (bind c1 (fun _ => c2))
  (at level 61, right associativity) : py_scope.
Local Open Scope py_scope.

(** [try: body finally: fin] *)
Definition finally {A} (body : M A) (fin : M unit) : M A :=
  fun st =>
    match body st with
    | (Blocked, st') => (Blocked, st')
    | (r, st') =>
        match fin st' with
        | (Return _, st'') => (r, st'')
        | (Raise x, st'') => (Raise x, st'')
        | (Blocked, st'') => (Blocked, st'')
        end
    end.

(** [try: body except ProtonAPIError as e: handler]; the handler is
    given the exception itself, for a bare [raise], and its data. *)
Definition try_except_api {A} (body : M A) (handler : exn -> api_error -> M A)
    : M A :=
  fun st =>
    match body st with
    | (Raise x, st') =>
        match as_api_error x with
        | Some e => handler x e st'
        | None => (Raise x, st')
        end
    | r => r
    end.

Definition get_session : M Session := fun st => (Return (fst st), st).
Definition get_world : M World := fun st => (Return (snd st), st).
Definition modify_session (f : Session -> Session) : M unit :=
  fun st => (Return tt, (f (fst st), snd st)).
Definition modify_world (f : World -> World) : M unit :=
  fun st => (Return tt, (fst st, f (snd st))).
Definition lift {A} (r : outcome A) : M A := fun st => (r, st).

(** [d[key]] *)
Definition item (d : json) (key : string) : M value :=
  match Dict.get String.eqb key d with
  | Some v => ret v
  | None => raise (KeyError key)
  end.

(** [d.get(key, None)] *)
Definition get_or_none (d : json) (key : string) : value :=
  match Dict.get String.eqb key d with
  | Some v => v
  | None => VNone
  end.

Definition is_none (v : value) : bool :=
  match v with VNone => true | _ => false end.

(** *** Assignments to the attributes of the session *)

Definition set_UID (v : value) (s : Session) : Session :=
  mkSession (appversion s) (user_agent s) v (AccessToken s) (RefreshToken s)
    (Scopes s) (AccountName s) (__2FA s) (__refresh_revision s) (__transport s)
    (__transport_factory s) (__can_run_requests s) (__environment s)
    (__persistence_observers s).
Definition set_AccessToken (v : value) (s : Session) : Session :=
  mkSession (appversion s) (user_agent s) (UID s) v (RefreshToken s)
    (Scopes s) (AccountName s) (__2FA s) (__refresh_revision s) (__transport s)
    (__transport_factory s) (__can_run_requests s) (__environment s)
    (__persistence_observers s).
Definition set_RefreshToken (v : value) (s : Session) : Session :=
  mkSession (appversion s) (user_agent s) (UID s) (AccessToken s) v
    (Scopes s) (AccountName s) (__2FA s) (__refresh_revision s) (__transport s)
    (__transport_factory s) (__can_run_requests s) (__environment s)
    (__persistence_observers s).
Definition set_Scopes (v : value) (s : Session) : Session :=
  mkSession (appversion s) (user_agent s) (UID s) (AccessToken s) (RefreshToken s)
    v (AccountName s) (__2FA s) (__refresh_revision s) (__transport s)
    (__transport_factory s) (__can_run_requests s) (__environment s)
    (__persistence_observers s).
Definition set_AccountName (v : value) (s : Session) : Session :=
  mkSession (appversion s) (user_agent s) (UID s) (AccessToken s) (RefreshToken s)
    (Scopes s) v (__2FA s) (__refresh_revision s) (__transport s)
    (__transport_factory s) (__can_run_requests s) (__environment s)
    (__persistence_observers s).
Definition set_2FA (v : value) (s : Session) : Session :=
  mkSession (appversion s) (user_agent s) (UID s) (AccessToken s) (RefreshToken s)
    (Scopes s) (AccountName s) v (__refresh_revision s) (__transport s)
    (__transport_factory s) (__can_run_requests s) (__environment s)
    (__persistence_observers s).
Definition set_refresh_revision (n : Z) (s : Session) : Session :=
  mkSession (appversion s) (user_agent s) (UID s) (AccessToken s) (RefreshToken s)
    (Scopes s) (AccountName s) (__2FA s) n (__transport s)
    (__transport_factory s) (__can_run_requests s) (__environment s)
    (__persistence_observers s).
Definition set_transport (t : option Transport) (s : Session) : Session :=
  mkSession (appversion s) (user_agent s) (UID s) (AccessToken s) (RefreshToken s)
    (Scopes s) (AccountName s) (__2FA s) (__refresh_revision s) t
    (__transport_factory s) (__can_run_requests s) (__environment s)
    (__persistence_observers s).
Definition set_can_run_requests (g : option bool) (s : Session) : Session :=
  mkSession (appversion s) (user_agent s) (UID s) (AccessToken s) (RefreshToken s)
    (Scopes s) (AccountName s) (__2FA s) (__refresh_revision s) (__transport s)
    (__transport_factory s) g (__environment s)
    (__persistence_observers s).
Definition set_environment (e : option Environment) (s : Session) : Session :=
  mkSession (appversion s) (user_agent s) (UID s) (AccessToken s) (RefreshToken s)
    (Scopes s) (AccountName s) (__2FA s) (__refresh_revision s) (__transport s)
    (__transport_factory s) (__can_run_requests s) e
    (__persistence_observers s).
Definition set_persistence_observers (l : list nat) (s : Session) : Session :=
  mkSession (appversion s) (user_agent s) (UID s) (AccessToken s) (RefreshToken s)
    (Scopes s) (AccountName s) (__2FA s) (__refresh_revision s) (__transport s)
    (__transport_factory s) (__can_run_requests s) (__environment s) l.

(** The four assignments [self.__UID = None] ... [self.__Scopes = None] *)
Definition clear_credentials (s : Session) : Session :=
  set_Scopes VNone (set_RefreshToken VNone (set_AccessToken VNone (set_UID VNone s))).

(** The world after one more event, one more call of the transport,
    one more random sample. *)
Definition record (ev : event) (w : World) : World :=
  mkWorld (script w) (calls w) (randoms w) (drawn w) (trace w ++ [ev])
          (loader_transport w) (loader_environment w) (srp w).

Definition next_call (w : World) : World :=
  mkWorld (script w) (S (calls w)) (randoms w) (drawn w) (trace w)
          (loader_transport w) (loader_environment w) (srp w).

Definition next_draw (w : World) : World :=
  mkWorld (script w) (calls w) (randoms w) (S (drawn w)) (trace w)
          (loader_transport w) (loader_environment w) (srp w).

(** The sample that [random.random()] gives next: a multiple of
    2^-53 in [0, 1). *)
Definition sample (w : World) : Q :=
  Z.of_N (randoms w (drawn w) mod 2 ^ 53) # 2 ^ 53.

Definition emit (ev : event) : M unit := modify_world (record ev).

(** *** The session *)

(** [__init__], with the setter of [transport_factory] given [None]:
    the default transport comes from [Loader.get('transport')], which
    raises when it finds none. *)
Definition __init__ (appversion user_agent : string) (w : World)
    : outcome Session :=
  match loader_transport w with
  | None =>
      Raise (RuntimeError
        "Loader: couldn't find an acceptable implementation for transport.")
  | Some default_transport =>
      Return (mkSession appversion user_agent VNone VNone VNone VNone VNone
                VNone 0 None (Some default_transport) None None [])
  end.

(** [register_persistence_observer] *)
Definition register_persistence_observer (observer : nat) : M unit :=
  modify_session (fun s =>
    set_persistence_observers (__persistence_observers s ++ [observer]) s).

(** [authenticated] *)
Definition authenticated (s : Session) : bool := negb (is_none (UID s)).

(** ['twofactor' in scopes], by the type of [scopes] *)
Definition needs_twofa : M bool :=
  s <- get_session ;;
  match Scopes s with
  | VNone => ret false
  | VList l => ret (PyStr.mem "twofactor" l)
  | VStr x => ret (PyStr.contains x "twofactor")
  | VDict d => ret (Dict.mem String.eqb "twofactor" d)
  | VInt _ => raise TypeError
  end.

(** The getter of [environment] *)
Definition environment : M Environment :=
  s <- get_session ;;
  match __environment s with
  | Some e => ret e
  | None =>
      w <- get_world ;;
      match loader_environment w with
      | Some e => modify_session (set_environment (Some e)) ;; ret e
      | None =>
          raise (RuntimeError
            "Loader: couldn't find an acceptable implementation for environment.")
      end
  end.

(** [Environment.get_environment]: the body of class [Environment]
    (environments.py) defines [name], [http_extra_headers],
    [http_base_url], [tls_pinning_hashes], [tls_pinning_hashes_ar] and
    [__eq__], and no [get_environment]; neither [object] nor [ABCMeta]
    has one. *)
Definition Environment_get_environment
    : option (value -> M (option Environment)) := None.

(** The body of [__setstate__], given what the attribute
    [get_environment] of class [Environment] is: looking up an
    attribute that the class does not have raises [AttributeError]. *)
Definition setstate_with
    (get_environment : option (value -> M (option Environment)))
    (data : json) : M unit :=
  modify_session (set_UID (get_or_none data "UID")) ;;
  modify_session (set_AccessToken (get_or_none data "AccessToken")) ;;
  modify_session (set_RefreshToken (get_or_none data "RefreshToken")) ;;
  modify_session (set_Scopes (get_or_none data "Scopes")) ;;
  modify_session (set_AccountName (get_or_none data "AccountName")) ;;
  modify_session (set_transport None) ;;
  match get_environment with
  | None => raise (AttributeError "get_environment")
  | Some get_environment =>
      e <- get_environment (get_or_none data "Environment") ;;
      modify_session (set_environment e)
  end.

(** [__setstate__] *)
Definition __setstate__ (data : json) : M unit :=
  setstate_with Environment_get_environment data.

(** [__getstate__] *)
Definition __getstate__ : M json :=
  s <- get_session ;;
  if is_none (UID s) then ret []
  else
    env <- environment ;;
    env_name <- lift (name env) ;;
    ret [("UID", UID s); ("AccessToken", AccessToken s);
         ("RefreshToken", RefreshToken s); ("Scopes", Scopes s);
         ("Environment", VStr env_name); ("AccountName", AccountName s)].

(** [load]: a new object, then [__setstate__] on it. *)
Definition load (dump : json) (w : World) : outcome Session * World :=
  match __init__ "Other" "None" w with
  | Raise x => (Raise x, w)
  | Blocked => (Blocked, w)
  | Return new_obj =>
      match __setstate__ dump (new_obj, w) with
      | (Return _, (new_obj', w')) => (Return new_obj', w')
      | (Raise x, (_, w')) => (Raise x, w')
      | (Blocked, (_, w')) => (Blocked, w')
      end
  end.

(** [dump] *)
Definition dump : M json := __getstate__.

Fixpoint for_each {A} (f : A -> M unit) (l : list A) : M unit :=
  match l with
  | [] => ret tt
  | a :: l' => f a ;; for_each f l'
  end.

(** [_requests_lock] *)
Definition _requests_lock (no_condition_check : bool) : M unit :=
  if no_condition_check then ret tt
  else
    modify_session (set_can_run_requests (Some false)) ;;
    s <- get_session ;;
    let account_name := AccountName s in
    session_data <- __getstate__ ;;
    s <- get_session ;;
    for_each (fun observer => emit (Acquired observer account_name session_data))
             (__persistence_observers s).

(** [_requests_unlock] *)
Definition _requests_unlock (no_condition_check : bool) : M unit :=
  if no_condition_check then ret tt
  else
    modify_session (set_can_run_requests (Some true)) ;;
    s <- get_session ;;
    let account_name := AccountName s in
    session_data <- __getstate__ ;;
    s <- get_session ;;
    for_each (fun observer => emit (Released observer account_name session_data))
             (rev (__persistence_observers s)).

(** [_requests_wait] *)
Definition _requests_wait (no_condition_check : bool) : M unit :=
  s <- get_session ;;
  if no_condition_check then ret tt
  else match __can_run_requests s with
       | None => ret tt
       | Some true => ret tt
       | Some false => blocked
       end.

(** [self.__transport.async_api_request(...)]: the next answer of the
    script. *)
Definition transport_call (r : request) : M json :=
  emit (Requested r) ;;
  w <- get_world ;;
  modify_world next_call ;;
  lift (script w (calls w)).

(** [__async_api_request_internal] *)
Definition __async_api_request_internal (endpoint : string)
    (jsondata : option json) (additional_headers : option (list (string * string)))
    (method : option string) (params : option (list (string * string)))
    (no_condition_check : bool) : M json :=
  s <- get_session ;;
  match __transport s, __transport_factory s with
  | None, Some t => modify_session (set_transport (Some t))
  | _, _ => ret tt
  end ;;
  s <- get_session ;;
  match __transport s with
  | None =>
      raise (RuntimeError
        "Could not instanciate a transport, are required dependencies installed?")
  | Some _ =>
      _requests_wait no_condition_check ;;
      transport_call {| endpoint := endpoint; jsondata := jsondata;
                        additional_headers := additional_headers;
                        method := method; params := params |}
  end.

(** [random.random()] *)
Definition random : M Q :=
  w <- get_world ;;
  modify_world next_draw ;;
  ret (sample w).

(** The least [int] that is too large to convert to [float]. *)
Definition float_overflow : Z := 2 ^ 1024 - 2 ^ 970.

(** [asyncio.sleep]: the delay is added to the clock of the loop, a
    [float], and an [int] that is too large for that raises
    [OverflowError]. *)
Definition sleep (d : duration) : M unit :=
  match d with
  | Seconds n =>
      if float_overflow <=? n then raise OverflowError else emit (Slept d)
  | SecondsQ _ => emit (Slept d)
  end.

(** [base64.b64decode] of a value of a reply: a [str] of ASCII
    characters is decoded, a [str] with another character raises
    [ValueError], and a value that is no [str] raises [TypeError]. *)
Definition b64decode (v : value) : M string :=
  match v with
  | VStr s =>
      if Base64.is_ascii s
      then match Base64.a2b_base64 s with
           | Some b => ret b
           | None => raise BinasciiError
           end
      else raise ValueError
  | _ => raise TypeError
  end.

(** [__sleep_for_exception] *)
Definition __sleep_for_exception (e : api_error) : M unit :=
  let retry_after :=
    match Dict.get String.eqb "retry-after" (http_headers e) with
    | Some h => h
    | None => "-"
    end in
  if PyStr.isnumeric retry_after
  then match PyStr.int retry_after with
       | Some n => sleep (Seconds n)
       | None => raise ValueError
       end
  else r <- random ;; sleep (SecondsQ (3 + r * 5)%Q).

(** The request of [async_refresh], lines 442-447. *)
Definition refresh_request : M json :=
  s <- get_session ;;
  __async_api_request_internal "/auth/refresh"
    (Some [("ResponseType", VStr "token");
           ("GrantType", VStr "refresh_token");
           ("RefreshToken", RefreshToken s);
           ("RedirectURI", VStr "http://protonmail.ch")])
    None None None true.

(** The loop of [async_refresh], with [attempts] attempts left;
    leaving the loop, the function returns [None]. *)
Fixpoint refresh_loop (attempts : nat) : M (option bool) :=
  match attempts with
  | O => ret None
  | S attempts' =>
      try_except_api
        (refresh_response <- refresh_request ;;
         v <- item refresh_response "AccessToken" ;;
         modify_session (set_AccessToken v) ;;
         v <- item refresh_response "RefreshToken" ;;
         modify_session (set_RefreshToken v) ;;
         v <- item refresh_response "Scopes" ;;
         modify_session (set_Scopes v) ;;
         ret (Some true))
        (fun _ e =>
           if http_code e =? 409 then refresh_loop attempts'
           else if (http_code e =? 429) || (http_code e =? 503)
           then __sleep_for_exception e ;; refresh_loop attempts'
           else if (http_code e =? 400) || (http_code e =? 422)
           then modify_session clear_credentials ;; ret (Some false)
           else ret (Some false))
  end.

(** [async_refresh] *)
Definition async_refresh (only_when_refresh_revision_is : option Z)
    (no_condition_check : bool) : M (option bool) :=
  _requests_lock no_condition_check ;;
  s <- get_session ;;
  if match only_when_refresh_revision_is with Some _ => true | None => false end
     && negb (__refresh_revision s =? __refresh_revision s)
  then _requests_unlock no_condition_check ;; ret (Some true)
  else
    modify_session (set_refresh_revision (__refresh_revision s + 1)) ;;
    finally (refresh_loop 3) (_requests_unlock no_condition_check).

(** Whether a result of [async_refresh] counts as true in an [if]. *)
Definition truthy (r : option bool) : bool :=
  match r with Some true => true | _ => false end.

(** The loop of [async_api_request], with [attempts] attempts left;
    leaving the loop, the function returns [None].  The method
    [async_refresh] is looked up on [self] when a call has failed with
    status 401: the loop is written for the procedure that is found
    there. *)
Fixpoint api_request_loop_with
    (async_refresh : option Z -> bool -> M (option bool))
    (attempts : nat) (endpoint : string)
    (jsondata : option json) (additional_headers : option (list (string * string)))
    (method : option string) (params : option (list (string * string)))
    (no_condition_check : bool) : M (option json) :=
  match attempts with
  | O => ret None
  | S attempts' =>
      let continue :=
        api_request_loop_with async_refresh attempts' endpoint jsondata
          additional_headers method params no_condition_check in
      s <- get_session ;;
      let refresh_revision_at_start := __refresh_revision s in
      try_except_api
        (r <- __async_api_request_internal endpoint jsondata additional_headers
                method params no_condition_check ;;
         ret (Some r))
        (fun x e =>
           if http_code e =? 403 then
             twofa <- needs_twofa ;;
             if twofa then raise (ProtonAPI2FANeeded e)
             else raise (ProtonAPIMissingScopeError e)
           else if http_code e =? 401 then
             refreshed <- async_refresh (Some refresh_revision_at_start)
                            no_condition_check ;;
             if truthy refreshed then continue
             else raise (ProtonAPIAuthenticationNeeded e)
           else if (http_code e =? 408) || (http_code e =? 502) then continue
           else if (http_code e =? 429) || (http_code e =? 503) then
             __sleep_for_exception e ;; continue
           else raise x)
  end.

(** The loop of the class [Session], whose [async_refresh] is the one
    above. *)
Definition api_request_loop : nat -> string -> option json ->
    option (list (string * string)) -> option string ->
    option (list (string * string)) -> bool -> M (option json) :=
  api_request_loop_with async_refresh.

(** [async_api_request] *)
Definition async_api_request (endpoint : string)
    (jsondata : option json) (additional_headers : option (list (string * string)))
    (method : option string) (params : option (list (string * string)))
    (no_condition_check : bool) : M (option json) :=
  api_request_loop 3 endpoint jsondata additional_headers method params
    no_condition_check.

(** [async_logout]; the function returns [None] when the handler of
    [ProtonAPIError] does not raise. *)
Definition async_logout (no_condition_check : bool) : M (option bool) :=
  s <- get_session ;;
  if negb (authenticated s) then ret (Some true)
  else
    _requests_lock no_condition_check ;;
    finally
      (try_except_api
         (_ <- __async_api_request_internal "/auth" None None (Some "DELETE")
                 None true ;;
          modify_session clear_credentials ;;
          ret (Some true))
         (fun x e =>
            match code e with
            | None => raise (AttributeError "code")
            | Some c => if negb (c =? 401) then raise x else ret None
            end))
      (_requests_unlock no_condition_check).

(** Lines 373-384 of [async_authenticate]: the reply of [/auth] is
    stored, attribute after attribute. *)
Definition store_authentication (auth_response : json) (username : string)
    : M bool :=
  v <- item auth_response "UID" ;;
  modify_session (set_UID v) ;;
  v <- item auth_response "AccessToken" ;;
  modify_session (set_AccessToken v) ;;
  v <- item auth_response "RefreshToken" ;;
  modify_session (set_RefreshToken v) ;;
  v <- item auth_response "Scopes" ;;
  modify_session (set_Scopes v) ;;
  modify_session (set_AccountName (VStr username)) ;;
  modify_session (set_2FA (get_or_none auth_response "2FA")) ;;
  ret true.

(** [async_authenticate] *)
Definition async_authenticate (username password : string)
    (no_condition_check : bool) : M bool :=
  _requests_lock no_condition_check ;;
  _ <- async_logout true ;;
  finally
    (info_response <-
       __async_api_request_internal "/auth/info"
         (Some [("Username", VStr username)]) None None None true ;;
     w <- get_world ;;
     armored_modulus <- item info_response "Modulus" ;;
     match verify_modulus (srp w) armored_modulus with
     | None => raise (ProtonCryptoError "Invalid modulus")
     | Some modulus =>
         server_challenge <-
           (v <- item info_response "ServerEphemeral" ;; b64decode v) ;;
         salt <- (v <- item info_response "Salt" ;; b64decode v) ;;
         version <- item info_response "Version" ;;
         let client_challenge := get_challenge (srp w) password modulus in
         match process_challenge (srp w) password modulus salt
                 server_challenge version with
         | None => raise (ProtonCryptoError "Invalid challenge")
         | Some client_proof =>
             srp_session <- item info_response "SRPSession" ;;
             let payload :=
               [("Username", VStr username);
                ("ClientEphemeral", VStr (Base64.b64encode client_challenge));
                ("ClientProof", VStr (Base64.b64encode client_proof));
                ("SRPSession", srp_session)] in
             auth <-
               try_except_api
                 (r <- __async_api_request_internal "/auth" (Some payload)
                         None None None true ;;
                  ret (Some r))
                 (fun x e => if body_code e =? 8002 then ret None else raise x) ;;
             match auth with
             | None => ret false
             | Some auth_response =>
                 if negb (Dict.mem String.eqb "ServerProof" auth_response)
                 then ret false
                 else
                   server_proof <-
                     (v <- item auth_response "ServerProof" ;; b64decode v) ;;
                   if negb (verify_session (srp w) password modulus salt
                              server_challenge version server_proof)
                   then raise (ProtonCryptoError "Invalid server proof")
                   else store_authentication auth_response username
             end
         end
     end)
    (_requests_unlock no_condition_check).

(** [async_provide_2fa] *)
Definition async_provide_2fa (code : string) (no_condition_check : bool)
    : M bool :=
  _requests_lock no_condition_check ;;
  finally
    (reply <-
       __async_api_request_internal "/auth/2fa"
         (Some [("TwoFactorCode", VStr code)]) None None None true ;;
     v <- item reply "Scopes" ;;
     modify_session (set_Scopes v) ;;
     match Dict.get String.eqb "Code" reply with
     | Some (VInt 1000) => modify_session (set_2FA VNone) ;; ret true
     | _ => ret false
     end)
    (_requests_unlock no_condition_check).

(** [async_lock] *)
Definition async_lock (no_condition_check : bool) : M bool :=
  _requests_lock no_condition_check ;;
  finally
    (_ <- __async_api_request_internal "/users/lock" None None (Some "PUT")
            None true ;;
     reply <- __async_api_request_internal "/auth/scopes" None None None
                None true ;;
     v <- item reply "Scopes" ;;
     modify_session (set_Scopes v) ;;
     ret true)
    (_requests_unlock no_condition_check).

(** *** Vocabulary of the properties *)

(** The call [m], run from [st], raises a [ProtonAPIError] (or one of
    its subclasses) with the data [e], and leaves the state [st']. *)
Definition fails_with {A} (m : M A) (st : St) (e : api_error) (st' : St)
    : Prop :=
  exists x, m st = (Raise x, st') /\ as_api_error x = Some e.

(** The four credential attributes are [None]. *)
Definition cleared (s : Session) : Prop :=
  UID s = VNone /\ AccessToken s = VNone /\ RefreshToken s = VNone
  /\ Scopes s = VNone.

Definition credentials (s : Session) : value * value * value * value :=
  (UID s, AccessToken s, RefreshToken s, Scopes s).

(** UID is absent if and only if the three other credentials are. *)
Definition credentials_invariant (s : Session) : Prop :=
  UID s = VNone
  <-> (AccessToken s = VNone /\ RefreshToken s = VNone /\ Scopes s = VNone).

(** The same, of the values that a snapshot gives to [__setstate__]. *)
Definition snapshot_invariant (data : json) : Prop :=
  get_or_none data "UID" = VNone
  <-> (get_or_none data "AccessToken" = VNone
       /\ get_or_none data "RefreshToken" = VNone
       /\ get_or_none data "Scopes" = VNone).

Definition credential_keys : list string :=
  ["UID"; "AccessToken"; "RefreshToken"; "Scopes"].

(** A reply holds no null credential, and a reply with a server proof
    holds the four credentials. *)
Definition reply_complete (reply : json) : Prop :=
  (forall k, In k credential_keys -> Dict.get String.eqb k reply <> Some VNone)
  /\ (Dict.mem String.eqb "ServerProof" reply = true ->
      forall k, In k credential_keys -> Dict.mem String.eqb k reply = true).

(** Every reply of the transport is complete. *)
Definition replies_complete (w : World) : Prop :=
  forall n reply, script w n = Return reply -> reply_complete reply.

(** The operations of a coordinator, and a run of them one after the
    other; a caller that catches an exception goes on with the state
    the operation left. *)
Inductive operation :=
| Authenticate (username password : string) (no_condition_check : bool)
| Provide2FA (code : string) (no_condition_check : bool)
| Refresh (only_when_refresh_revision_is : option Z) (no_condition_check : bool)
| Logout (no_condition_check : bool)
| Restore (data : json).

Definition run (o : operation) (st : St) : St :=
  match o with
  | Authenticate username password ncc =>
      snd (async_authenticate username password ncc st)
  | Provide2FA code ncc => snd (async_provide_2fa code ncc st)
  | Refresh observed ncc => snd (async_refresh observed ncc st)
  | Logout ncc => snd (async_logout ncc st)
  | Restore data => snd (__setstate__ data st)
  end.

Definition run_all (ops : list operation) (st : St) : St :=
  fold_left (fun st o => run o st) ops st.

(** Refresh and second factor are asked of an authenticated
    coordinator, and a snapshot that is restored is consistent. *)
Definition permitted (o : operation) (st : St) : Prop :=
  match o with
  | Provide2FA _ _ | Refresh _ _ => authenticated (fst st) = true
  | Restore data => snapshot_invariant data
  | Authenticate _ _ _ | Logout _ => True
  end.

Fixpoint all_permitted (ops : list operation) (st : St) : Prop :=
  match ops with
  | [] => True
  | o :: ops' => permitted o st /\ all_permitted ops' (run o st)
  end.

(** One attempt of [async_api_request] is used up and the loop goes
    on: the call failed with 408 or 502; or with 429 or 503, and the
    wait was slept; or with 401, and the refresh returned [True]. *)
Inductive attempt_consumed (call : M json) (no_condition_check : bool)
    : St -> St -> Prop :=
| consumed_by_immediate_retry st e st1 :
    fails_with call st e st1 ->
    http_code e = 408 \/ http_code e = 502 ->
    attempt_consumed call no_condition_check st st1
| consumed_by_backoff st e st1 st2 :
    fails_with call st e st1 ->
    http_code e = 429 \/ http_code e = 503 ->
    __sleep_for_exception e st1 = (Return tt, st2) ->
    attempt_consumed call no_condition_check st st2
| consumed_by_refresh st e st1 st2 :
    fails_with call st e st1 ->
    http_code e = 401 ->
    async_refresh (Some (__refresh_revision (fst st))) no_condition_check st1
      = (Return (Some true), st2) ->
    attempt_consumed call no_condition_check st st2.


(** One attempt of [async_refresh] is used up and the loop goes on:
    the request failed with 409; or with 429 or 503, and the wait was
    slept. *)
Inductive refresh_attempt_consumed : St -> St -> Prop :=
| refresh_consumed_by_conflict st e st1 :
    fails_with refresh_request st e st1 ->
    http_code e = 409 ->
    refresh_attempt_consumed st st1
| refresh_consumed_by_backoff st e st1 st2 :
    fails_with refresh_request st e st1 ->
    http_code e = 429 \/ http_code e = 503 ->
    __sleep_for_exception e st1 = (Return tt, st2) ->
    refresh_attempt_consumed st st2.


(** The state in which [async_refresh] enters its loop: the revision
    is incremented. *)
Definition bump_revision (st : St) : St :=
  (set_refresh_revision (__refresh_revision (fst st) + 1) (fst st), snd st).

(** A Hoare triple for a coroutine: from a state in [P], a return of
    [a] leaves a state in [Q a], and a raise or a wait leaves a state
    in [E]. *)
Definition hoare {A} (P : St -> Prop) (m : M A) (Q : A -> St -> Prop)
    (E : St -> Prop) : Prop :=
  forall st r st', P st -> m st = (r, st') ->
    match r with
    | Return a => Q a st'
    | Raise _ | Blocked => E st'
    end.

(** [m] keeps [P], however it ends. *)
Definition preserves {A} (P : St -> Prop) (m : M A) : Prop :=
  hoare P m (fun _ => P) P.

(** The reply is one of the answers of the transport's script. *)
Definition scripted (reply : json) (st : St) : Prop :=
  exists n, script (snd st) n = Return reply.

(** [P] does not look at the gate, the environment, the transport
    object, the counters of the world or its trace. *)
Definition harmless (P : St -> Prop) : Prop :=
  (forall g s w, P (s, w) -> P (set_can_run_requests g s, w))
  /\ (forall e s w, P (s, w) -> P (set_environment e s, w))
  /\ (forall t s w, P (s, w) -> P (set_transport t s, w))
  /\ (forall s w c d tr, P (s, w) ->
        P (s, mkWorld (script w) c (randoms w) d tr (loader_transport w)
                (loader_environment w) (srp w))).


(** The replies are complete and the credentials are consistent. *)
Definition consistent (st : St) : Prop :=
  replies_complete (snd st) /\ credentials_invariant (fst st).

(** The same, of an authenticated coordinator. *)
Definition signed_in (st : St) : Prop :=
  replies_complete (snd st) /\ UID (fst st) <> VNone
  /\ credentials_invariant (fst st).

End Session.

(** ** Concrete registries, sessions and worlds *)

Module Examples.

Module Registry.
Import Loader.

Definition A : Cls := {| cls_id := 1; _get_priority := Some 10; _validate := None |}.
Definition B : Cls := {| cls_id := 2; _get_priority := Some 5; _validate := None |}.
Definition C : Cls := {| cls_id := 3; _get_priority := None; _validate := None |}.

(** Type "transport" has A (priority 10), B (priority 5) and C (no
    priority). *)
Definition installed : Metadata :=
  [("proton_loader_transport",
    [ {| ep_name := "A"; ep_load := Loaded A |};
      {| ep_name := "B"; ep_load := Loaded B |};
      {| ep_name := "C"; ep_load := Loaded C |} ])].

Definition exclude_A : option string := Some "transport=-A".

(** Type "keyring" has, in the order in which they are found, b
    (priority 5), c (no priority), a (priority 5) and z (priority
    10). *)
Definition shuffled : Metadata :=
  [("proton_loader_keyring",
    [ {| ep_name := "b"; ep_load := Loaded B |};
      {| ep_name := "c"; ep_load := Loaded C |};
      {| ep_name := "a"; ep_load := Loaded B |};
      {| ep_name := "z"; ep_load := Loaded A |} ])].
End Registry.

Module Coordinator.
Import Session.

Definition engine : SrpEngine :=
  {| verify_modulus := fun _ => Some "modulus";
     get_challenge := fun _ _ => "challenge";
     process_challenge := fun _ _ _ _ _ => Some "proof";
     verify_session := fun _ _ _ _ _ server_proof =>
                         String.eqb server_proof "server proof" |}.

(** A world whose transport gives the listed answers, in order, and
    is silent afterwards. *)
Definition world (answers : list (outcome json)) : World :=
  mkWorld (fun n => nth n answers Blocked) 0 (fun _ => 0%N) 0 []
          (Some 1%nat) (Some ProdEnvironment) engine.

(** An API error with the given status and headers. *)
Definition error (status : Z) (headers : list (string * string)) : api_error :=
  {| http_code := status; http_headers := headers; body_code := status;
     code := Some status |}.

Definition failure (status : Z) (headers : list (string * string))
    : outcome json :=
  Raise (ProtonAPIError (error status headers)).

(** A coordinator as [__init__] makes it. *)
Definition fresh : Session :=
  mkSession "Other" "None" VNone VNone VNone VNone VNone VNone 0 None
            (Some 1%nat) None None [].

(** An authenticated coordinator, one refresh behind it. *)
Definition logged_in : Session :=
  mkSession "Other" "None" (VStr "uid") (VStr "access") (VStr "refresh")
            (VList ["self"]) (VStr "alice") VNone 1 None (Some 1%nat) None
            None [].

(** The same, with a second factor pending. *)
Definition awaiting_second_factor : Session :=
  set_Scopes (VList ["twofactor"]) logged_in.

Definition new_tokens : json :=
  [("AccessToken", VStr "access2"); ("RefreshToken", VStr "refresh2");
   ("Scopes", VList ["self"])].

(** The header [retry-after] holding the one character
    SUPERSCRIPT TWO (code point 178). *)
Definition superscript_two : string := String (ascii_of_N 178) EmptyString.

(** The answers to a login, a refresh and a logout. *)
Definition login_answers : list (outcome json) :=
  [Return [("Modulus", VStr "armored");
           ("ServerEphemeral", VStr "ZXBoZW1lcmFs");
           ("Salt", VStr "c2FsdA=="); ("Version", VInt 4);
           ("SRPSession", VStr "session")];
   Return [("ServerProof", VStr "c2VydmVyIHByb29m"); ("UID", VStr "uid");
           ("AccessToken", VStr "access"); ("RefreshToken", VStr "refresh");
           ("Scopes", VList ["self"])];
   Return new_tokens;
   Return []].

Definition login_refresh_logout : list operation :=
  [Authenticate "alice" "password" false; Refresh None false; Logout false].
End Coordinator.

End Examples.

(** ** Further vocabulary of the loader *)

Module Plugins.
Import Loader.

(** What discovery registers of a list of entry points: the names
    whose load returns a class, in order. *)
Definition loadable (eps : list EntryPoint) : list (string * Cls) :=
  flat_map (fun ep => match ep_load ep with
                      | Loaded c => [(ep_name ep, c)]
                      | _ => []
                      end) eps.

(** The entry points of the group of a type: line 173. *)
Definition entry_points_of (md : Metadata) (type_name : string)
    : list EntryPoint :=
  match Dict.get String.eqb (_get_metadata_group_for_typename type_name)
          (_proton_entry_point_groups md) with
  | Some eps => eps
  | None => []
  end.

(** An entry that [get] may select on its own: it has a priority and
    its validation, if any, succeeds. *)
Definition selectable (validate_params : option params)
    (e : PluggableComponent) : bool :=
  has_priority e && entry_is_valid (cls e) validate_params.

(** Every force token of the type names [f]. *)
Definition only_forced (environ : option string) (type_name f : string)
    : Prop :=
  PyStr.startswith f "-" = false
  /\ forced environ type_name f
  /\ forall g, forced environ type_name g ->
       PyStr.startswith g "-" = true \/ g = f.

(** Two classes with a validation, one that refuses and one that
    accepts when it is given parameters. *)
Definition Refusing : Cls :=
  {| cls_id := 4; _get_priority := Some 20;
     _validate := Some (ValidateNoParams false) |}.

Definition Asking : Cls :=
  {| cls_id := 5; _get_priority := Some 15;
     _validate := Some (ValidateWithParams
                          (fun p => match p with Some _ => true | None => false end)) |}.

Definition validated : list (string * Cls) :=
  [("refusing", Refusing); ("asking", Asking);
   ("A", Examples.Registry.A); ("C", Examples.Registry.C)].

(** Entry points of which one is named twice, and of which one does
    not load. *)
Definition twice : Metadata :=
  [("proton_loader_keyring",
    [ {| ep_name := "json"; ep_load := Loaded Examples.Registry.A |};
      {| ep_name := "json"; ep_load := Loaded Examples.Registry.B |} ])].

Definition partly_installed : Metadata :=
  [("other_group", []);
   ("proton_loader_keyring",
    [ {| ep_name := "json"; ep_load := Loaded Examples.Registry.A |};
      {| ep_name := "broken"; ep_load := LoadAttributeError |};
      {| ep_name := "kwallet"; ep_load := Loaded Examples.Registry.B |} ])].

End Plugins.

(** ** Further vocabulary of the session *)

Module Conduct.
Import Session.
Local Open Scope py_scope.

(** What the setter of [environment] is given: [None], an instance of
    a subclass of [Environment], or an object of another class. *)
Inductive assigned :=
| AssignNone
| AssignEnvironment (e : Environment)
| AssignOther.

(** The setter of [environment] *)
Definition environment_setter (newvalue : assigned) : M unit :=
  s <- get_session ;;
  match __environment s with
  | Some _ => raise ValueError
  | None =>
      match newvalue with
      | AssignNone => ret tt
      | AssignOther => raise TypeError
      | AssignEnvironment e => modify_session (set_environment (Some e))
      end
  end.

(** [Environment.__eq__], given [None] or another environment *)
Definition Environment_eq (self : Environment) (other : option Environment)
    : outcome bool :=
  match other with
  | None => Return false
  | Some other =>
      match name self with
      | Return a =>
          match name other with
          | Return b => Return (String.eqb a b)
          | Raise x => Raise x
          | Blocked => Blocked
          end
      | Raise x => Raise x
      | Blocked => Blocked
      end
  end.

(** The calls that a user of a session makes on it, other than the
    restoring of a snapshot, and the state that each leaves. *)
Inductive call :=
| CallAuthenticate (username password : string) (no_condition_check : bool)
| CallProvide2FA (code : string) (no_condition_check : bool)
| CallRefresh (only_when_refresh_revision_is : option Z) (no_condition_check : bool)
| CallLogout (no_condition_check : bool)
| CallLock (no_condition_check : bool)
| CallApiRequest (r : request) (no_condition_check : bool)
| CallDump
| CallSetEnvironment (newvalue : assigned)
| CallRegisterObserver (observer : nat).

Definition perform (c : call) (st : St) : St :=
  match c with
  | CallAuthenticate username password ncc =>
      snd (async_authenticate username password ncc st)
  | CallProvide2FA code ncc => snd (async_provide_2fa code ncc st)
  | CallRefresh observed ncc => snd (async_refresh observed ncc st)
  | CallLogout ncc => snd (async_logout ncc st)
  | CallLock ncc => snd (async_lock ncc st)
  | CallApiRequest r ncc =>
      snd (async_api_request (endpoint r) (jsondata r) (additional_headers r)
             (method r) (params r) ncc st)
  | CallDump => snd (dump st)
  | CallSetEnvironment newvalue => snd (environment_setter newvalue st)
  | CallRegisterObserver observer =>
      snd (register_persistence_observer observer st)
  end.

Definition perform_all (cs : list call) (st : St) : St :=
  fold_left (fun st c => perform c st) cs st.

(** The observers that a list of events locks and unlocks, and the
    requests that it sends, each in the order of the events. *)
Definition acquired (evs : list event) : list nat :=
  flat_map (fun ev => match ev with Acquired o _ _ => [o] | _ => [] end) evs.

Definition released (evs : list event) : list nat :=
  flat_map (fun ev => match ev with Released o _ _ => [o] | _ => [] end) evs.

Definition requested (evs : list event) : list request :=
  flat_map (fun ev => match ev with Requested r => [r] | _ => [] end) evs.

(** The state of the gate of requests. *)
Definition gate (st : St) : option bool := __can_run_requests (fst st).

(** The gate is in the state [g]. *)
Definition gate_is (g : option bool) (st : St) : Prop := gate st = g.

(** The environment of the session is established, and is [e]. *)
Definition established (e : Environment) (st : St) : Prop :=
  __environment (fst st) = Some e.

(** Since the trace was [before], the observers [locked] were locked
    and the observers [unlocked] were unlocked, in these orders; and
    the observers that are registered are [observers]. *)
Definition notified (before : list event) (locked unlocked observers : list nat)
    (st : St) : Prop :=
  __persistence_observers (fst st) = observers
  /\ exists evs,
       trace (snd st) = (before ++ evs)%list
       /\ acquired evs = locked /\ released evs = unlocked.

(** The three tokens of the session are those that the reply holds. *)
Definition tokens_of (reply : json) (s : Session) : Prop :=
  Dict.get String.eqb "AccessToken" reply = Some (AccessToken s)
  /\ Dict.get String.eqb "RefreshToken" reply = Some (RefreshToken s)
  /\ Dict.get String.eqb "Scopes" reply = Some (Scopes s).

(** The session is the one that the reply of [/auth] describes, for
    the account [username]. *)
Definition session_of (reply : json) (username : string) (s : Session)
    : Prop :=
  Dict.get String.eqb "UID" reply = Some (UID s)
  /\ tokens_of reply s
  /\ AccountName s = VStr username.

(** What a session keeps of another one when it is refreshed or
    logged out: the account it names. *)
Definition same_account (s0 : Session) (st : St) : Prop :=
  AccountName (fst st) = AccountName s0.

(** The credentials are those of [s0]. *)
Definition same_credentials (s0 : Session) (st : St) : Prop :=
  credentials (fst st) = credentials s0.

(** All of the session but its scopes is as in [s0]. *)
Definition same_but_scopes (s0 : Session) (st : St) : Prop :=
  UID (fst st) = UID s0 /\ AccessToken (fst st) = AccessToken s0
  /\ RefreshToken (fst st) = RefreshToken s0
  /\ AccountName (fst st) = AccountName s0.

(** The session names the account of [s0], and its credentials are
    those of [s0] or are cleared. *)
Definition logged_out_or_same (s0 : Session) (st : St) : Prop :=
  same_account s0 st /\ (cleared (fst st) \/ same_credentials s0 st).

(** What [async_authenticate] has done when it returns [b], on a
    session that was [s0]. *)
Definition authenticated_as (s0 : Session) (username : string) (b : bool)
    (st : St) : Prop :=
  if b
  then exists reply,
         scripted reply st
         /\ Dict.mem String.eqb "ServerProof" reply = true
         /\ session_of reply username (fst st)
  else logged_out_or_same s0 st.

(** Whether a coroutine has returned, rather than raised or waited. *)
Definition is_return {A} (r : outcome A) : bool :=
  match r with Return _ => true | _ => false end.

(** The operation returns when it is run from [st]. *)
Definition returns (o : operation) (st : St) : bool :=
  match o with
  | Authenticate username password ncc =>
      is_return (fst (async_authenticate username password ncc st))
  | Provide2FA code ncc => is_return (fst (async_provide_2fa code ncc st))
  | Refresh observed ncc => is_return (fst (async_refresh observed ncc st))
  | Logout ncc => is_return (fst (async_logout ncc st))
  | Restore data => is_return (fst (__setstate__ data st))
  end.

(** The operation is a restore. *)
Definition is_restore (o : operation) : bool :=
  match o with Restore _ => true | _ => false end.

(** The credentials that the operation assigns are taken together
    from one source, and the others are those of [s0]:
    [authenticate] takes the four from one reply, [refresh] the three
    tokens from one reply, [provide_2fa] the scopes from a reply, and
    a restore the four from the snapshot. *)
Definition taken_together (o : operation) (s0 : Session) (st : St) : Prop :=
  match o with
  | Authenticate _ _ _ =>
      exists reply,
        scripted reply st
        /\ Dict.get String.eqb "UID" reply = Some (UID (fst st))
        /\ tokens_of reply (fst st)
  | Refresh _ _ =>
      UID (fst st) = UID s0
      /\ exists reply, scripted reply st /\ tokens_of reply (fst st)
  | Provide2FA _ _ =>
      UID (fst st) = UID s0 /\ AccessToken (fst st) = AccessToken s0
      /\ RefreshToken (fst st) = RefreshToken s0
      /\ exists reply,
           scripted reply st
           /\ Dict.get String.eqb "Scopes" reply = Some (Scopes (fst st))
  | Logout _ => cleared (fst st)
  | Restore data =>
      credentials (fst st)
      = (get_or_none data "UID", get_or_none data "AccessToken",
         get_or_none data "RefreshToken", get_or_none data "Scopes")
  end.

(** From the session [s0] to the state [st] the credentials have
    changed as a group: not at all, or the four are cleared, or those
    that the operation assigns are taken together. *)
Definition changed_as_a_group (o : operation) (s0 : Session) (st : St)
    : Prop :=
  same_credentials s0 st \/ cleared (fst st) \/ taken_together o s0 st.

(** A reply to a refresh that holds a new access token and nothing
    else. *)
Definition access_token_alone : json := [("AccessToken", VStr "access2")].

(** A transport is there, or a factory to make it. *)
Definition has_transport (s : Session) : bool :=
  match __transport s, __transport_factory s with
  | None, None => false
  | _, _ => true
  end.

(** [m] calls the transport at most [k] times. *)
Definition sends_at_most {A} (k : nat) (m : M A) : Prop :=
  forall st r st', m st = (r, st') ->
    (calls (snd st) <= calls (snd st') <= calls (snd st) + k)%nat.

(** The statuses for which [async_api_request] has a branch. *)
Definition handled_status (c : Z) : bool :=
  (c =? 403) || (c =? 401) || (c =? 408) || (c =? 502) || (c =? 429)
  || (c =? 503).

(** Answers that use up a request: three times an expired token, then
    a refresh that meets two conflicts before it is given tokens. *)
Definition expiring_answers : list (outcome json) :=
  let round :=
    [Examples.Coordinator.failure 401 []; Examples.Coordinator.failure 409 [];
     Examples.Coordinator.failure 409 [];
     Return Examples.Coordinator.new_tokens] in
  (round ++ round ++ round)%list.

End Conduct.

Local Open Scope list_scope.

(** * Properties of the loader *)

(** ** Order of strings *)

Module StrOrder.








End StrOrder.

(** ** Dictionaries *)

Module DictFacts.
Section DictFacts.
Context {K V : Type} (eqb : K -> K -> bool).
Hypothesis eqb_spec : forall a b, reflect (a = b) (eqb a b).

Lemma get_In k v (d : list (K * V)) : Dict.get eqb k d = Some v -> In (k, v) d.
Proof.
  induction d as [|[k' v'] d IH]; simpl; [discriminate|].
  destruct (eqb_spec k k'); intros H.
  - inversion H; subst. now left.
  - right. auto.
Qed.

Lemma get_None k (d : list (K * V)) : Dict.get eqb k d = None -> ~ In k (Dict.keys d).
Proof.
  induction d as [|[k' v'] d IH]; simpl; [tauto|].
  destruct (eqb_spec k k'); [discriminate|].
  intros H [E|I]; [congruence|]. now apply IH.
Qed.

Lemma In_get k v (d : list (K * V)) :
  Dict.wf d -> In (k, v) d -> Dict.get eqb k d = Some v.
Proof.
  unfold Dict.wf, Dict.keys.
  induction d as [|[k' v'] d IH]; simpl; [tauto|].
  intros Hnd [E|I].
  - inversion E; subst. destruct (eqb_spec k k); congruence.
  - inversion Hnd; subst. destruct (eqb_spec k k').
    + subst. exfalso. apply H1. change k' with (fst (k', v)). now apply in_map.
    + auto.
Qed.

Lemma keys_set_new k v (d : list (K * V)) :
  Dict.mem eqb k d = false -> Dict.set eqb k v d = d ++ [(k, v)].
Proof.
  unfold Dict.mem.
  induction d as [|[k' v'] d IH]; simpl; [reflexivity|].
  destruct (eqb_spec k k'); [discriminate|].
  intros H. now rewrite IH.
Qed.

Lemma wf_set_new k v (d : list (K * V)) :
  Dict.wf d -> Dict.mem eqb k d = false -> Dict.wf (Dict.set eqb k v d).
Proof.
  intros Hwf Hm. rewrite keys_set_new by assumption.
  unfold Dict.wf, Dict.keys in *. rewrite map_app. simpl.
  apply NoDup_app; [assumption|repeat constructor; simpl; tauto|].
  intros a Ha [<-|[]].
  unfold Dict.mem in Hm. destruct (Dict.get eqb k d) eqn:G; [discriminate|].
  now apply get_None in G.
Qed.

Lemma Forall_set (P : K * V -> Prop) k v (d : list (K * V)) :
  (forall k', P (k', v)) -> Forall P d -> Forall P (Dict.set eqb k v d).
Proof.
  intros Hv. induction 1 as [|[k' v'] d Hp Hd IH]; simpl.
  - constructor; [apply Hv|constructor].
  - destruct (eqb k k'); constructor; auto.
Qed.

Lemma Forall_del (P : K * V -> Prop) k (d : list (K * V)) :
  Forall P d -> Forall P (Dict.del eqb k d).
Proof.
  induction 1 as [|[k' v'] d Hp Hd IH]; simpl; [constructor|].
  destruct (eqb k k'); [assumption|constructor; auto].
Qed.

Lemma get_set_same k v (d : list (K * V)) :
  Dict.get eqb k (Dict.set eqb k v d) = Some v.
Proof.
  induction d as [|[k' v'] d IH]; simpl.
  - destruct (eqb_spec k k); congruence.
  - destruct (eqb_spec k k') as [->|N]; simpl.
    + destruct (eqb_spec k' k'); congruence.
    + destruct (eqb_spec k k'); congruence.
Qed.

End DictFacts.
End DictFacts.

(** ** Sorting and discovery *)

Module LoaderFacts.
Import Loader.

Lemma string_eqb_spec : forall a b : string, reflect (a = b) (String.eqb a b).
Proof. exact String.eqb_spec. Qed.

(** *** The order of the components *)

Lemma component_ltb_priority a b :
  component_ltb a b = true -> has_priority a = true /\ has_priority b = true.
Proof.
  unfold component_ltb, has_priority.
  destruct (priority a), (priority b); intuition discriminate.
Qed.



(** *** [list.sort(reverse=True)] *)

Lemma insert_desc_perm x l : Permutation (x :: l) (insert_desc x l).
Proof.
  induction l as [|y l IH]; simpl; [reflexivity|].
  destruct (component_ltb x y); [|reflexivity].
  rewrite perm_swap. now constructor.
Qed.

Lemma sort_reverse_perm l : Permutation l (sort_reverse l).
Proof.
  induction l as [|x l IH]; simpl; [reflexivity|].
  rewrite <- insert_desc_perm. now constructor.
Qed.



(** *** Discovery keeps the names of a type distinct *)

Lemma wf_init : wf init.
Proof. constructor. Qed.

Lemma wf_reset L : wf (reset L).
Proof. constructor. Qed.

Lemma wf_set_all type_name implementations L :
  Dict.wf implementations -> wf L -> wf (set_all type_name implementations L).
Proof.
  intros Hi HL. unfold wf, set_all; simpl.
  apply DictFacts.Forall_set; auto.
Qed.

Lemma wf_discover type_name eps : forall found L r L',
  Dict.wf found -> wf L ->
  discover type_name eps found L = (r, L') -> wf L'.
Proof.
  induction eps as [|ep eps IH]; simpl; intros found L r L' Hf HL H.
  - inversion H; subst. unfold wf; simpl. apply DictFacts.Forall_set; auto.
  - destruct (Dict.mem String.eqb (ep_name ep) found) eqn:Hm.
    + inversion H; subst. unfold wf; simpl. now apply DictFacts.Forall_del.
    + destruct (ep_load ep).
      * eapply IH; [| |exact H]; [|exact HL].
        apply (DictFacts.wf_set_new _ string_eqb_spec); assumption.
      * eapply IH; eassumption.
      * inversion H; subst. unfold wf; simpl. apply DictFacts.Forall_set; auto.
Qed.

Lemma wf_ensure_known md type_name L r L' :
  wf L -> ensure_known md type_name L = (r, L') -> wf L'.
Proof.
  unfold ensure_known. intros HL.
  destruct (Dict.mem String.eqb type_name (known_types L)).
  - intros H; inversion H; subst; assumption.
  - apply wf_discover; [constructor|].
    unfold wf; simpl. apply DictFacts.Forall_set; auto. intros; constructor.
Qed.

Lemma wf_implementations type_name L : wf L -> Dict.wf (implementations type_name L).
Proof.
  unfold implementations. intros HL.
  destruct (Dict.get String.eqb type_name (known_types L)) as [d|] eqn:G;
    [|constructor].
  apply (DictFacts.get_In _ string_eqb_spec) in G.
  unfold wf in HL. rewrite Forall_forall in HL. apply (HL _ G).
Qed.

Lemma wf_get_all md environ type_name L r L' :
  wf L -> get_all md environ type_name L = (r, L') -> wf L'.
Proof.
  unfold get_all. intros HL.
  destruct (ensure_known md type_name L) as [[u|e] L1] eqn:E.
  - apply wf_ensure_known in E; [|assumption].
    destruct (names_asked _ _ _); intros H; inversion H; subst; assumption.
  - apply wf_ensure_known in E; [|assumption].
    intros H; inversion H; subst; assumption.
Qed.

End LoaderFacts.

(** ** Strings and lists *)

Module StrFacts.

Lemma prefix_append p s : String.prefix p (p ++ s)%string = true.
Proof.
  induction p as [|c p IH]; simpl; [now destruct s|].
  destruct (ascii_dec c c); congruence.
Qed.

Lemma drop_append p s : PyStr.drop (String.length p) (p ++ s)%string = s.
Proof. induction p as [|c p IH]; simpl; [reflexivity|assumption]. Qed.

Lemma prefix_drop p : forall t,
  String.prefix p t = true -> t = (p ++ PyStr.drop (String.length p) t)%string.
Proof.
  induction p as [|c p IH]; intros t; [reflexivity|].
  destruct t as [|d t]; simpl; [discriminate|].
  destruct (ascii_dec c d); [|discriminate].
  intros H. subst. f_equal. now apply IH.
Qed.

Lemma append_assoc a b c : ((a ++ b) ++ c = a ++ (b ++ c))%string.
Proof. induction a as [|x a IH]; simpl; congruence. Qed.

Lemma length_append a b :
  String.length (a ++ b)%string = (String.length a + String.length b)%nat.
Proof. induction a as [|x a IH]; simpl; congruence. Qed.

Lemma mem_In x l : PyStr.mem x l = true <-> In x l.
Proof.
  unfold PyStr.mem. rewrite existsb_exists. split.
  - intros [y [Hy E]]. apply String.eqb_eq in E. now subst.
  - intros H. exists x. split; [assumption|apply String.eqb_refl].
Qed.

End StrFacts.

Module ListFacts.

Lemma filter_partition_perm {A} (p : A -> bool) l :
  Permutation (filter p l ++ filter (fun a => negb (p a)) l) l.
Proof.
  induction l as [|a l IH]; simpl; [reflexivity|].
  destruct (p a); simpl.
  - now constructor.
  - rewrite <- Permutation_middle. now constructor.
Qed.


End ListFacts.

(** ** The list that [get_all] returns *)

Module LoaderOrder.
Import Loader LoaderFacts.

Lemma order_components_unfold acceptable known :
  order_components acceptable known =
  sort_reverse (filter has_priority (acceptable_classes acceptable known))
  ++ filter (fun c => negb (has_priority c)) (acceptable_classes acceptable known).
Proof. reflexivity. Qed.

Lemma entries_acceptable_classes acceptable known :
  Permutation (map entry_of (acceptable_classes acceptable known)) known.
Proof.
  unfold acceptable_classes. rewrite map_app, !map_map.
  rewrite (map_ext (fun x => entry_of (with_own_priority x)) (fun x => x))
    by (now intros [k v]).
  rewrite (map_ext (fun x => entry_of (without_priority x)) (fun x => x))
    by (now intros [k v]).
  rewrite !map_id. apply ListFacts.filter_partition_perm.
Qed.

Lemma order_components_perm acceptable known :
  Permutation (order_components acceptable known)
              (acceptable_classes acceptable known).
Proof.
  rewrite order_components_unfold.
  rewrite <- sort_reverse_perm. apply ListFacts.filter_partition_perm.
Qed.



Lemma get_all_returns md environ type_name L l L' :
  get_all md environ type_name L = (Return l, L') ->
  exists acceptable,
    names_asked type_name (overrides_for environ type_name)
      (implementations type_name L') = Return acceptable
    /\ l = order_components acceptable (implementations type_name L').
Proof.
  unfold get_all.
  destruct (ensure_known md type_name L) as [[u|e] L1]; [|discriminate].
  destruct (names_asked _ _ _) as [acc|e] eqn:E; [|discriminate].
  intros H. inversion H; subst. eauto.
Qed.

(** With the type loaded and no name forced, [get_all] returns. *)
Lemma get_all_returns_when_not_forced md environ type_name L L' :
  ensure_known md type_name L = (Return tt, L') ->
  force_class_set (overrides_for environ type_name) = [] ->
  exists l, get_all md environ type_name L = (Return l, L').
Proof.
  intros He Hf. unfold get_all, names_asked, acceptable_entry_points.
  rewrite He, Hf. simpl. eauto.
Qed.



(** *** Exclusion *)

Lemma overrides_for_In environ type_name f :
  In f (overrides_for environ type_name)
  <-> In (type_name ++ "=" ++ f)%string (override_tokens environ).
Proof.
  unfold overrides_for. rewrite in_map_iff. split.
  - intros [t [E Ht]]. apply filter_In in Ht as [Ht Hp].
    unfold PyStr.startswith in Hp. apply StrFacts.prefix_drop in Hp.
    rewrite StrFacts.length_append in Hp. simpl in Hp.
    rewrite E, StrFacts.append_assoc in Hp. rewrite Hp in Ht. exact Ht.
  - intros Ht. exists (type_name ++ "=" ++ f)%string. split.
    + change (type_name ++ "=" ++ f)%string
        with (type_name ++ ("=" ++ f))%string.
      rewrite <- StrFacts.append_assoc.
      replace (String.length type_name + 1)%nat
        with (String.length (type_name ++ "=")%string)
        by (rewrite StrFacts.length_append; reflexivity).
      apply StrFacts.drop_append.
    + apply filter_In. split; [assumption|].
      unfold PyStr.startswith.
      change (type_name ++ "=" ++ f)%string
        with (type_name ++ ("=" ++ f))%string.
      rewrite <- StrFacts.append_assoc. apply StrFacts.prefix_append.
Qed.

Lemma force_class_set_In overrides f :
  In f (force_class_set overrides) -> In f overrides.
Proof.
  unfold force_class_set. rewrite nodup_In, filter_In. tauto.
Qed.

Lemma excluded_not_acceptable environ type_name name known acceptable :
  excluded environ type_name name ->
  ~ forced environ type_name name ->
  names_asked type_name (overrides_for environ type_name) known
    = Return acceptable ->
  PyStr.mem name acceptable = false.
Proof.
  intros Hex Hnf. unfold names_asked, acceptable_entry_points.
  destruct (force_class_set _) as [|f [|g rest]] eqn:F; [| |discriminate].
  - intros H; inversion H; subst.
    apply not_true_is_false. rewrite StrFacts.mem_In, filter_In.
    intros [_ Hn]. apply negb_true_iff in Hn.
    apply not_true_iff_false in Hn. apply Hn.
    apply StrFacts.mem_In, overrides_for_In. exact Hex.
  - destruct (Dict.mem String.eqb f known).
    + intros H; inversion H; subst.
      apply not_true_is_false. rewrite StrFacts.mem_In.
      intros [->|[]]. apply Hnf. apply overrides_for_In.
      apply force_class_set_In. rewrite F. now left.
    + destruct known; [|discriminate].
      intros H; inversion H; subst. reflexivity.
Qed.

Lemma get_loop_named name c vp : forall l,
  (exists e, In e l /\ class_name e = name) ->
  (forall e, In e l -> class_name e = name -> cls e = c) ->
  get_loop l (Some name) vp = Some c.
Proof.
  induction l as [|x l IH]; simpl; intros [e [He Hn]] Hc; [contradiction|].
  destruct (String.eqb_spec (class_name x) name) as [E|N].
  - f_equal. apply Hc; auto.
  - apply IH; [|auto]. destruct He as [->|He]; [contradiction|eauto].
Qed.

(** C2, as the code has it: a name excluded by a token
    [type_name=-name], and not forced by a token [type_name=name],
    stays in the list that [get_all] returns, as an entry without
    priority, and [get] with that name returns its class. *)
Theorem excluded_name_is_listed_without_priority
    md environ type_name name vp L l L' c :
  wf L ->
  excluded environ type_name name ->
  ~ forced environ type_name name ->
  get_all md environ type_name L = (Return l, L') ->
  Dict.get String.eqb name (implementations type_name L') = Some c ->
  In {| priority := None; class_name := name; cls := c |} l
  /\ (forall e, In e l -> class_name e = name -> priority e = None)
  /\ get md environ type_name (Some name) vp L = (Return c, L').
Proof.
  intros HL Hex Hnf Hall Hget.
  assert (Hwf : Dict.wf (implementations type_name L')).
  { apply wf_implementations. eapply wf_get_all; eassumption. }
  pose proof Hall as Hall'.
  apply get_all_returns in Hall' as [acc [Hacc ->]].
  pose proof (excluded_not_acceptable _ _ _ _ _ Hex Hnf Hacc) as Hmem.
  set (known := implementations type_name L') in *.
  assert (Hin : In (without_priority (name, c)) (acceptable_classes acc known)).
  { unfold acceptable_classes. apply in_or_app. right.
    apply in_map. apply filter_In. split.
    - now apply (DictFacts.get_In _ string_eqb_spec).
    - simpl. now rewrite Hmem. }
  assert (Hnone : forall e, In e (acceptable_classes acc known) ->
                    class_name e = name -> priority e = None).
  { intros e He En. unfold acceptable_classes in He.
    apply in_app_or in He as [He|He]; apply in_map_iff in He as [kv [<- Hkv]].
    - apply filter_In in Hkv as [_ Hkv]. simpl in En. congruence.
    - reflexivity. }
  assert (Hlist : In {| priority := None; class_name := name; cls := c |}
                     (order_components acc known)).
  { eapply Permutation_in; [symmetry; apply order_components_perm|exact Hin]. }
  split; [exact Hlist|]. split.
  - intros e He. apply Hnone.
    eapply Permutation_in; [apply order_components_perm|exact He].
  - unfold get. rewrite Hall.
    rewrite (get_loop_named name c vp); [reflexivity| |].
    + eexists. split; [exact Hlist|reflexivity].
    + intros e He En.
      assert (Hk : In (entry_of e) known).
      { eapply Permutation_in; [apply entries_acceptable_classes|].
        apply in_map.
        eapply Permutation_in; [apply order_components_perm|exact He]. }
      unfold entry_of in Hk. rewrite En in Hk.
      apply (DictFacts.In_get _ string_eqb_spec) in Hk; [|assumption].
      congruence.
Qed.

End LoaderOrder.

(** * Properties of the session *)

(** ** Triples *)

Module Triples.
Import Session.
Local Open Scope py_scope.

(** *** Rules of the triples *)

Section Rules.
Context {A B : Type}.
Implicit Types (P E : St -> Prop).

Lemma hoare_ret P (Q : A -> St -> Prop) E (a : A) :
  (forall st, P st -> Q a st) -> hoare P (ret a) Q E.
Proof. intros H st r st' HP Hm. inversion Hm; subst. auto. Qed.

Lemma hoare_raise P (Q : A -> St -> Prop) E x :
  (forall st, P st -> E st) -> hoare P (raise x) Q E.
Proof. intros H st r st' HP Hm. inversion Hm; subst. auto. Qed.

Lemma hoare_blocked P (Q : A -> St -> Prop) E :
  (forall st, P st -> E st) -> hoare P blocked Q E.
Proof. intros H st r st' HP Hm. inversion Hm; subst. auto. Qed.

Lemma hoare_lift P (Q : A -> St -> Prop) E (r : outcome A) :
  (forall st, P st -> match r with Return a => Q a st | _ => E st end) ->
  hoare P (lift r) Q E.
Proof. intros H st r' st' HP Hm. inversion Hm; subst. now apply H. Qed.

Lemma hoare_bind P (R : A -> St -> Prop) (Q : B -> St -> Prop) E
    (m : M A) (k : A -> M B) :
  hoare P m R E -> (forall a, hoare (R a) (k a) Q E) ->
  hoare P (bind m k) Q E.
Proof.
  intros Hm Hk st r st' HP Hb. unfold bind in Hb.
  destruct (m st) as [[a|x|] st1] eqn:E1; specialize (Hm _ _ _ HP E1).
  - exact (Hk a _ _ _ Hm Hb).
  - inversion Hb; subst. exact Hm.
  - inversion Hb; subst. exact Hm.
Qed.

Lemma hoare_consequence (P P' : St -> Prop) (Q Q' : A -> St -> Prop)
    (E E' : St -> Prop) (m : M A) :
  hoare P' m Q' E' ->
  (forall st, P st -> P' st) ->
  (forall a st, Q' a st -> Q a st) ->
  (forall st, E' st -> E st) ->
  hoare P m Q E.
Proof.
  intros Hm HP HQ HE st r st' Hst Hr.
  specialize (Hm _ _ _ (HP _ Hst) Hr). destruct r; auto.
Qed.

Lemma hoare_finally P (R Q : A -> St -> Prop) (E' E : St -> Prop)
    (body : M A) (fin : M unit) :
  hoare P body R E' ->
  (forall a, hoare (R a) fin (fun _ => Q a) E) ->
  hoare E' fin (fun _ => E) E ->
  (forall st, E' st -> E st) ->
  hoare P (finally body fin) Q E.
Proof.
  intros Hb Hn He Hsub st r st' HP Hf. unfold finally in Hf.
  destruct (body st) as [[a|x|] st1] eqn:E1; specialize (Hb _ _ _ HP E1).
  - destruct (fin st1) as [[u|y|] st2] eqn:E2;
      specialize (Hn a _ _ _ Hb E2); inversion Hf; subst; exact Hn.
  - destruct (fin st1) as [[u|y|] st2] eqn:E2;
      specialize (He _ _ _ Hb E2); inversion Hf; subst; exact He.
  - inversion Hf; subst. auto.
Qed.

Lemma hoare_try_except_api P (Q : A -> St -> Prop) (E' E : St -> Prop)
    (body : M A) (handler : exn -> api_error -> M A) :
  hoare P body Q E' ->
  (forall x e, hoare E' (handler x e) Q E) ->
  (forall st, E' st -> E st) ->
  hoare P (try_except_api body handler) Q E.
Proof.
  intros Hb Hh Hsub st r st' HP Ht. unfold try_except_api in Ht.
  destruct (body st) as [[a|x|] st1] eqn:E1; specialize (Hb _ _ _ HP E1).
  - inversion Ht; subst. exact Hb.
  - destruct (as_api_error x) as [e|].
    + exact (Hh x e _ _ _ Hb Ht).
    + inversion Ht; subst. auto.
  - inversion Ht; subst. auto.
Qed.
End Rules.

Lemma hoare_get_session P (Q : Session -> St -> Prop) E :
  (forall st, P st -> Q (fst st) st) -> hoare P get_session Q E.
Proof. intros H st r st' HP Hm. inversion Hm; subst. auto. Qed.

Lemma hoare_get_world P (Q : World -> St -> Prop) E :
  (forall st, P st -> Q (snd st) st) -> hoare P get_world Q E.
Proof. intros H st r st' HP Hm. inversion Hm; subst. auto. Qed.

Lemma hoare_modify_session P (Q : unit -> St -> Prop) E f :
  (forall s w, P (s, w) -> Q tt (f s, w)) -> hoare P (modify_session f) Q E.
Proof. intros H [s w] r st' HP Hm. inversion Hm; subst. auto. Qed.

Lemma hoare_modify_world P (Q : unit -> St -> Prop) E f :
  (forall s w, P (s, w) -> Q tt (s, f w)) -> hoare P (modify_world f) Q E.
Proof. intros H [s w] r st' HP Hm. inversion Hm; subst. auto. Qed.

Lemma hoare_item P (Q : value -> St -> Prop) E d key :
  (forall st v, P st -> Dict.get String.eqb key d = Some v -> Q v st) ->
  (forall st, P st -> E st) ->
  hoare P (item d key) Q E.
Proof.
  intros HQ HE. unfold item.
  destruct (Dict.get String.eqb key d) as [v|].
  - apply hoare_ret. auto.
  - apply hoare_raise. auto.
Qed.

Lemma preserves_bind {A B} P (m : M A) (k : A -> M B) :
  preserves P m -> (forall a, preserves P (k a)) -> preserves P (bind m k).
Proof. intros Hm Hk. eapply hoare_bind; [exact Hm|exact Hk]. Qed.

Lemma preserves_ret {A} P (a : A) : preserves P (ret a).
Proof. apply hoare_ret. auto. Qed.

Lemma preserves_raise {A} P x : preserves P (@raise A x).
Proof. apply hoare_raise. auto. Qed.

Lemma preserves_blocked {A} P : preserves P (@blocked A).
Proof. apply hoare_blocked. auto. Qed.

Lemma preserves_lift {A} P (r : outcome A) : preserves P (lift r).
Proof. destruct r; apply hoare_lift; auto. Qed.

Lemma preserves_get_session P : preserves P get_session.
Proof. apply hoare_get_session. auto. Qed.

Lemma preserves_get_world P : preserves P get_world.
Proof. apply hoare_get_world. auto. Qed.

Lemma preserves_item P d key : preserves P (item d key).
Proof. apply hoare_item; auto. Qed.

Lemma preserves_b64decode P v : preserves P (b64decode v).
Proof.
  unfold b64decode. destruct v; try apply preserves_raise.
  destruct (Base64.is_ascii _); [|apply preserves_raise].
  destruct (Base64.a2b_base64 _); [apply preserves_ret|apply preserves_raise].
Qed.

Lemma preserves_item_decoded P d key :
  preserves P (bind (item d key) b64decode).
Proof.
  apply preserves_bind; [apply preserves_item|].
  intros v. apply preserves_b64decode.
Qed.

Lemma preserves_finally {A} P (body : M A) fin :
  preserves P body -> preserves P fin -> preserves P (finally body fin).
Proof.
  intros Hb Hf.
  apply (hoare_finally P (fun _ => P) (fun _ => P) P P); auto.
Qed.

Lemma preserves_try_except_api {A} P (body : M A) handler :
  preserves P body -> (forall x e, preserves P (handler x e)) ->
  preserves P (try_except_api body handler).
Proof.
  intros Hb Hh. apply (hoare_try_except_api P (fun _ => P) P P); auto.
Qed.

Lemma preserves_for_each {A} P (f : A -> M unit) l :
  (forall a, preserves P (f a)) -> preserves P (for_each f l).
Proof.
  intros Hf. induction l as [|a l IH]; simpl.
  - apply preserves_ret.
  - apply preserves_bind; auto.
Qed.

(** *** What the helpers of the session leave alone *)

Section Frame.
Variable P : St -> Prop.
Hypothesis HP : harmless P.

Lemma harmless_gate g s w : P (s, w) -> P (set_can_run_requests g s, w).
Proof. apply HP. Qed.
Lemma harmless_environment e s w : P (s, w) -> P (set_environment e s, w).
Proof. apply HP. Qed.
Lemma harmless_transport t s w : P (s, w) -> P (set_transport t s, w).
Proof. apply HP. Qed.
Lemma harmless_world s w c d tr :
  P (s, w) ->
  P (s, mkWorld (script w) c (randoms w) d tr (loader_transport w)
          (loader_environment w) (srp w)).
Proof. apply HP. Qed.

Lemma preserves_emit ev : preserves P (emit ev).
Proof.
  apply hoare_modify_world. intros s w H. now apply harmless_world.
Qed.

Lemma preserves_environment : preserves P environment.
Proof.
  unfold environment. apply preserves_bind; [apply preserves_get_session|].
  intros s. destruct (__environment s); [apply preserves_ret|].
  apply preserves_bind; [apply preserves_get_world|]. intros w.
  destruct (loader_environment w); [|apply preserves_raise].
  apply preserves_bind; [|intros; apply preserves_ret].
  apply hoare_modify_session. intros. now apply harmless_environment.
Qed.

Lemma preserves_getstate : preserves P __getstate__.
Proof.
  unfold __getstate__. apply preserves_bind; [apply preserves_get_session|].
  intros s. destruct (is_none (UID s)); [apply preserves_ret|].
  apply preserves_bind; [apply preserves_environment|]. intros env.
  apply preserves_bind; [apply preserves_lift|]. intros n.
  apply preserves_ret.
Qed.

Lemma preserves_requests_lock ncc : preserves P (_requests_lock ncc).
Proof.
  unfold _requests_lock. destruct ncc; [apply preserves_ret|].
  apply preserves_bind.
  { apply hoare_modify_session. intros. now apply harmless_gate. }
  intros _. apply preserves_bind; [apply preserves_get_session|]. intros s.
  apply preserves_bind; [apply preserves_getstate|]. intros d.
  apply preserves_bind; [apply preserves_get_session|]. intros s'.
  apply preserves_for_each. intros o. apply preserves_emit.
Qed.

Lemma preserves_requests_unlock ncc : preserves P (_requests_unlock ncc).
Proof.
  unfold _requests_unlock. destruct ncc; [apply preserves_ret|].
  apply preserves_bind.
  { apply hoare_modify_session. intros. now apply harmless_gate. }
  intros _. apply preserves_bind; [apply preserves_get_session|]. intros s.
  apply preserves_bind; [apply preserves_getstate|]. intros d.
  apply preserves_bind; [apply preserves_get_session|]. intros s'.
  apply preserves_for_each. intros o. apply preserves_emit.
Qed.

Lemma preserves_requests_wait ncc : preserves P (_requests_wait ncc).
Proof.
  unfold _requests_wait. apply preserves_bind; [apply preserves_get_session|].
  intros s. destruct ncc; [apply preserves_ret|].
  destruct (__can_run_requests s) as [[|]|];
    first [apply preserves_ret|apply preserves_blocked].
Qed.

Lemma hoare_transport_call r :
  hoare P (transport_call r) (fun reply st => P st /\ scripted reply st) P.
Proof.
  intros [s w] o st' H Hm. unfold transport_call, bind, emit, modify_world,
    get_world, lift in Hm. simpl in Hm.
  inversion Hm; subst; clear Hm.
  assert (P (s, next_call (record (Requested r) w)))
    by (unfold next_call, record; simpl; now apply harmless_world).
  destruct (script w (calls w)) eqn:Es; auto.
  split; [assumption|]. exists (calls w). exact Es.
Qed.

Lemma hoare_request endpoint jsondata headers method params ncc :
  hoare P
    (__async_api_request_internal endpoint jsondata headers method params ncc)
    (fun reply st => P st /\ scripted reply st) P.
Proof.
  unfold __async_api_request_internal.
  eapply hoare_bind; [apply preserves_get_session|]. intros s. simpl.
  eapply hoare_bind with (R := fun _ => P).
  { destruct (__transport s), (__transport_factory s);
      try apply preserves_ret.
    apply hoare_modify_session. intros. now apply harmless_transport. }
  intros u. eapply hoare_bind; [apply preserves_get_session|]. intros s'.
  simpl. destruct (__transport s'); [|apply hoare_raise; auto].
  eapply hoare_bind; [apply preserves_requests_wait|]. intros u'.
  apply hoare_transport_call.
Qed.

Lemma preserves_request endpoint jsondata headers method params ncc :
  preserves P
    (__async_api_request_internal endpoint jsondata headers method params ncc).
Proof.
  eapply hoare_consequence; [apply hoare_request|auto|simpl; tauto|auto].
Qed.

Lemma hoare_refresh_request :
  hoare P refresh_request (fun reply st => P st /\ scripted reply st) P.
Proof.
  unfold refresh_request.
  eapply hoare_bind; [apply preserves_get_session|]. intros s.
  apply hoare_request.
Qed.

Lemma preserves_random : preserves P random.
Proof.
  unfold random. apply preserves_bind; [apply preserves_get_world|].
  intros w. apply preserves_bind; [|intros; apply preserves_ret].
  apply hoare_modify_world. intros. now apply harmless_world.
Qed.

Lemma preserves_sleep d : preserves P (sleep d).
Proof.
  unfold sleep. destruct d as [n|q]; [|apply preserves_emit].
  destruct (float_overflow <=? n); [apply preserves_raise|apply preserves_emit].
Qed.

Lemma preserves_sleep_for_exception e : preserves P (__sleep_for_exception e).
Proof.
  unfold __sleep_for_exception.
  destruct (PyStr.isnumeric _).
  - destruct (PyStr.int _); [apply preserves_sleep|apply preserves_raise].
  - apply preserves_bind; [apply preserves_random|]. intros r.
    apply preserves_sleep.
Qed.
End Frame.

End Triples.

(** ** Refresh revision and status 403 *)

Module SessionFacts.
Import Session Triples.
Import Examples.Coordinator.
Local Open Scope py_scope.

(** Run a coroutine on the results that the context gives for its
    parts. *)
Ltac run_with H := unfold bind, try_except_api, finally; rewrite H; simpl.

(** *** Refresh and the revision it is given *)

Lemma async_refresh_snapshot_unused observed ncc st :
  async_refresh (Some observed) ncc st = async_refresh None ncc st.
Proof.
  unfold async_refresh, bind.
  destruct (_requests_lock ncc st) as [[u|x|] st1]; try reflexivity.
  unfold get_session. simpl. now rewrite Z.eqb_refl.
Qed.

(** The loop of the session, one attempt unfolded. *)
Lemma api_request_loop_unfold n endpoint jsondata headers method params ncc :
  api_request_loop (S n) endpoint jsondata headers method params ncc
  = (s <- get_session ;;
     try_except_api
       (r <- __async_api_request_internal endpoint jsondata headers method
               params ncc ;;
        ret (Some r))
       (fun x e =>
          if http_code e =? 403 then
            twofa <- needs_twofa ;;
            if twofa then raise (ProtonAPI2FANeeded e)
            else raise (ProtonAPIMissingScopeError e)
          else if http_code e =? 401 then
            refreshed <- async_refresh (Some (__refresh_revision s)) ncc ;;
            if truthy refreshed
            then api_request_loop n endpoint jsondata headers method params ncc
            else raise (ProtonAPIAuthenticationNeeded e)
          else if (http_code e =? 408) || (http_code e =? 502)
          then api_request_loop n endpoint jsondata headers method params ncc
          else if (http_code e =? 429) || (http_code e =? 503) then
            __sleep_for_exception e ;;
            api_request_loop n endpoint jsondata headers method params ncc
          else raise x)).
Proof. reflexivity. Qed.

(** C1, at a session whose revision is 1 and a caller that observed
    revision 0: the refresh is done again, the tokens are replaced and
    the revision goes to 2. *)
Theorem refresh_with_stale_snapshot_refreshes_again :
  exists s' w',
    async_refresh (Some 0) false (logged_in, world [Return new_tokens])
      = (Return (Some true), (s', w'))
    /\ __refresh_revision logged_in = 1
    /\ __refresh_revision s' = 2
    /\ AccessToken s' = VStr "access2"
    /\ calls w' = 1%nat.
Proof.
  eexists _, _. split; [vm_compute; reflexivity|]. repeat split.
Qed.

End SessionFacts.

(** ** Backoff and snapshots *)

Module Backoff.
Import Session Triples.
Import Examples.Coordinator.
Local Open Scope py_scope.

(** *** The wait after a 429 or a 503 *)

Lemma decimal_digit_is_numeric c :
  PyStr.is_decimal_digit c = true -> PyStr.isnumeric_char c = true.
Proof.
  unfold PyStr.is_decimal_digit, PyStr.isnumeric_char. intros ->. reflexivity.
Qed.

Lemma decimal_digits_are_numeric h :
  PyStr.all_chars PyStr.is_decimal_digit h = true ->
  PyStr.all_chars PyStr.isnumeric_char h = true.
Proof.
  induction h as [|c h IH]; simpl; [reflexivity|].
  rewrite !andb_true_iff. intros [Hc Hh].
  split; [now apply decimal_digit_is_numeric|auto].
Qed.

(** A header of decimal digits is waited for, to the second, when it
    is no longer than [int] accepts and its value converts to a
    [float]. *)
Lemma sleep_for_decimal_header e h st :
  Dict.get String.eqb "retry-after" (http_headers e) = Some h ->
  h <> EmptyString ->
  PyStr.all_chars PyStr.is_decimal_digit h = true ->
  (String.length h <= PyStr.int_max_str_digits)%nat ->
  PyStr.digits_value h 0 < float_overflow ->
  __sleep_for_exception e st
  = (Return tt,
     (fst st, record (Slept (Seconds (PyStr.digits_value h 0))) (snd st))).
Proof.
  intros Hh Hne Hd Hlen Hval. unfold __sleep_for_exception. rewrite Hh.
  unfold PyStr.isnumeric, PyStr.int.
  destruct h as [|c h]; [congruence|].
  rewrite (decimal_digits_are_numeric _ Hd), Hd.
  apply Nat.leb_le in Hlen. rewrite Hlen. cbn [andb].
  unfold sleep. apply Z.leb_gt in Hval. rewrite Hval.
  now destruct st.
Qed.

(** A header of more decimal digits than [int] accepts raises
    [ValueError], and one whose value does not convert to a [float]
    raises [OverflowError]; in both cases nothing is slept. *)
Lemma sleep_for_huge_header e h st :
  Dict.get String.eqb "retry-after" (http_headers e) = Some h ->
  h <> EmptyString ->
  PyStr.all_chars PyStr.is_decimal_digit h = true ->
  __sleep_for_exception e st
  = if (String.length h <=? PyStr.int_max_str_digits)%nat
    then if float_overflow <=? PyStr.digits_value h 0
         then (Raise OverflowError, st)
         else (Return tt,
               (fst st,
                record (Slept (Seconds (PyStr.digits_value h 0))) (snd st)))
    else (Raise ValueError, st).
Proof.
  intros Hh Hne Hd. unfold __sleep_for_exception. rewrite Hh.
  unfold PyStr.isnumeric, PyStr.int.
  destruct h as [|c h]; [congruence|].
  rewrite (decimal_digits_are_numeric _ Hd), Hd.
  destruct (_ <=? PyStr.int_max_str_digits)%nat; cbn [andb]; [|reflexivity].
  unfold sleep.
  destruct (float_overflow <=? _); [reflexivity|now destruct st].
Qed.

Lemma sample_range w : (0 <= sample w)%Q /\ (sample w < 1)%Q.
Proof.
  assert (Hlt : (randoms w (drawn w) mod 2 ^ 53 < 2 ^ 53)%N)
    by (apply N.mod_upper_bound; discriminate).
  unfold sample, Qle, Qlt. cbn [Qnum Qden].
  set (k := (randoms w (drawn w) mod 2 ^ 53)%N) in *.
  change (2 ^ 53)%N with 9007199254740992%N in Hlt.
  change (2 ^ 53)%positive with 9007199254740992%positive.
  lia.
Qed.

(** Without the header, or with a header that [isnumeric] refuses,
    the wait is [3 + 5 r] for the sample [r], a value in [3, 8). *)
Lemma sleep_for_other_header e st :
  match Dict.get String.eqb "retry-after" (http_headers e) with
  | Some h => PyStr.isnumeric h = false
  | None => True
  end ->
  let q := (3 + sample (snd st) * 5)%Q in
  __sleep_for_exception e st
  = (Return tt, (fst st, record (Slept (SecondsQ q)) (next_draw (snd st))))
  /\ (3 <= q)%Q /\ (q < 8)%Q.
Proof.
  intros Hh q. split.
  - unfold __sleep_for_exception.
    destruct (Dict.get String.eqb "retry-after" (http_headers e)) as [h|].
    + rewrite Hh. now destruct st.
    + simpl. now destruct st.
  - destruct (sample_range (snd st)) as [H0 H1]. subst q.
    destruct (sample (snd st)) as [n d].
    unfold Qle, Qlt, Qplus, Qmult in *. cbn [Qnum Qden] in *.
    rewrite ?Pos2Z.inj_mul. lia.
Qed.

(** C8, at a 429 whose [retry-after] is the numeric character
    SUPERSCRIPT TWO: [isnumeric] accepts the header, [int] does not,
    and nothing is slept: [__sleep_for_exception] raises [ValueError],
    and so does [async_api_request]. *)
Theorem sleep_for_exception_raises_on_superscript :
  PyStr.isnumeric superscript_two = true
  /\ (forall st,
        __sleep_for_exception (error 429 [("retry-after", superscript_two)]) st
        = (Raise ValueError, st))
  /\ exists w',
       async_api_request "/vpn" None None None None false
         (logged_in, world [failure 429 [("retry-after", superscript_two)]])
       = (Raise ValueError, (set_transport (Some 1%nat) logged_in, w'))
       /\ trace w'
          = [Requested {| endpoint := "/vpn"; jsondata := None;
                          additional_headers := None; method := None;
                          params := None |}].
Proof.
  split; [reflexivity|]. split; [intros st; reflexivity|].
  eexists. split; [vm_compute; reflexivity|reflexivity].
Qed.

End Backoff.

Module Persistence.
Import Session Triples.
Import Examples.Coordinator.
Local Open Scope py_scope.

(** *** Snapshots *)

(** [__setstate__] assigns the five attributes and drops the
    transport, and then raises: class [Environment] has no
    [get_environment]. *)
Lemma setstate_raises data s w :
  __setstate__ data (s, w)
  = (Raise (AttributeError "get_environment"),
     (set_transport None
        (set_AccountName (get_or_none data "AccountName")
           (set_Scopes (get_or_none data "Scopes")
              (set_RefreshToken (get_or_none data "RefreshToken")
                 (set_AccessToken (get_or_none data "AccessToken")
                    (set_UID (get_or_none data "UID") s))))), w)).
Proof. reflexivity. Qed.

(** [dump] is empty exactly when the coordinator is unauthenticated. *)
Lemma dump_empty_iff st d st' :
  dump st = (Return d, st') -> (d = [] <-> UID (fst st) = VNone).
Proof.
  unfold dump, __getstate__, bind, get_session. simpl.
  destruct (UID (fst st)) eqn:U; simpl.
  - intros H; inversion H; subst. tauto.
  - destruct (environment st) as [[env|x|] st1]; try discriminate.
    unfold lift. destruct (name env); try discriminate.
    intros H; inversion H; subst. split; discriminate.
  - destruct (environment st) as [[env|x|] st1]; try discriminate.
    unfold lift. destruct (name env); try discriminate.
    intros H; inversion H; subst. split; discriminate.
  - destruct (environment st) as [[env|x|] st1]; try discriminate.
    unfold lift. destruct (name env); try discriminate.
    intros H; inversion H; subst. split; discriminate.
  - destruct (environment st) as [[env|x|] st1]; try discriminate.
    unfold lift. destruct (name env); try discriminate.
    intros H; inversion H; subst. split; discriminate.
Qed.

(** The snapshot of an authenticated coordinator. *)
Lemma dump_authenticated st d st' :
  UID (fst st) <> VNone ->
  dump st = (Return d, st') ->
  exists env_name,
    d = [("UID", UID (fst st)); ("AccessToken", AccessToken (fst st));
         ("RefreshToken", RefreshToken (fst st)); ("Scopes", Scopes (fst st));
         ("Environment", VStr env_name);
         ("AccountName", AccountName (fst st))].
Proof.
  intros HU. unfold dump, __getstate__, bind, get_session. simpl.
  destruct (is_none (UID (fst st))) eqn:N.
  { destruct (UID (fst st)); simpl in N; congruence. }
  destruct (environment st) as [[env|x|] st1]; try discriminate.
  unfold lift. destruct (name env) as [n|x|]; try discriminate.
  intros H; inversion H; subst. eauto.
Qed.

(** Had class [Environment] a [get_environment] that finds the
    environment of a name, the restore of the snapshot of an
    authenticated coordinator would give back the account name, the
    four credentials and the environment, and drop the transport. *)
Lemma restore_with_get_environment get_environment st d st' s0 w e :
  dump st = (Return d, st') ->
  UID (fst st) <> VNone ->
  (forall v st0, get_environment v st0 = (Return (Some e), st0)) ->
  exists s',
    setstate_with (Some get_environment) d (s0, w) = (Return tt, (s', w))
    /\ credentials s' = credentials (fst st)
    /\ AccountName s' = AccountName (fst st)
    /\ __transport s' = None
    /\ __environment s' = Some e.
Proof.
  intros Hd HU He.
  destruct (dump_authenticated _ _ _ HU Hd) as [n ->].
  unfold setstate_with, bind, modify_session. simpl.
  rewrite He. simpl. eexists. split; [reflexivity|]. repeat split.
Qed.

(** C9: [load] never returns a coordinator.  When [__init__] finds a
    transport, [__setstate__] raises [AttributeError]; this is the case
    for the snapshot of an authenticated coordinator, too. *)
Theorem load_raises data w :
  fst (load data w)
  = match loader_transport w with
    | Some _ => Raise (AttributeError "get_environment")
    | None =>
        Raise (RuntimeError
          "Loader: couldn't find an acceptable implementation for transport.")
    end.
Proof.
  unfold load, __init__. destruct (loader_transport w); reflexivity.
Qed.

(** So it is for the snapshot of an authenticated coordinator. *)
Lemma load_of_dump_raises :
  exists d st',
    dump (logged_in, world []) = (Return d, st')
    /\ d <> []
    /\ load d (world []) = (Raise (AttributeError "get_environment"), world []).
Proof.
  eexists _, _. split; [vm_compute; reflexivity|].
  split; [discriminate|reflexivity].
Qed.

End Persistence.

(** ** Exhausted attempts *)

Module Retry.
Import Session Triples SessionFacts.
Import Examples.Coordinator.
Local Open Scope py_scope.

Ltac solve_harmless :=
  unfold harmless, credentials, cleared; repeat split; intros; simpl in *;
  intuition auto.

(** *** The retry loops, attempt by attempt *)

Lemma api_request_loop_consumed n endpoint jsondata headers method params ncc
    st st' :
  attempt_consumed
    (__async_api_request_internal endpoint jsondata headers method params ncc)
    ncc st st' ->
  api_request_loop (S n) endpoint jsondata headers method params ncc st
  = api_request_loop n endpoint jsondata headers method params ncc st'.
Proof.
  intros H. rewrite api_request_loop_unfold.
  unfold bind at 1. unfold get_session at 1. cbn [fst snd].
  destruct H as [st0 e st1 [x [Hx Ha]] Hc
                |st0 e st1 st2 [x [Hx Ha]] Hc Hs
                |st0 e st1 st2 [x [Hx Ha]] Hc Hr];
    run_with Hx; rewrite Ha.
  - destruct Hc as [-> | ->]; reflexivity.
  - destruct Hc as [-> | ->]; simpl; run_with Hs; reflexivity.
  - rewrite Hc. simpl. run_with Hr. reflexivity.
Qed.

Lemma refresh_loop_consumed n st st' :
  refresh_attempt_consumed st st' ->
  refresh_loop (S n) st = refresh_loop n st'.
Proof.
  intros H. cbn [refresh_loop].
  destruct H as [st0 e st1 [x [Hx Ha]] Hc
                |st0 e st1 st2 [x [Hx Ha]] Hc Hs];
    run_with Hx; rewrite Ha.
  - rewrite Hc. reflexivity.
  - destruct Hc as [-> | ->]; simpl; run_with Hs; reflexivity.
Qed.

(** A call that returns ends the loop with its reply. *)
Lemma api_request_loop_returns n endpoint jsondata headers method params ncc
    st reply st' :
  __async_api_request_internal endpoint jsondata headers method params ncc st
    = (Return reply, st') ->
  api_request_loop (S n) endpoint jsondata headers method params ncc st
  = (Return (Some reply), st').
Proof.
  intros H. rewrite api_request_loop_unfold.
  unfold bind at 1. unfold get_session at 1. cbn [fst snd].
  run_with H. reflexivity.
Qed.

(** C10: when each of the three attempts of [async_api_request] is
    used up by a failure that lets the loop go on, the function
    returns [None]; and when each of the three attempts of
    [async_refresh] is used up so, between a lock and an unlock that
    return, [async_refresh] returns [None]. *)
Theorem exhausted_attempts_return_None :
  (forall endpoint jsondata headers method params ncc st0 st1 st2 st3,
     let call :=
       __async_api_request_internal endpoint jsondata headers method params ncc in
     attempt_consumed call ncc st0 st1 ->
     attempt_consumed call ncc st1 st2 ->
     attempt_consumed call ncc st2 st3 ->
     async_api_request endpoint jsondata headers method params ncc st0
     = (Return None, st3))
  /\ (forall observed ncc st locked st1 st2 st3 unlocked,
        _requests_lock ncc st = (Return tt, locked) ->
        refresh_attempt_consumed (bump_revision locked) st1 ->
        refresh_attempt_consumed st1 st2 ->
        refresh_attempt_consumed st2 st3 ->
        _requests_unlock ncc st3 = (Return tt, unlocked) ->
        async_refresh observed ncc st = (Return None, unlocked)).
Proof.
  split.
  - intros endpoint jsondata headers method params ncc st0 st1 st2 st3 call
      H1 H2 H3.
    unfold async_api_request.
    rewrite (api_request_loop_consumed _ _ _ _ _ _ _ _ _ H1).
    rewrite (api_request_loop_consumed _ _ _ _ _ _ _ _ _ H2).
    rewrite (api_request_loop_consumed _ _ _ _ _ _ _ _ _ H3).
    reflexivity.
  - intros observed ncc st locked st1 st2 st3 unlocked Hl H1 H2 H3 Hu.
    unfold async_refresh. unfold bind at 1. rewrite Hl.
    unfold bind at 1. unfold get_session at 1. cbv beta iota.
    rewrite Z.eqb_refl, andb_false_r.
    unfold bind at 1. unfold modify_session at 1. cbv beta iota.
    change (set_refresh_revision (__refresh_revision (fst locked) + 1)
              (fst locked), snd locked)
      with (bump_revision locked).
    unfold finally.
    rewrite (refresh_loop_consumed _ _ _ H1).
    rewrite (refresh_loop_consumed _ _ _ H2).
    rewrite (refresh_loop_consumed _ _ _ H3).
    cbn [refresh_loop ret]. rewrite Hu. reflexivity.
Qed.

(** Three failures 429, 503 and 408 of a call, and three failures
    409, 429 and 503 of a refresh. *)
Lemma exhausted_attempts_return_None_witness :
  (exists st3,
     async_api_request "/vpn" None None None None false
       (logged_in,
        world [failure 429 [("retry-after", "5")]; failure 503 [];
               failure 408 []])
     = (Return None, st3))
  /\ (exists unlocked,
        async_refresh None false
          (logged_in,
           world [failure 409 []; failure 429 [("retry-after", "5")];
                  failure 503 []])
        = (Return None, unlocked)).
Proof.
  split; eexists.
  - eapply (proj1 exhausted_attempts_return_None
              "/vpn" None None None None false
              (logged_in,
               world [failure 429 [("retry-after", "5")]; failure 503 [];
                      failure 408 []])).
    + eapply consumed_by_backoff with (e := error 429 [("retry-after", "5")]).
      * eexists. split; [vm_compute; reflexivity|reflexivity].
      * left. reflexivity.
      * vm_compute. reflexivity.
    + eapply consumed_by_backoff with (e := error 503 []).
      * eexists. split; [vm_compute; reflexivity|reflexivity].
      * right. reflexivity.
      * vm_compute. reflexivity.
    + eapply consumed_by_immediate_retry with (e := error 408 []).
      * eexists. split; [vm_compute; reflexivity|reflexivity].
      * left. reflexivity.
  - eapply (proj2 exhausted_attempts_return_None None false
              (logged_in,
               world [failure 409 []; failure 429 [("retry-after", "5")];
                      failure 503 []])).
    + vm_compute. reflexivity.
    + eapply refresh_consumed_by_conflict with (e := error 409 []).
      * eexists. split; [vm_compute; reflexivity|reflexivity].
      * reflexivity.
    + eapply refresh_consumed_by_backoff
        with (e := error 429 [("retry-after", "5")]).
      * eexists. split; [vm_compute; reflexivity|reflexivity].
      * left. reflexivity.
      * vm_compute. reflexivity.
    + eapply refresh_consumed_by_backoff with (e := error 503 []).
      * eexists. split; [vm_compute; reflexivity|reflexivity].
      * right. reflexivity.
      * vm_compute. reflexivity.
    + vm_compute. reflexivity.
Defined.

End Retry.

(** ** Status 403 *)

Module Forbidden.
Import Session Triples SessionFacts Retry.
Import Examples.Coordinator.
Local Open Scope py_scope.





End Forbidden.

(** ** Status 401 *)

Module Unauthorized.
Import Session Triples SessionFacts Retry.
Import Examples.Coordinator.
Local Open Scope py_scope.

(** *** What the loop of [async_refresh] keeps *)




(** *** The end of a refresh that is refused *)









End Unauthorized.

(** ** Logout *)

Module Logout.
Import Session Triples SessionFacts Retry.
Import Examples.Coordinator.
Local Open Scope py_scope.

(** *** Logout *)

(** On an unauthenticated coordinator nothing is done. *)
Lemma logout_unauthenticated ncc st :
  authenticated (fst st) = false -> async_logout ncc st = (Return (Some true), st).
Proof.
  intros H. unfold async_logout, bind, get_session. simpl. now rewrite H.
Qed.

(** The credentials are cleared when the function returns [True], and
    only then: when it returns anything else they are as before. *)
Lemma logout_clears_only_on_success ncc st r st' :
  authenticated (fst st) = true ->
  async_logout ncc st = (r, st') ->
  match r with
  | Return (Some true) => cleared (fst st')
  | Return _ => credentials (fst st') = credentials (fst st)
  | _ => credentials (fst st') = credentials (fst st) \/ cleared (fst st')
  end.
Proof.
  intros Hauth. unfold async_logout.
  unfold bind at 1. unfold get_session at 1. cbv beta iota. rewrite Hauth.
  cbn [negb].
  set (same := fun st0 : St => credentials (fst st0) = credentials (fst st)).
  set (gone := fun st0 : St => cleared (fst st0)).
  assert (Hsame : harmless same) by (unfold same; solve_harmless).
  assert (Hgone : harmless gone) by (unfold gone; solve_harmless).
  intros Hrun.
  assert (H : hoare same
    (_requests_lock ncc;;
     finally
       (try_except_api
          (_ <- __async_api_request_internal "/auth" None None (Some "DELETE")
                  None true;;
           modify_session clear_credentials;; ret (Some true))
          (fun x e =>
             match code e with
             | Some c => if negb (c =? 401) then raise x else ret None
             | None => raise (AttributeError "code")
             end))
       (_requests_unlock ncc))
    (fun a st0 => match a with Some true => gone st0 | _ => same st0 end)
    (fun st0 => same st0 \/ gone st0)).
  { eapply hoare_bind with (R := fun _ => same).
    { eapply hoare_consequence;
        [apply (preserves_requests_lock _ Hsame)|auto|auto|unfold same; auto]. }
    intros _.
    eapply hoare_finally with
      (R := fun a st0 => match a with Some true => gone st0 | _ => same st0 end)
      (E' := same).
    - eapply hoare_try_except_api with (E' := same); [| |auto].
      + eapply hoare_bind with (R := fun _ => same);
          [apply (preserves_request _ Hsame)|].
        intros _. eapply hoare_bind with (R := fun _ => gone).
        * apply hoare_modify_session. intros s w _. unfold gone.
          repeat split.
        * intros _. apply hoare_ret. auto.
      + intros x e. destruct (code e) as [c|]; [|apply hoare_raise; auto].
        destruct (negb (c =? 401)); [apply hoare_raise|apply hoare_ret]; auto.
    - intros [[|]|].
      + eapply hoare_consequence;
          [apply (preserves_requests_unlock _ Hgone)|auto|auto|auto].
      + eapply hoare_consequence;
          [apply (preserves_requests_unlock _ Hsame)|auto|auto|auto].
      + eapply hoare_consequence;
          [apply (preserves_requests_unlock _ Hsame)|auto|auto|auto].
    - eapply hoare_consequence;
        [apply (preserves_requests_unlock _ Hsame)|auto|simpl; auto|auto].
    - auto. }
  specialize (H st r st' eq_refl Hrun).
  destruct r as [[[|]|]| |]; exact H.
Qed.

(** C4, at an authenticated coordinator whose session-delete call
    fails with status 401: the error is ignored, the function returns
    [None] and not [True], and the credentials are kept: the
    coordinator is still authenticated. *)
Theorem logout_ignored_401_keeps_credentials :
  exists s' w',
    async_logout false (logged_in, world [failure 401 []])
      = (Return None, (s', w'))
    /\ credentials s' = credentials logged_in
    /\ authenticated s' = true
    /\ calls w' = 1%nat.
Proof.
  eexists _, _. split; [vm_compute; reflexivity|]. repeat split.
Qed.

End Logout.

(** ** Credentials *)

Module Credentials.
Import Session Triples SessionFacts Retry Unauthorized.
Import Examples.Coordinator.
Local Open Scope py_scope.

(** *** The invariant of the credentials *)

Lemma harmless_consistent : harmless consistent.
Proof.
  unfold harmless. repeat apply conj; intros; assumption.
Qed.

Lemma harmless_signed_in : harmless signed_in.
Proof.
  unfold harmless. repeat apply conj; intros; assumption.
Qed.

Lemma signed_in_consistent st : signed_in st -> consistent st.
Proof. unfold signed_in, consistent. tauto. Qed.

Lemma consistent_signed_in st :
  consistent st -> authenticated (fst st) = true -> signed_in st.
Proof.
  unfold signed_in, consistent, authenticated. intros [Hr Hi] Ha.
  split; [exact Hr|]. split; [|exact Hi].
  intros E. rewrite E in Ha. discriminate.
Qed.

Lemma consistent_cleared s w :
  replies_complete w -> consistent (clear_credentials s, w).
Proof.
  intros Hr. split; [exact Hr|]. unfold credentials_invariant. simpl. tauto.
Qed.

Lemma signed_in_AccessToken v s w :
  v <> VNone -> signed_in (s, w) -> signed_in (set_AccessToken v s, w).
Proof.
  unfold signed_in, credentials_invariant. simpl. intros Hv (Hr & Hu & Hi).
  split; [exact Hr|]. split; [exact Hu|]. tauto.
Qed.

Lemma signed_in_RefreshToken v s w :
  v <> VNone -> signed_in (s, w) -> signed_in (set_RefreshToken v s, w).
Proof.
  unfold signed_in, credentials_invariant. simpl. intros Hv (Hr & Hu & Hi).
  split; [exact Hr|]. split; [exact Hu|]. tauto.
Qed.

Lemma signed_in_Scopes v s w :
  v <> VNone -> signed_in (s, w) -> signed_in (set_Scopes v s, w).
Proof.
  unfold signed_in, credentials_invariant. simpl. intros Hv (Hr & Hu & Hi).
  split; [exact Hr|]. split; [exact Hu|]. tauto.
Qed.

Lemma scripted_complete reply st :
  replies_complete (snd st) -> scripted reply st -> reply_complete reply.
Proof. intros Hr [n Hn]. exact (Hr _ _ Hn). Qed.

(** A credential read from a complete reply is not [None]. *)
Lemma hoare_item_complete {A} P reply key (k : value -> M A) Q E :
  reply_complete reply ->
  In key credential_keys ->
  (forall v, v <> VNone -> hoare P (k v) Q E) ->
  (forall st, P st -> E st) ->
  hoare P (bind (item reply key) k) Q E.
Proof.
  intros [Hc _] Hk Hv HE st r st' HP Hrun.
  unfold bind, item in Hrun. specialize (Hc key Hk).
  destruct (Dict.get String.eqb key reply) as [v|] eqn:G.
  - simpl in Hrun. apply (Hv v) with (st := st); [congruence|assumption|assumption].
  - inversion Hrun; subst. auto.
Qed.

Lemma hoare_assume {A} (fact : Prop) P (m : M A) Q E :
  (fact -> hoare P m Q E) -> hoare (fun st => fact /\ P st) m Q E.
Proof. intros H st r st' [Hf HP]. now apply H. Qed.

Ltac in_keys := unfold credential_keys; simpl; tauto.

Lemma refresh_loop_consistent n :
  hoare signed_in (refresh_loop n) (fun _ => consistent) consistent.
Proof.
  induction n as [|n IH]; cbn [refresh_loop].
  { apply hoare_ret. apply signed_in_consistent. }
  apply hoare_try_except_api with (E' := signed_in);
    [| |apply signed_in_consistent].
  - eapply hoare_bind; [apply (hoare_refresh_request _ harmless_signed_in)|].
    intros reply.
    eapply hoare_consequence with
      (P' := fun st => reply_complete reply /\ signed_in st)
      (Q' := fun _ => consistent) (E' := signed_in); auto.
    2:{ intros st [Hs Hsc]. split; [|exact Hs].
        eapply scripted_complete; [apply Hs|exact Hsc]. }
    apply hoare_assume. intros Hc.
    apply hoare_item_complete; [exact Hc|in_keys| |auto]. intros v1 Hv1.
    eapply hoare_bind with (R := fun _ => signed_in).
    { apply hoare_modify_session. intros. now apply signed_in_AccessToken. }
    intros _.
    apply hoare_item_complete; [exact Hc|in_keys| |auto]. intros v2 Hv2.
    eapply hoare_bind with (R := fun _ => signed_in).
    { apply hoare_modify_session. intros. now apply signed_in_RefreshToken. }
    intros _.
    apply hoare_item_complete; [exact Hc|in_keys| |auto]. intros v3 Hv3.
    eapply hoare_bind with (R := fun _ => signed_in).
    { apply hoare_modify_session. intros. now apply signed_in_Scopes. }
    intros _. apply hoare_ret. apply signed_in_consistent.
  - intros x e.
    destruct (http_code e =? 409); [exact IH|].
    destruct ((http_code e =? 429) || (http_code e =? 503)).
    { eapply hoare_bind with (R := fun _ => signed_in); [|intros _; exact IH].
      eapply hoare_consequence;
        [apply (preserves_sleep_for_exception _ harmless_signed_in)
        |auto|auto|apply signed_in_consistent]. }
    destruct ((http_code e =? 400) || (http_code e =? 422)).
    { eapply hoare_bind with (R := fun _ => consistent).
      - apply hoare_modify_session. intros s w Hs.
        apply consistent_cleared. apply Hs.
      - intros _. apply hoare_ret. auto. }
    apply hoare_ret. apply signed_in_consistent.
Qed.

Lemma async_refresh_consistent observed ncc :
  hoare signed_in (async_refresh observed ncc) (fun _ => consistent) consistent.
Proof.
  unfold async_refresh.
  eapply hoare_bind with (R := fun _ => signed_in).
  { eapply hoare_consequence;
      [apply (preserves_requests_lock _ harmless_signed_in)
      |auto|auto|apply signed_in_consistent]. }
  intros _. eapply hoare_bind with (R := fun _ => signed_in).
  { apply hoare_get_session. auto. }
  intros s. rewrite Z.eqb_refl, andb_false_r.
  eapply hoare_bind with (R := fun _ => signed_in).
  { apply hoare_modify_session. intros s' w Hs. exact Hs. }
  intros _.
  eapply hoare_finally with (R := fun _ => consistent) (E' := consistent).
  - apply refresh_loop_consistent.
  - intros _. apply (preserves_requests_unlock _ harmless_consistent).
  - apply (preserves_requests_unlock _ harmless_consistent).
  - auto.
Qed.

Lemma async_provide_2fa_consistent code ncc :
  hoare signed_in (async_provide_2fa code ncc) (fun _ => consistent) consistent.
Proof.
  unfold async_provide_2fa.
  eapply hoare_bind with (R := fun _ => signed_in).
  { eapply hoare_consequence;
      [apply (preserves_requests_lock _ harmless_signed_in)
      |auto|auto|apply signed_in_consistent]. }
  intros _.
  eapply hoare_finally with (R := fun _ => consistent) (E' := consistent).
  - eapply hoare_bind; [|intros reply].
    { eapply hoare_consequence;
        [apply (hoare_request _ harmless_signed_in)
        |auto|intros a st H; exact H|apply signed_in_consistent]. }
    eapply hoare_consequence with
      (P' := fun st => reply_complete reply /\ signed_in st)
      (Q' := fun _ => consistent) (E' := consistent); auto.
    2:{ intros st [Hs Hsc]. split; [|exact Hs].
        eapply scripted_complete; [apply Hs|exact Hsc]. }
    apply hoare_assume. intros Hc.
    apply hoare_item_complete;
      [exact Hc|in_keys| |apply signed_in_consistent].
    intros v Hv.
    eapply hoare_bind with (R := fun _ => consistent).
    { apply hoare_modify_session. intros s w Hs.
      apply signed_in_consistent. now apply signed_in_Scopes. }
    intros _.
    destruct (Dict.get String.eqb "Code" reply) as [[| z | | |]|];
      try (apply hoare_ret; auto).
    destruct z as [|p|p]; try (apply hoare_ret; auto).
    destruct (Pos.eq_dec p 1000) as [->|Hp].
    + eapply hoare_bind with (R := fun _ => consistent);
        [|intros _; apply hoare_ret; auto].
      apply hoare_modify_session. intros s w Hs. exact Hs.
    + assert (Hm : forall X (a b : X),
                match p with 1000%positive => a | _ => b end = b).
      { intros X a b.
        repeat (destruct p as [p|p|]; try reflexivity). congruence. }
      rewrite Hm. apply hoare_ret. auto.
  - intros _. apply (preserves_requests_unlock _ harmless_consistent).
  - apply (preserves_requests_unlock _ harmless_consistent).
  - auto.
Qed.

Lemma async_logout_consistent ncc : preserves consistent (async_logout ncc).
Proof.
  unfold async_logout.
  apply preserves_bind; [apply preserves_get_session|]. intros s.
  destruct (negb (authenticated s)); [apply preserves_ret|].
  apply preserves_bind;
    [apply (preserves_requests_lock _ harmless_consistent)|]. intros _.
  apply preserves_finally;
    [|apply (preserves_requests_unlock _ harmless_consistent)].
  apply preserves_try_except_api.
  - apply preserves_bind;
      [apply (preserves_request _ harmless_consistent)|]. intros _.
    apply preserves_bind; [|intros _; apply preserves_ret].
    apply hoare_modify_session. intros s' w Hs.
    apply consistent_cleared. apply Hs.
  - intros x e. destruct (code e) as [c|]; [|apply preserves_raise].
    destruct (negb (c =? 401)); [apply preserves_raise|apply preserves_ret].
Qed.

Lemma mem_get {V} key (d : list (string * V)) :
  Dict.mem String.eqb key d = true -> exists v, Dict.get String.eqb key d = Some v.
Proof.
  unfold Dict.mem. destruct (Dict.get String.eqb key d); [eauto|discriminate].
Qed.

Lemma store_authentication_consistent auth_response username :
  reply_complete auth_response ->
  Dict.mem String.eqb "ServerProof" auth_response = true ->
  preserves consistent (store_authentication auth_response username).
Proof.
  intros [Hnn Hall] Hsp. specialize (Hall Hsp).
  destruct (mem_get "UID" auth_response) as [v1 G1]; [apply Hall; in_keys|].
  destruct (mem_get "AccessToken" auth_response) as [v2 G2];
    [apply Hall; in_keys|].
  destruct (mem_get "RefreshToken" auth_response) as [v3 G3];
    [apply Hall; in_keys|].
  destruct (mem_get "Scopes" auth_response) as [v4 G4]; [apply Hall; in_keys|].
  assert (N1 : v1 <> VNone)
    by (intros ->; apply (Hnn "UID"); [in_keys|exact G1]).
  assert (N2 : v2 <> VNone)
    by (intros ->; apply (Hnn "AccessToken"); [in_keys|exact G2]).
  intros [s w] r st' [Hr Hi] Hrun.
  unfold store_authentication, bind, item, modify_session in Hrun.
  rewrite G1, G2, G3, G4 in Hrun. simpl in Hrun.
  inversion Hrun; subst; clear Hrun.
  split; [exact Hr|]. unfold credentials_invariant. simpl. tauto.
Qed.

Lemma async_authenticate_consistent username password ncc :
  preserves consistent (async_authenticate username password ncc).
Proof.
  unfold async_authenticate.
  apply preserves_bind;
    [apply (preserves_requests_lock _ harmless_consistent)|]. intros _.
  apply preserves_bind; [apply async_logout_consistent|]. intros _.
  apply preserves_finally;
    [|apply (preserves_requests_unlock _ harmless_consistent)].
  apply preserves_bind;
    [apply (preserves_request _ harmless_consistent)|]. intros info.
  apply preserves_bind; [apply preserves_get_world|]. intros w.
  apply preserves_bind; [apply preserves_item|]. intros armored.
  destruct (verify_modulus (srp w) armored) as [modulus|];
    [|apply preserves_raise].
  apply preserves_bind; [apply preserves_item_decoded|].
  intros server_challenge.
  apply preserves_bind; [apply preserves_item_decoded|]. intros salt.
  apply preserves_bind; [apply preserves_item|]. intros version.
  destruct (process_challenge (srp w) password modulus salt server_challenge
              version) as [client_proof|]; [|apply preserves_raise].
  apply preserves_bind; [apply preserves_item|]. intros srp_session.
  eapply hoare_bind with
    (R := fun auth st =>
            consistent st
            /\ match auth with Some r => scripted r st | None => True end).
  { eapply hoare_try_except_api with (E' := consistent); [| |auto].
    - eapply hoare_bind;
        [apply (hoare_request _ harmless_consistent)|].
      intros reply. apply hoare_ret. auto.
    - intros x e. destruct (body_code e =? 8002);
        [apply hoare_ret|apply hoare_raise]; auto. }
  intros [auth_response|]; [|apply hoare_ret; tauto].
  destruct (Dict.mem String.eqb "ServerProof" auth_response) eqn:G;
    [|apply hoare_ret; tauto].
  cbn [negb].
  eapply hoare_bind with
    (R := fun _ st => consistent st /\ scripted auth_response st).
  { intros st r st' HP Hrun.
    pose proof (preserves_item_decoded
                  (fun st => consistent st /\ scripted auth_response st)
                  auth_response "ServerProof" st r st' HP Hrun) as H.
    destruct r; [exact H|apply H|apply H]. }
  intros server_proof.
  destruct (negb (verify_session (srp w) password modulus salt
                    server_challenge version server_proof));
    [apply hoare_raise; tauto|].
  eapply hoare_consequence with
    (P' := fun st => reply_complete auth_response /\ consistent st)
    (Q' := fun _ => consistent) (E' := consistent); auto.
  2:{ intros st [Hs Hsc]. split; [|exact Hs].
      eapply scripted_complete; [apply Hs|exact Hsc]. }
  apply hoare_assume. intros Hc.
  apply store_authentication_consistent; [exact Hc|exact G].
Qed.

Lemma setstate_consistent data st :
  snapshot_invariant data -> consistent st ->
  consistent (snd (__setstate__ data st)).
Proof.
  destruct st as [s w]. intros Hd [Hr _].
  rewrite Persistence.setstate_raises. split; [exact Hr|exact Hd].
Qed.

Lemma run_consistent o st :
  consistent st -> permitted o st -> consistent (run o st).
Proof.
  intros Hc Hp.
  destruct o as [username password ncc|twofa ncc|observed ncc|ncc|data];
    simpl in *.
  - destruct (async_authenticate username password ncc st) as [r st'] eqn:E.
    pose proof (async_authenticate_consistent _ _ _ _ _ _ Hc E) as H.
    now destruct r.
  - destruct (async_provide_2fa twofa ncc st) as [r st'] eqn:E.
    pose proof (async_provide_2fa_consistent _ _ _ _ _
                  (consistent_signed_in _ Hc Hp) E) as H.
    now destruct r.
  - destruct (async_refresh observed ncc st) as [r st'] eqn:E.
    pose proof (async_refresh_consistent _ _ _ _ _
                  (consistent_signed_in _ Hc Hp) E) as H.
    now destruct r.
  - destruct (async_logout ncc st) as [r st'] eqn:E.
    pose proof (async_logout_consistent _ _ _ _ Hc E) as H.
    now destruct r.
  - now apply setstate_consistent.
Qed.

(** A run of permitted operations keeps the state consistent. *)
Lemma permitted_runs_consistent ops : forall st,
  consistent st -> all_permitted ops st -> consistent (run_all ops st).
Proof.
  induction ops as [|o ops IH]; intros st Hc Hp; [exact Hc|].
  destruct Hp as [Ho Hp]. simpl. apply IH; [|exact Hp].
  now apply run_consistent.
Qed.

Lemma run_all_app ops1 ops2 st :
  run_all (ops1 ++ ops2) st = run_all ops2 (run_all ops1 st).
Proof. unfold run_all. apply fold_left_app. Qed.

Lemma all_permitted_app ops1 : forall ops2 st,
  all_permitted (ops1 ++ ops2) st
  <-> all_permitted ops1 st /\ all_permitted ops2 (run_all ops1 st).
Proof.
  induction ops1 as [|o ops1 IH]; intros ops2 st; simpl; [tauto|].
  rewrite IH. unfold run_all. simpl. tauto.
Qed.

End Credentials.

(** * The properties at concrete inputs *)

Module RegistryExamples.
Import Loader LoaderFacts LoaderOrder.
Import Examples.Registry.


(** The same type with [z] excluded and with [a] forced: the excluded
    name loses its priority and goes last, the forced name is the only
    one with a priority. *)
Lemma overrides_change_the_priorities :
  (exists l L',
     get_all shuffled (Some "keyring=-z") "keyring" init = (Return l, L')
     /\ map class_name l = ["b"; "a"; "c"; "z"]
     /\ map priority l = [Some 5; Some 5; None; None])
  /\ (exists l L',
        get_all shuffled (Some "keyring=a") "keyring" init = (Return l, L')
        /\ map class_name l = ["a"; "b"; "c"; "z"]
        /\ map priority l = [Some 5; None; None; None]).
Proof.
  split; eexists _, _; (split; [vm_compute; reflexivity|split; reflexivity]).
Qed.

(** C2, at the override [transport=-A]: the name A is excluded, and
    yet it is in the list that [get_all] returns and [get] with the
    name A returns the class. *)
Lemma excluded_name_is_still_listed_and_found :
  excluded exclude_A "transport" "A"
  /\ exists l L',
       get_all installed exclude_A "transport" init = (Return l, L')
       /\ In "A" (map class_name l)
       /\ get installed exclude_A "transport" (Some "A") None init
          = (Return A, L').
Proof.
  split; [left; reflexivity|].
  eexists _, _. split; [vm_compute; reflexivity|].
  split; [simpl; tauto|reflexivity].
Qed.

(** A name that is both forced and excluded keeps its priority: the
    exclusion is not looked at when one name is forced. *)
Lemma forced_and_excluded_name_keeps_priority :
  exists L',
    get_all installed (Some "transport=A transport=-A") "transport" init
    = (Return [ {| priority := Some 10; class_name := "A"; cls := A |};
                {| priority := None; class_name := "B"; cls := B |};
                {| priority := None; class_name := "C"; cls := C |} ], L').
Proof. eexists. vm_compute. reflexivity. Qed.

(** The override [transport=-A] again. *)
Lemma excluded_name_is_listed_without_priority_witness :
  exists l L',
    get_all installed exclude_A "transport" init = (Return l, L')
    /\ In {| priority := None; class_name := "A"; cls := A |} l
    /\ (forall e, In e l -> class_name e = "A" -> priority e = None)
    /\ get installed exclude_A "transport" (Some "A") None init
       = (Return A, L').
Proof.
  eexists _, _. split; [vm_compute; reflexivity|].
  eapply (excluded_name_is_listed_without_priority
            installed exclude_A "transport" "A" None init).
  - apply wf_init.
  - left. reflexivity.
  - intros [H|[]]. discriminate H.
  - vm_compute. reflexivity.
  - reflexivity.
Defined.

End RegistryExamples.

Module CoordinatorExamples.
Import Session Triples Credentials.
Import Examples.Coordinator.

(** A second factor on a coordinator that never logged in. *)
Lemma second_factor_on_fresh_coordinator_breaks_invariant :
  ~ credentials_invariant
      (fst (run_all [Provide2FA "123456" false]
              (fresh, world [Return [("Code", VInt 1000);
                                     ("Scopes", VList ["self"])]]))).
Proof.
  intros [H _].
  assert (U : UID (fst (run_all [Provide2FA "123456" false]
              (fresh, world [Return [("Code", VInt 1000);
                                     ("Scopes", VList ["self"])]]))) = VNone)
    by (vm_compute; reflexivity).
  destruct (H U) as (_ & _ & S). vm_compute in S. discriminate S.
Qed.

(** And by the restore of a snapshot that holds a UID alone. *)
Lemma partial_snapshot_breaks_invariant :
  ~ credentials_invariant
      (fst (run_all [Restore [("UID", VStr "uid")]] (fresh, world []))).
Proof.
  intros [_ H].
  assert (E : UID (fst (run_all [Restore [("UID", VStr "uid")]]
                          (fresh, world []))) = VNone)
    by (apply H; vm_compute; repeat split).
  vm_compute in E. discriminate E.
Qed.

(** A login, a refresh and a logout, with their four requests. *)
Lemma login_answers_complete : replies_complete (world login_answers).
Proof.
  intros n reply H.
  destruct n as [|[|[|[|n]]]]; simpl in H;
    try (destruct n; discriminate H);
    inversion H; subst; clear H;
    (split;
     [intros k Hk; simpl in Hk;
      repeat (destruct Hk as [<-|Hk]; [simpl; discriminate|]); contradiction
     |try discriminate;
      intros _ k Hk; simpl in Hk;
      repeat (destruct Hk as [<-|Hk]; [reflexivity|]); contradiction]).
Qed.

End CoordinatorExamples.

(** * Further properties of the loader *)

Module Selection.
Import Loader LoaderFacts LoaderOrder Plugins.

(** *** What [get] selects *)

Lemma get_loop_auto_some vp c : forall l,
  get_loop l None vp = Some c ->
  exists l1 e l2,
    l = l1 ++ e :: l2 /\ cls e = c /\ selectable vp e = true
    /\ Forall (fun x => selectable vp x = false) l1.
Proof.
  induction l as [|x l IH]; simpl; [discriminate|].
  unfold selectable, has_priority in *.
  destruct (priority x) as [p|] eqn:Hp.
  - destruct (entry_is_valid (cls x) vp) eqn:Hv.
    + intros H. inversion H; subst.
      exists [], x, l. unfold has_priority. rewrite Hp, Hv. auto.
    + intros H. destruct (IH H) as (l1 & e & l2 & -> & Hc & Hs & Hf).
      exists (x :: l1), e, l2. repeat split; auto.
      constructor; [|assumption]. now rewrite Hp, Hv.
  - intros H. destruct (IH H) as (l1 & e & l2 & -> & Hc & Hs & Hf).
    exists (x :: l1), e, l2. repeat split; auto.
    constructor; [|assumption]. now rewrite Hp.
Qed.

Lemma get_loop_auto_none vp : forall l,
  get_loop l None vp = None <-> Forall (fun x => selectable vp x = false) l.
Proof.
  induction l as [|x l IH]; simpl; [split; auto|].
  unfold selectable, has_priority in *.
  destruct (priority x) as [p|] eqn:Hp; simpl.
  - destruct (entry_is_valid (cls x) vp) eqn:Hv.
    + split; [discriminate|]. intros H. inversion H; subst.
      rewrite Hp, Hv in *. discriminate.
    + rewrite IH. split; intros H.
      * constructor; [now rewrite Hp, Hv|assumption].
      * now inversion H.
  - rewrite IH. split; intros H.
    + constructor; [now rewrite Hp|assumption].
    + now inversion H.
Qed.




Lemma get_unfold md environ type_name wanted vp L l L' :
  get_all md environ type_name L = (Return l, L') ->
  get md environ type_name wanted vp L
  = match get_loop l wanted vp with
    | Some c => (Return c, L')
    | None =>
        (Raise (RuntimeError
                  ("Loader: couldn't find an acceptable implementation for "
                   ++ type_name ++ ".")),
         L')
    end.
Proof. intros H. unfold get. now rewrite H. Qed.




(** X2: when [get_all] returns, [get] with no class name raises
    [RuntimeError] exactly when no entry of the list both has a
    priority and passes its validation. *)
Theorem get_raises_iff_nothing_selectable md environ type_name vp L l L' :
  get_all md environ type_name L = (Return l, L') ->
  (exists msg, get md environ type_name None vp L = (Raise (RuntimeError msg), L'))
  <-> Forall (fun e => selectable vp e = false) l.
Proof.
  intros Hall. rewrite (get_unfold _ _ _ _ _ _ _ _ Hall).
  rewrite <- get_loop_auto_none.
  destruct (get_loop l None vp) as [c|]; split.
  - intros [msg H]. discriminate.
  - discriminate.
  - reflexivity.
  - intros _. eexists. reflexivity.
Qed.

(** With A and B excluded nothing is left to select. *)
Lemma get_raises_iff_nothing_selectable_witness :
  exists msg,
    get Examples.Registry.installed (Some "transport=-A transport=-B")
      "transport" None None init
    = (Raise (RuntimeError msg),
       snd (get_all Examples.Registry.installed
              (Some "transport=-A transport=-B") "transport" init)).
Proof.
  eapply (get_raises_iff_nothing_selectable Examples.Registry.installed
            (Some "transport=-A transport=-B") "transport" None init).
  - vm_compute. reflexivity.
  - repeat constructor.
Defined.

(** *** [get] by name *)

Lemma get_loop_by_name_none name vp : forall l,
  (forall e, In e l -> class_name e <> name) ->
  get_loop l (Some name) vp = None.
Proof.
  induction l as [|x l IH]; simpl; intros H; [reflexivity|].
  destruct (String.eqb_spec (class_name x) name) as [E|N].
  - exfalso. apply (H x); auto.
  - apply IH. intros e He. apply H. auto.
Qed.

(** X3: when [get_all] returns, [get] with a class name returns the
    class that is known under that name for the type, whatever its
    priority, its validation and the exclusions are, and raises
    [RuntimeError] when the type has no such name. *)
Theorem get_by_name md environ type_name name vp L l L' :
  wf L ->
  get_all md environ type_name L = (Return l, L') ->
  match Dict.get String.eqb name (implementations type_name L') with
  | Some c => get md environ type_name (Some name) vp L = (Return c, L')
  | None =>
      exists msg,
        get md environ type_name (Some name) vp L = (Raise (RuntimeError msg), L')
  end.
Proof.
  intros HL Hall.
  assert (Hwf : Dict.wf (implementations type_name L')).
  { apply wf_implementations. eapply wf_get_all; eassumption. }
  rewrite (get_unfold _ _ _ _ _ _ _ _ Hall).
  destruct (get_all_returns _ _ _ _ _ _ Hall) as [acc [_ ->]].
  set (known := implementations type_name L') in *.
  assert (Hperm : forall e, In e (order_components acc known) ->
                    In (entry_of e) known).
  { intros e He.
    eapply Permutation_in; [apply entries_acceptable_classes|].
    apply in_map.
    eapply Permutation_in; [apply order_components_perm|exact He]. }
  destruct (Dict.get String.eqb name known) as [c|] eqn:G.
  - rewrite (get_loop_named name c vp); [reflexivity| |].
    + apply (DictFacts.get_In _ string_eqb_spec) in G.
      assert (Hin : In (name, c) (map entry_of (order_components acc known))).
      { eapply Permutation_in; [|exact G].
        symmetry. rewrite (order_components_perm acc known).
        apply entries_acceptable_classes. }
      apply in_map_iff in Hin as [e [Ee He]].
      exists e. split; [exact He|]. unfold entry_of in Ee. congruence.
    + intros e He En. apply Hperm in He. unfold entry_of in He.
      rewrite En in He.
      apply (DictFacts.In_get _ string_eqb_spec) in He; [|assumption].
      congruence.
  - rewrite get_loop_by_name_none; [eexists; reflexivity|].
    intros e He En. apply Hperm in He. unfold entry_of in He. rewrite En in He.
    apply (DictFacts.In_get _ string_eqb_spec) in He; [|assumption].
    congruence.
Qed.

(** C has no priority and is found by its name; D is not known. *)
Lemma get_by_name_witness :
  fst (get Examples.Registry.installed None "transport" (Some "C") None init)
  = Return Examples.Registry.C
  /\ exists msg,
       fst (get Examples.Registry.installed None "transport" (Some "D") None init)
       = Raise (RuntimeError msg).
Proof.
  pose proof (get_by_name Examples.Registry.installed None "transport" "C" None
                init _ _ wf_init ltac:(vm_compute; reflexivity)) as HC.
  pose proof (get_by_name Examples.Registry.installed None "transport" "D" None
                init _ _ wf_init ltac:(vm_compute; reflexivity)) as HD.
  split.
  - vm_compute in HC. vm_compute. congruence.
  - simpl in HD. destruct HD as [msg HD]. exists msg. now rewrite HD.
Defined.

End Selection.

(** ** Discovery and the two dictionaries *)

Module DictMore.
Section DictMore.
Context {K V : Type} (eqb : K -> K -> bool).
Hypothesis eqb_spec : forall a b, reflect (a = b) (eqb a b).

Lemma get_set_other k k' v (d : list (K * V)) :
  k <> k' -> Dict.get eqb k (Dict.set eqb k' v d) = Dict.get eqb k d.
Proof.
  intros N. induction d as [|[k0 v0] d IH]; simpl.
  - destruct (eqb_spec k k'); congruence.
  - destruct (eqb_spec k' k0) as [->|N0]; simpl.
    + destruct (eqb_spec k k0); congruence.
    + destruct (eqb_spec k k0); congruence.
Qed.

Lemma get_del_other k k' (d : list (K * V)) :
  k <> k' -> Dict.get eqb k (Dict.del eqb k' d) = Dict.get eqb k d.
Proof.
  intros N. induction d as [|[k0 v0] d IH]; simpl; [reflexivity|].
  destruct (eqb_spec k' k0) as [->|N0]; simpl.
  - destruct (eqb_spec k k0); congruence.
  - destruct (eqb_spec k k0); congruence.
Qed.

Lemma mem_set_same k v (d : list (K * V)) :
  Dict.mem eqb k (Dict.set eqb k v d) = true.
Proof. unfold Dict.mem. now rewrite (DictFacts.get_set_same eqb eqb_spec). Qed.

Lemma set_set k v v' (d : list (K * V)) :
  Dict.set eqb k v (Dict.set eqb k v' d) = Dict.set eqb k v d.
Proof.
  induction d as [|[k0 v0] d IH]; simpl.
  - destruct (eqb_spec k k); congruence.
  - destruct (eqb_spec k k0) as [->|N]; simpl.
    + destruct (eqb_spec k0 k0); congruence.
    + destruct (eqb_spec k k0); congruence.
Qed.

Lemma del_set_new k v (d : list (K * V)) :
  Dict.mem eqb k d = false -> Dict.del eqb k (Dict.set eqb k v d) = d.
Proof.
  unfold Dict.mem.
  induction d as [|[k0 v0] d IH]; simpl.
  - destruct (eqb_spec k k); congruence.
  - destruct (eqb_spec k k0) as [->|N]; [discriminate|]. simpl.
    destruct (eqb_spec k k0); [congruence|]. intros H. now rewrite IH.
Qed.

Lemma mem_false k (d : list (K * V)) :
  ~ In k (Dict.keys d) -> Dict.mem eqb k d = false.
Proof.
  intros H. unfold Dict.mem. destruct (Dict.get eqb k d) as [v|] eqn:G; [|reflexivity].
  exfalso. apply H. apply (DictFacts.get_In eqb eqb_spec) in G.
  unfold Dict.keys. change k with (fst (k, v)). now apply in_map.
Qed.

Lemma mem_true k (d : list (K * V)) :
  In k (Dict.keys d) -> Dict.mem eqb k d = true.
Proof.
  intros H. unfold Dict.mem. destruct (Dict.get eqb k d) as [v|] eqn:G; [reflexivity|].
  exfalso. now apply (DictFacts.get_None eqb eqb_spec) in G.
Qed.

End DictMore.
End DictMore.

Module Discovery.
Import Loader LoaderFacts LoaderOrder Plugins.

Lemma nat_eqb_spec : forall a b : nat, reflect (a = b) (Nat.eqb a b).
Proof. intros a b. apply Nat.eqb_spec. Qed.

(** The cache after the classes of [implementations] are entered. *)
Lemma set_all_cache type_name implementations L :
  name_resolution_cache (set_all type_name implementations L)
  = fold_left (fun cache kv => cache_set (snd kv) (type_name, fst kv) cache)
      implementations (name_resolution_cache L).
Proof. reflexivity. Qed.

Lemma loadable_app l1 l2 : loadable (l1 ++ l2) = loadable l1 ++ loadable l2.
Proof. unfold loadable. apply flat_map_app. Qed.

Lemma loadable_names eps n :
  In n (map fst (loadable eps)) -> In n (map ep_name eps).
Proof.
  induction eps as [|ep eps IH]; simpl; [tauto|].
  unfold loadable in *. simpl. rewrite map_app, in_app_iff.
  intros [H|H]; [|auto].
  destruct (ep_load ep); simpl in H; intuition.
Qed.

(** A run of the loop over entry points with distinct names, none of
    which fails to load with another error than [AttributeError]. *)
Lemma discover_distinct type_name : forall eps found L,
  Forall (fun e => ep_load e <> LoadOtherError) eps ->
  NoDup (map ep_name eps) ->
  (forall n, In n (Dict.keys found) -> ~ In n (map ep_name eps)) ->
  discover type_name eps found L
  = (Return tt,
     {| known_types :=
          Dict.set String.eqb type_name (found ++ loadable eps) (known_types L);
        name_resolution_cache :=
          fold_left (fun cache kv => cache_set (snd kv) (type_name, fst kv) cache)
            (loadable eps) (name_resolution_cache L) |}).
Proof.
  induction eps as [|ep eps IH]; intros found L Hload Hnd Hfresh.
  - simpl. now rewrite app_nil_r.
  - simpl in Hnd. inversion Hnd as [|? ? Hn Hnd']; subst.
    inversion Hload as [|? ? Hep Hload']; subst.
    cbn [discover].
    rewrite (DictMore.mem_false _ string_eqb_spec)
      by (intros H; apply (Hfresh _ H); now left).
    unfold loadable. cbn [flat_map]. fold (loadable eps).
    destruct (ep_load ep) as [c| |]; [| |congruence].
    + assert (Hnew : Dict.set String.eqb (ep_name ep) c found
                     = found ++ [(ep_name ep, c)]).
      { apply (DictFacts.keys_set_new _ string_eqb_spec).
        apply (DictMore.mem_false _ string_eqb_spec).
        intros H; apply (Hfresh _ H); now left. }
      rewrite Hnew.
      rewrite IH; [|assumption|assumption|].
      * simpl. now rewrite <- app_assoc.
      * intros n Hin Hn'.
        unfold Dict.keys in Hin. rewrite map_app in Hin.
        apply in_app_or in Hin as [Hin|[<-|[]]].
        -- apply (Hfresh _ Hin). now right.
        -- simpl in Hn. contradiction.
    + simpl. apply IH; [assumption|assumption|].
      intros n Hin Hn'. apply (Hfresh _ Hin). now right.
Qed.

(** The loop that meets a name it has registered. *)
Lemma discover_repeated type_name l1 ep l2 L :
  Forall (fun e => ep_load e <> LoadOtherError) l1 ->
  NoDup (map ep_name l1) ->
  In (ep_name ep) (map fst (loadable l1)) ->
  exists msg,
    discover type_name (l1 ++ ep :: l2) [] L
    = (Raise (RuntimeError msg),
       {| known_types := Dict.del String.eqb type_name (known_types L);
          name_resolution_cache :=
            fold_left (fun cache kv => cache_set (snd kv) (type_name, fst kv) cache)
              (loadable l1) (name_resolution_cache L) |}).
Proof.
  intros Hload Hnd Hin.
  assert (G : forall l found L0,
    Forall (fun e => ep_load e <> LoadOtherError) l ->
    NoDup (map ep_name l) ->
    (forall n, In n (Dict.keys found) -> ~ In n (map ep_name l)) ->
    In (ep_name ep) (Dict.keys found ++ map fst (loadable l)) ->
    exists msg,
      discover type_name (l ++ ep :: l2) found L0
      = (Raise (RuntimeError msg),
         {| known_types := Dict.del String.eqb type_name (known_types L0);
            name_resolution_cache :=
              fold_left (fun cache kv => cache_set (snd kv) (type_name, fst kv) cache)
                (loadable l) (name_resolution_cache L0) |})).
  { induction l as [|x l IH]; intros found L0 Hl Hn Hfresh Hep.
    - simpl in Hep. rewrite app_nil_r in Hep. cbn [app discover].
      rewrite (DictMore.mem_true _ string_eqb_spec) by assumption.
      eexists. reflexivity.
    - simpl in Hn. inversion Hn as [|? ? Hx Hn']; subst.
      inversion Hl as [|? ? Hxl Hl']; subst.
      cbn [app discover].
      rewrite (DictMore.mem_false _ string_eqb_spec)
        by (intros H; apply (Hfresh _ H); now left).
      unfold loadable in *. cbn [flat_map] in *. fold (loadable l) in *.
      destruct (ep_load x) as [c| |]; [| |congruence].
      + assert (Hnew : Dict.set String.eqb (ep_name x) c found
                       = found ++ [(ep_name x, c)]).
        { apply (DictFacts.keys_set_new _ string_eqb_spec).
          apply (DictMore.mem_false _ string_eqb_spec).
          intros H; apply (Hfresh _ H); now left. }
        rewrite Hnew.
        destruct (IH (found ++ [(ep_name x, c)])
                    {| known_types := known_types L0;
                       name_resolution_cache :=
                         cache_set c (type_name, ep_name x)
                           (name_resolution_cache L0) |}) as [msg E];
          [assumption|assumption| | |].
        * intros n Hin' Hn''.
          unfold Dict.keys in Hin'. rewrite map_app in Hin'.
          apply in_app_or in Hin' as [Hin'|[<-|[]]].
          -- apply (Hfresh _ Hin'). now right.
          -- contradiction.
        * unfold Dict.keys in *. rewrite map_app. simpl in *.
          rewrite <- app_assoc. exact Hep.
        * exists msg. rewrite E. reflexivity.
      + simpl in Hep.
        destruct (IH found L0) as [msg E]; [assumption|assumption| |assumption|].
        * intros n Hin' Hn''. apply (Hfresh _ Hin'). now right.
        * exists msg. exact E. }
  apply G; auto.
Qed.

Lemma discover_known type_name : forall eps found L L',
  discover type_name eps found L = (Return tt, L') ->
  Dict.mem String.eqb type_name (known_types L') = true.
Proof.
  induction eps as [|ep eps IH]; intros found L L'; cbn [discover].
  - intros H. inversion H; subst. simpl.
    apply (DictMore.mem_set_same _ string_eqb_spec).
  - destruct (Dict.mem String.eqb (ep_name ep) found); [discriminate|].
    destruct (ep_load ep); [apply IH|apply IH|discriminate].
Qed.

Lemma ensure_known_known md type_name L L' :
  ensure_known md type_name L = (Return tt, L') ->
  Dict.mem String.eqb type_name (known_types L') = true.
Proof.
  unfold ensure_known.
  destruct (Dict.mem String.eqb type_name (known_types L)) eqn:Hm.
  - intros H. inversion H; subst. exact Hm.
  - apply discover_known.
Qed.

Lemma discover_elsewhere type_name other : forall eps found L,
  other <> type_name ->
  Dict.get String.eqb other (known_types (snd (discover type_name eps found L)))
  = Dict.get String.eqb other (known_types L).
Proof.
  induction eps as [|ep eps IH]; intros found L N; cbn [discover].
  - simpl. now apply (DictMore.get_set_other _ string_eqb_spec).
  - destruct (Dict.mem String.eqb (ep_name ep) found).
    + simpl. now apply (DictMore.get_del_other _ string_eqb_spec).
    + destruct (ep_load ep).
      * rewrite IH by assumption. reflexivity.
      * now apply IH.
      * simpl. now apply (DictMore.get_set_other _ string_eqb_spec).
Qed.

Lemma get_all_state md environ type_name L :
  snd (get_all md environ type_name L) = snd (ensure_known md type_name L).
Proof.
  unfold get_all.
  destruct (ensure_known md type_name L) as [[u|e] L']; [|reflexivity].
  destruct (names_asked _ _ _); reflexivity.
Qed.

Lemma ensure_known_unfold md type_name L :
  Dict.mem String.eqb type_name (known_types L) = false ->
  ensure_known md type_name L
  = discover type_name (entry_points_of md type_name) []
      {| known_types := Dict.set String.eqb type_name [] (known_types L);
         name_resolution_cache := name_resolution_cache L |}.
Proof. intros H. unfold ensure_known. now rewrite H. Qed.

(** X4: a type is discovered once.  After a call of [get_all] that
    returned, a second call under the same overrides returns the same
    list and leaves the loader as it is, whatever the installed
    entry points have become. *)
Theorem get_all_discovers_once md environ type_name L l L' :
  get_all md environ type_name L = (Return l, L') ->
  forall md', get_all md' environ type_name L' = (Return l, L').
Proof.
  intros H md'.
  destruct (get_all_returns _ _ _ _ _ _ H) as [acc [Hacc ->]].
  assert (Hk : Dict.mem String.eqb type_name (known_types L') = true).
  { unfold get_all in H.
    destruct (ensure_known md type_name L) as [[[]|e] L1] eqn:E; [|discriminate].
    apply ensure_known_known in E.
    destruct (names_asked _ _ _); inversion H; subst; exact E. }
  unfold get_all, ensure_known. rewrite Hk, Hacc. reflexivity.
Qed.

(** The entry points that are installed after the first call are not
    seen by the second. *)
Lemma get_all_discovers_once_witness :
  get_all partly_installed None "transport"
    (snd (get_all Examples.Registry.installed None "transport" init))
  = get_all Examples.Registry.installed None "transport" init.
Proof.
  rewrite (get_all_discovers_once Examples.Registry.installed None "transport"
             init
             (order_components ["A"; "B"; "C"]
                (implementations "transport"
                   (snd (get_all Examples.Registry.installed None "transport" init))))
             (snd (get_all Examples.Registry.installed None "transport" init))).
  - vm_compute. reflexivity.
  - vm_compute. reflexivity.
Defined.

(** X5: a name that is met a second time aborts the discovery.  When
    the type is not known yet and the entry points of its group reach,
    without a name repeated before and without a failing load, an
    entry point whose name was registered, [get_all] raises
    [RuntimeError]; the type is as unknown as before, and the name
    cache has kept the classes that were registered on the way. *)
Theorem repeated_name_aborts_discovery md environ type_name L l1 ep l2 :
  Dict.mem String.eqb type_name (known_types L) = false ->
  entry_points_of md type_name = l1 ++ ep :: l2 ->
  Forall (fun e => ep_load e <> LoadOtherError) l1 ->
  NoDup (map ep_name l1) ->
  In (ep_name ep) (map fst (loadable l1)) ->
  exists msg,
    get_all md environ type_name L
    = (Raise (RuntimeError msg),
       {| known_types := known_types L;
          name_resolution_cache :=
            name_resolution_cache (set_all type_name (loadable l1) L) |}).
Proof.
  intros Hm Heps Hload Hnd Hin.
  unfold get_all. rewrite (ensure_known_unfold _ _ _ Hm), Heps.
  destruct (discover_repeated type_name l1 ep l2
              {| known_types := Dict.set String.eqb type_name [] (known_types L);
                 name_resolution_cache := name_resolution_cache L |}
              Hload Hnd Hin) as [msg E].
  rewrite E. exists msg. simpl.
  now rewrite (DictMore.del_set_new _ string_eqb_spec).
Qed.

Lemma repeated_name_aborts_discovery_witness :
  exists msg,
    get_all twice None "keyring" init
    = (Raise (RuntimeError msg),
       {| known_types := [];
          name_resolution_cache := [(1%nat, ("keyring", "json"))] |}).
Proof.
  apply (repeated_name_aborts_discovery twice None "keyring" init
           [ {| ep_name := "json"; ep_load := Loaded Examples.Registry.A |} ]
           {| ep_name := "json"; ep_load := Loaded Examples.Registry.B |} []).
  - reflexivity.
  - reflexivity.
  - repeat constructor. discriminate.
  - repeat constructor. simpl. tauto.
  - simpl. now left.
Defined.

(** X6: the discovery of a type that is not known yet, over entry
    points with distinct names whose load returns a class or raises
    [AttributeError], has the effect of [set_all] with the entry
    points that load, in their order: the ones that raise
    [AttributeError] are left out and do not stop the others. *)
Theorem discovery_registers_what_loads md environ type_name L :
  Dict.mem String.eqb type_name (known_types L) = false ->
  NoDup (map ep_name (entry_points_of md type_name)) ->
  Forall (fun e => ep_load e <> LoadOtherError) (entry_points_of md type_name) ->
  snd (get_all md environ type_name L)
  = set_all type_name (loadable (entry_points_of md type_name)) L.
Proof.
  intros Hm Hnd Hload.
  rewrite get_all_state, (ensure_known_unfold _ _ _ Hm).
  rewrite discover_distinct; [|assumption|assumption|intros n []].
  simpl. unfold set_all.
  now rewrite (DictMore.set_set _ string_eqb_spec).
Qed.

Lemma discovery_registers_what_loads_witness :
  implementations "keyring" (snd (get_all partly_installed None "keyring" init))
  = [("json", Examples.Registry.A); ("kwallet", Examples.Registry.B)].
Proof.
  rewrite (discovery_registers_what_loads partly_installed None "keyring" init).
  - reflexivity.
  - reflexivity.
  - repeat constructor; simpl; intuition discriminate.
  - repeat constructor; discriminate.
Defined.

(** X7: [get_all] touches the dictionary of no other type. *)
Theorem get_all_leaves_other_types md environ type_name other L :
  other <> type_name ->
  implementations other (snd (get_all md environ type_name L))
  = implementations other L.
Proof.
  intros N. rewrite get_all_state. unfold implementations, ensure_known.
  destruct (Dict.mem String.eqb type_name (known_types L)); [reflexivity|].
  rewrite discover_elsewhere by assumption. simpl.
  now rewrite (DictMore.get_set_other _ string_eqb_spec).
Qed.

Lemma get_all_leaves_other_types_witness :
  implementations "transport"
    (snd (get_all twice None "keyring"
            (set_all "transport" validated init)))
  = validated.
Proof.
  rewrite (get_all_leaves_other_types twice None "keyring" "transport").
  - reflexivity.
  - discriminate.
Defined.

End Discovery.

(** ** Forced names *)

Module Forcing.
Import Loader LoaderFacts LoaderOrder Plugins Selection Discovery.

Lemma force_class_set_iff overrides f :
  In f (force_class_set overrides)
  <-> In f overrides /\ PyStr.startswith f "-" = false.
Proof.
  unfold force_class_set. rewrite nodup_In, filter_In, negb_true_iff. tauto.
Qed.

Lemma force_class_set_NoDup overrides : NoDup (force_class_set overrides).
Proof. apply NoDup_nodup. Qed.

Lemma force_class_set_single environ type_name f :
  only_forced environ type_name f ->
  force_class_set (overrides_for environ type_name) = [f].
Proof.
  intros (Hd & Hf & Hall).
  assert (Hin : In f (force_class_set (overrides_for environ type_name))).
  { apply force_class_set_iff. split; [|exact Hd]. now apply overrides_for_In. }
  assert (Hother : forall g,
            In g (force_class_set (overrides_for environ type_name)) -> g = f).
  { intros g Hg. apply force_class_set_iff in Hg as [Hg Hgd].
    apply overrides_for_In in Hg. destruct (Hall g Hg); congruence. }
  pose proof (force_class_set_NoDup (overrides_for environ type_name)) as Hnd.
  destruct (force_class_set (overrides_for environ type_name)) as [|a [|b rest]].
  - contradiction.
  - f_equal. apply Hother. now left.
  - exfalso. inversion Hnd as [|? ? Hab _]; subst. apply Hab. left.
    rewrite (Hother a), (Hother b); simpl; auto.
Qed.

Lemma get_all_known md environ type_name L :
  Dict.mem String.eqb type_name (known_types L) = true ->
  get_all md environ type_name L
  = match names_asked type_name (overrides_for environ type_name)
            (implementations type_name L) with
    | Raise e => (Raise e, L)
    | Return acceptable =>
        (Return (order_components acceptable (implementations type_name L)), L)
    end.
Proof. intros H. unfold get_all, ensure_known. now rewrite H. Qed.

(** X8: two different names forced for one type make [get_all] fail,
    whatever is installed; when the type is known already the failure
    is a [RuntimeError] and the loader is left as it is. *)
Theorem two_forced_names_raise md environ type_name f g L :
  forced environ type_name f -> forced environ type_name g ->
  PyStr.startswith f "-" = false -> PyStr.startswith g "-" = false ->
  f <> g ->
  (forall l L', get_all md environ type_name L <> (Return l, L'))
  /\ (Dict.mem String.eqb type_name (known_types L) = true ->
      exists msg, get_all md environ type_name L = (Raise (RuntimeError msg), L)).
Proof.
  intros Hf Hg Hfd Hgd N.
  assert (Hacc : forall known, exists msg,
            names_asked type_name (overrides_for environ type_name) known
            = Raise (RuntimeError msg)).
  { intros known. unfold names_asked, acceptable_entry_points.
    assert (If : In f (force_class_set (overrides_for environ type_name)))
      by (apply force_class_set_iff; split; [now apply overrides_for_In|assumption]).
    assert (Ig : In g (force_class_set (overrides_for environ type_name)))
      by (apply force_class_set_iff; split; [now apply overrides_for_In|assumption]).
    destruct (force_class_set (overrides_for environ type_name)) as [|a [|b rest]].
    - contradiction.
    - exfalso. destruct If as [<-|[]]. destruct Ig as [<-|[]]. now apply N.
    - eexists. reflexivity. }
  split.
  - intros l L' H. unfold get_all in H.
    destruct (ensure_known md type_name L) as [[u|e] L1]; [|discriminate].
    destruct (Hacc (implementations type_name L1)) as [msg E].
    rewrite E in H. discriminate.
  - intros Hk. rewrite (get_all_known _ _ _ _ Hk).
    destruct (Hacc (implementations type_name L)) as [msg E].
    rewrite E. eauto.
Qed.

Lemma two_forced_names_raise_witness :
  exists msg,
    get_all [] (Some "keyring=A keyring=asking") "keyring"
      (set_all "keyring" validated init)
    = (Raise (RuntimeError msg), set_all "keyring" validated init).
Proof.
  apply (two_forced_names_raise [] (Some "keyring=A keyring=asking") "keyring"
           "A" "asking" (set_all "keyring" validated init)).
  - vm_compute. tauto.
  - vm_compute. tauto.
  - reflexivity.
  - reflexivity.
  - discriminate.
  - reflexivity.
Defined.

Lemma in_order_components acceptable known e :
  In e (order_components acceptable known)
  <-> In e (acceptable_classes acceptable known).
Proof.
  split; apply Permutation_in;
    [apply order_components_perm|symmetry; apply order_components_perm].
Qed.

Lemma in_acceptable_classes acceptable known e :
  In e (acceptable_classes acceptable known) ->
  has_priority e = true ->
  exists kv, In kv known /\ e = with_own_priority kv
             /\ PyStr.mem (fst kv) acceptable = true.
Proof.
  unfold acceptable_classes. rewrite in_app_iff, !in_map_iff.
  intros [[kv [<- Hkv]]|[kv [<- Hkv]]] Hp.
  - apply filter_In in Hkv as [Hin Hm]. eauto.
  - discriminate.
Qed.

(** X9: when exactly one name is forced for a type that is known and
    has that name, [get] with no class name considers that class
    alone.  It returns it when it has a priority and passes its
    validation and raises [RuntimeError] otherwise, whatever the
    priorities of the other classes and the exclusions are. *)
Theorem forced_name_is_the_only_candidate md environ type_name f c vp L :
  wf L ->
  Dict.mem String.eqb type_name (known_types L) = true ->
  only_forced environ type_name f ->
  Dict.get String.eqb f (implementations type_name L) = Some c ->
  if selectable vp (with_own_priority (f, c))
  then get md environ type_name None vp L = (Return c, L)
  else exists msg,
         get md environ type_name None vp L = (Raise (RuntimeError msg), L).
Proof.
  intros HL Hk Hforced Hget.
  pose proof (wf_implementations type_name L HL) as Hwf.
  set (known := implementations type_name L) in *.
  assert (Hall : get_all md environ type_name L
                 = (Return (order_components [f] known), L)).
  { rewrite (get_all_known _ _ _ _ Hk). fold known.
    unfold names_asked, acceptable_entry_points.
    rewrite (force_class_set_single _ _ _ Hforced).
    unfold Dict.mem. now rewrite Hget. }
  rewrite (get_unfold _ _ _ _ _ _ _ _ Hall).
  assert (Hin : In (with_own_priority (f, c)) (order_components [f] known)).
  { apply in_order_components. unfold acceptable_classes.
    apply in_or_app. left. apply in_map. apply filter_In. split.
    - now apply (DictFacts.get_In _ string_eqb_spec).
    - apply StrFacts.mem_In. now left. }
  assert (Hone : forall e, In e (order_components [f] known) ->
                   selectable vp e = true -> e = with_own_priority (f, c)).
  { intros e He Hs. apply in_order_components in He.
    unfold selectable in Hs. apply andb_true_iff in Hs as [Hp _].
    destruct (in_acceptable_classes _ _ _ He Hp) as ([k v] & Hkv & -> & Hm).
    apply StrFacts.mem_In in Hm as [Hm|[]]. simpl in Hm. subst k.
    apply (DictFacts.In_get _ string_eqb_spec) in Hkv; [|assumption].
    congruence. }
  destruct (get_loop (order_components [f] known) None vp) as [c'|] eqn:G.
  - destruct (get_loop_auto_some _ _ _ G) as (l1 & e & l2 & El & Hc & Hs & _).
    assert (Ee : e = with_own_priority (f, c)).
    { apply Hone; [|exact Hs]. rewrite El. apply in_elt. }
    subst e. rewrite Hs. simpl in Hc. now subst.
  - apply get_loop_auto_none in G. rewrite Forall_forall in G.
    rewrite (G _ Hin). eauto.
Qed.

(** The class that asks for parameters is forced: it is returned when
    parameters are given, although A is not excluded and is valid. *)
Lemma forced_name_is_the_only_candidate_witness :
  get [] (Some "keyring=asking keyring=-asking") "keyring" None (Some [])
    (set_all "keyring" validated init)
  = (Return Asking, set_all "keyring" validated init).
Proof.
  apply (forced_name_is_the_only_candidate []
           (Some "keyring=asking keyring=-asking") "keyring" "asking" Asking
           (Some []) (set_all "keyring" validated init)).
  - apply wf_set_all; [|apply wf_init].
    unfold Dict.wf. simpl.
    repeat (constructor; [simpl; intuition discriminate|]). constructor.
  - reflexivity.
  - unfold only_forced. split; [reflexivity|]. split.
    + vm_compute. tauto.
    + intros g Hg. vm_compute in Hg.
      destruct Hg as [Hg|[Hg|[]]].
      * right. now inversion Hg.
      * left. inversion Hg. reflexivity.
  - reflexivity.
Defined.

(** X10: a forced name that the type does not have.  When exactly
    one name is forced for a type and the type, once it is known, does
    not have it, no branch of lines 191-203 assigns the variable
    [acceptable_entry_points].  Line 205 reads it once for each
    implementation of the type: with at least one implementation
    [get_all] raises [NameError], not the [RuntimeError] of its
    documentation; with none, nothing reads the variable and
    [get_all] returns the empty list. *)
Theorem forced_unknown_name_fails md environ type_name f L L' :
  ensure_known md type_name L = (Return tt, L') ->
  only_forced environ type_name f ->
  Dict.mem String.eqb f (implementations type_name L') = false ->
  get_all md environ type_name L
  = match implementations type_name L' with
    | [] => (Return [], L')
    | _ :: _ => (Raise (NameError "acceptable_entry_points"), L')
    end.
Proof.
  intros Hk Hforced Hf.
  unfold get_all, names_asked, acceptable_entry_points.
  rewrite Hk, (force_class_set_single _ _ _ Hforced), Hf.
  now destruct (implementations type_name L').
Qed.

(** A keyring that is not installed is forced: with three keyrings
    installed the call raises, with none it returns the empty list. *)
Lemma forced_unknown_name_fails_witness :
  get_all [] (Some "keyring=kwallet") "keyring" (set_all "keyring" validated init)
  = (Raise (NameError "acceptable_entry_points"),
     set_all "keyring" validated init)
  /\ get_all [] (Some "keyring=kwallet") "keyring" init
     = (Return [], snd (ensure_known [] "keyring" init)).
Proof.
  assert (Hforced : only_forced (Some "keyring=kwallet") "keyring" "kwallet").
  { unfold only_forced. split; [reflexivity|]. split.
    - vm_compute. tauto.
    - intros g Hg. vm_compute in Hg. destruct Hg as [Hg|[]].
      right. now inversion Hg. }
  split.
  - apply (forced_unknown_name_fails [] (Some "keyring=kwallet") "keyring"
             "kwallet" (set_all "keyring" validated init)
             (set_all "keyring" validated init)).
    + reflexivity.
    + exact Hforced.
    + reflexivity.
  - apply (forced_unknown_name_fails [] (Some "keyring=kwallet") "keyring"
             "kwallet" init (snd (ensure_known [] "keyring" init))).
    + reflexivity.
    + exact Hforced.
    + reflexivity.
Defined.

End Forcing.

(** ** Names of types and of classes *)

Module Names.
Import Loader LoaderFacts LoaderOrder Plugins Discovery.

(** X11: the names of [type_names] are the names [t] for which the
    metadata has a group named [_get_metadata_group_for_typename t]. *)
Theorem type_names_are_the_prefixed_groups md type_name :
  In type_name (type_names md)
  <-> In (_get_metadata_group_for_typename type_name) (Dict.keys md).
Proof.
  unfold type_names, _proton_entry_point_groups,
    _get_metadata_group_for_typename, Dict.keys.
  rewrite !in_map_iff. split.
  - intros [g [E Hg]]. apply filter_In in Hg as [Hin Hp].
    exists g. split; [|exact Hin].
    unfold PyStr.startswith in Hp. apply StrFacts.prefix_drop in Hp.
    now rewrite <- E, <- Hp.
  - intros [g [E Hin]]. exists g. split.
    + rewrite E. apply StrFacts.drop_append.
    + apply filter_In. split; [exact Hin|].
      rewrite E. apply StrFacts.prefix_append.
Qed.

Lemma fold_cache_other type_name c : forall impls cache,
  Forall (fun kv => cls_id (snd kv) <> cls_id c) impls ->
  Dict.get Nat.eqb (cls_id c)
    (fold_left (fun cache kv => cache_set (snd kv) (type_name, fst kv) cache)
       impls cache)
  = Dict.get Nat.eqb (cls_id c) cache.
Proof.
  induction impls as [|kv impls IH]; intros cache H; simpl; [reflexivity|].
  inversion H; subst. rewrite IH by assumption.
  unfold cache_set. apply (DictMore.get_set_other _ nat_eqb_spec). auto.
Qed.

(** X12: after [set_all], [get_name] of a class gives the type and the
    last name under which the class was installed, and it gives what
    it gave before for a class that was not installed. *)
Theorem get_name_after_set_all type_name impls L c :
  match
    find (fun kv => Nat.eqb (cls_id (snd kv)) (cls_id c)) (rev impls)
  with
  | Some kv => get_name c (set_all type_name impls L) = Some (type_name, fst kv)
  | None => get_name c (set_all type_name impls L) = get_name c L
  end.
Proof.
  unfold get_name. rewrite set_all_cache.
  generalize (name_resolution_cache L) as cache.
  induction impls as [|kv impls IH] using rev_ind; intros cache; [reflexivity|].
  rewrite rev_app_distr, fold_left_app. simpl.
  destruct (Nat.eqb_spec (cls_id (snd kv)) (cls_id c)) as [E|N].
  - unfold cache_set. rewrite E.
    apply (DictFacts.get_set_same _ nat_eqb_spec).
  - specialize (IH cache).
    destruct (find _ (rev impls)) as [kv'|];
      unfold cache_set at 1;
      rewrite (DictMore.get_set_other _ nat_eqb_spec) by auto;
      exact IH.
Qed.

(** X13: the classes that a discovery registers can be resolved back:
    after a discovery over entry points with distinct names that load
    distinct classes, [get_name] of each class gives the type and the
    name of its entry point. *)
Theorem get_name_after_discovery md environ type_name L name c :
  Dict.mem String.eqb type_name (known_types L) = false ->
  NoDup (map ep_name (entry_points_of md type_name)) ->
  Forall (fun e => ep_load e <> LoadOtherError) (entry_points_of md type_name) ->
  NoDup (map (fun kv => cls_id (snd kv)) (loadable (entry_points_of md type_name))) ->
  In (name, c) (loadable (entry_points_of md type_name)) ->
  get_name c (snd (get_all md environ type_name L)) = Some (type_name, name).
Proof.
  intros Hm Hnd Hload Hids Hin.
  rewrite (discovery_registers_what_loads _ _ _ _ Hm Hnd Hload).
  set (impls := loadable (entry_points_of md type_name)) in *.
  pose proof (get_name_after_set_all type_name impls L c) as H.
  assert (F : find (fun kv => Nat.eqb (cls_id (snd kv)) (cls_id c)) (rev impls)
              = Some (name, c)).
  { assert (Hids' : NoDup (map (fun kv => cls_id (snd kv)) (rev impls))).
    { rewrite map_rev. apply NoDup_rev. exact Hids. }
    apply in_rev in Hin. revert Hids' Hin.
    generalize (rev impls) as l. induction l as [|kv l IH]; simpl; [tauto|].
    intros Hn [->|Hin].
    - simpl. now rewrite Nat.eqb_refl.
    - inversion Hn as [|? ? Hk Hn']; subst.
      destruct (Nat.eqb_spec (cls_id (snd kv)) (cls_id c)) as [E|N]; [|auto].
      exfalso. apply Hk. rewrite E.
      change (cls_id c) with ((fun kv => cls_id (snd kv)) (name, c)).
      now apply in_map. }
  now rewrite F in H.
Qed.

Lemma get_name_after_discovery_witness :
  get_name Examples.Registry.B (snd (get_all partly_installed None "keyring" init))
  = Some ("keyring", "kwallet").
Proof.
  apply (get_name_after_discovery partly_installed None "keyring" init).
  - reflexivity.
  - repeat constructor; simpl; intuition discriminate.
  - repeat constructor; discriminate.
  - repeat constructor; simpl; intuition discriminate.
  - simpl. tauto.
Defined.

End Names.

(** * Further properties of the session *)

(** ** Environments *)

Module EnvironmentFacts.
Import Session Conduct.

Lemma rev_acc_append s : forall acc,
  PyStr.rev_acc s acc = (PyStr.rev s ++ acc)%string.
Proof.
  unfold PyStr.rev. induction s as [|c s IH]; intros acc; simpl; [reflexivity|].
  rewrite IH, (IH (String c EmptyString)).
  now rewrite StrFacts.append_assoc.
Qed.

Lemma append_empty s : (s ++ "")%string = s.
Proof. induction s as [|c s IH]; simpl; congruence. Qed.

Lemma rev_append a b :
  PyStr.rev (a ++ b)%string = (PyStr.rev b ++ PyStr.rev a)%string.
Proof.
  induction a as [|c a IH]; simpl.
  - now rewrite append_empty.
  - unfold PyStr.rev at 1 3. simpl.
    rewrite !rev_acc_append, IH. now rewrite StrFacts.append_assoc.
Qed.

Lemma rev_involutive s : PyStr.rev (PyStr.rev s) = s.
Proof.
  induction s as [|c s IH]; [reflexivity|].
  unfold PyStr.rev at 2. simpl. rewrite rev_acc_append, rev_append, IH.
  reflexivity.
Qed.

Lemma endswith_append base suffix :
  PyStr.endswith (base ++ suffix) suffix = true.
Proof. unfold PyStr.endswith. rewrite rev_append. apply StrFacts.prefix_append. Qed.

Lemma endswith_split s suffix :
  PyStr.endswith s suffix = true -> exists base, s = (base ++ suffix)%string.
Proof.
  unfold PyStr.endswith. intros H. apply StrFacts.prefix_drop in H.
  exists (PyStr.rev (PyStr.drop (String.length (PyStr.rev suffix)) (PyStr.rev s))).
  rewrite <- (rev_involutive s) at 1. rewrite H at 1.
  now rewrite rev_append, rev_involutive.
Qed.

Lemma take_append base suffix :
  PyStr.take (String.length base) (base ++ suffix) = base.
Proof. induction base as [|c base IH]; simpl; [now destruct suffix|congruence]. Qed.

Lemma name_of_named base :
  name {| env_class_name := base ++ "Environment" |} = Return (PyStr.lower base).
Proof.
  unfold name. cbn [env_class_name]. rewrite endswith_append.
  rewrite StrFacts.length_append.
  replace (String.length base + String.length "Environment" - 11)%nat
    with (String.length base) by (simpl; lia).
  now rewrite take_append.
Qed.

(** X14: [name] returns for the classes whose name ends in
    [Environment], and what it returns is the rest of the class name
    in lower case; for any other class it raises. *)
Theorem name_is_the_lowered_base e n :
  name e = Return n
  <-> exists base,
        env_class_name e = (base ++ "Environment")%string
        /\ n = PyStr.lower base.
Proof.
  split.
  - unfold name. destruct (PyStr.endswith _ _) eqn:E; [|discriminate].
    apply endswith_split in E as [base E]. intros H. exists base.
    split; [exact E|]. destruct e as [cn]. simpl in *. subst cn.
    pose proof (name_of_named base) as Hn. unfold name in Hn. simpl in Hn.
    rewrite endswith_append in Hn. congruence.
  - intros [base [E ->]]. destruct e as [cn]. simpl in E. subst cn.
    apply name_of_named.
Qed.

(** X15: two environments whose classes are named as they should are
    equal exactly when the names of their classes differ in case only
    before [Environment]; and no environment equals [None]. *)
Theorem environments_equal_by_lowered_name a b :
  Environment_eq {| env_class_name := a ++ "Environment" |}
    (Some {| env_class_name := b ++ "Environment" |})
  = Return (String.eqb (PyStr.lower a) (PyStr.lower b))
  /\ Environment_eq {| env_class_name := a ++ "Environment" |} None
     = Return false.
Proof.
  split; [|reflexivity].
  unfold Environment_eq. now rewrite !name_of_named.
Qed.

End EnvironmentFacts.

(** ** What the calls leave as it is *)

Module Invariance.
Import Session Triples Conduct.
Local Open Scope py_scope.

Ltac head_of t :=
  lazymatch t with
  | ?f _ => head_of f
  | _ => t
  end.

(** One step of a proof that a coroutine keeps a predicate, along the
    structure of the coroutine; [upd] proves that an assignment keeps
    the predicate. *)
Ltac preserve_step upd :=
  lazymatch goal with
  | |- preserves _ (bind _ _) => apply preserves_bind; [|intro]
  | |- preserves _ (ret _) => apply preserves_ret
  | |- preserves _ (raise _) => apply preserves_raise
  | |- preserves _ blocked => apply preserves_blocked
  | |- preserves _ (lift _) => apply preserves_lift
  | |- preserves _ get_session => apply preserves_get_session
  | |- preserves _ get_world => apply preserves_get_world
  | |- preserves _ (item _ _) => apply preserves_item
  | |- preserves _ (finally _ _) => apply preserves_finally
  | |- preserves _ (try_except_api _ _) =>
      apply preserves_try_except_api; [|intros ? ?]
  | |- preserves _ (for_each _ _) => apply preserves_for_each; intro
  | |- preserves _ (modify_session _) => apply hoare_modify_session; upd
  | |- preserves _ (modify_world _) => apply hoare_modify_world; upd
  | |- preserves _ (if ?b then _ else _) => destruct b
  | |- preserves _ (match ?x with _ => _ end) => destruct x
  | |- preserves _ ?m => let h := head_of m in progress unfold h
  end.

Ltac preserve upd :=
  repeat first
    [ match goal with H : _ |- preserves _ _ => simple apply H end
    | preserve_step upd ].

(** *** The gate *)

Ltac gate_upd := unfold gate_is, gate; intros; simpl in *; assumption.

Lemma getstate_keeps_gate g : preserves (gate_is g) __getstate__.
Proof. preserve gate_upd. Qed.

Lemma request_unchecked_keeps_gate g endpoint jsondata headers method params :
  preserves (gate_is g)
    (__async_api_request_internal endpoint jsondata headers method params true).
Proof. preserve gate_upd. Qed.

Lemma logout_unchecked_keeps_gate g : preserves (gate_is g) (async_logout true).
Proof. preserve gate_upd. Qed.

Lemma lock_closes st r st' :
  _requests_lock false st = (r, st') -> gate st' = Some false.
Proof.
  intros H.
  assert (T : hoare (fun _ => True) (_requests_lock false)
                (fun _ => gate_is (Some false)) (gate_is (Some false))).
  { unfold _requests_lock.
    eapply hoare_bind with (R := fun _ => gate_is (Some false)).
    - apply hoare_modify_session. reflexivity.
    - intros _. change (preserves (gate_is (Some false))
        (s <- get_session ;;
         session_data <- __getstate__ ;;
         s0 <- get_session ;;
         for_each (fun observer =>
                     emit (Acquired observer (AccountName s) session_data))
                  (__persistence_observers s0))).
      pose proof (getstate_keeps_gate (Some false)).
      preserve gate_upd. }
  specialize (T _ _ _ I H). destruct r; exact T.
Qed.

Lemma unlock_opens st r st' :
  _requests_unlock false st = (r, st') -> gate st' = Some true.
Proof.
  intros H.
  assert (T : hoare (fun _ => True) (_requests_unlock false)
                (fun _ => gate_is (Some true)) (gate_is (Some true))).
  { unfold _requests_unlock.
    eapply hoare_bind with (R := fun _ => gate_is (Some true)).
    - apply hoare_modify_session. reflexivity.
    - intros _. change (preserves (gate_is (Some true))
        (s <- get_session ;;
         session_data <- __getstate__ ;;
         s0 <- get_session ;;
         for_each (fun observer =>
                     emit (Released observer (AccountName s) session_data))
                  (rev (__persistence_observers s0)))).
      pose proof (getstate_keeps_gate (Some true)).
      preserve gate_upd. }
  specialize (T _ _ _ I H). destruct r; exact T.
Qed.

Lemma finally_unlock_opens {A} (body : M A) st r st' :
  finally body (_requests_unlock false) st = (r, st') ->
  r <> Blocked -> gate st' = Some true.
Proof.
  unfold finally.
  destruct (body st) as [[a|x|] st1];
    [| |intros H; inversion H; subst; congruence].
  - destruct (_requests_unlock false st1) as [[u|y|] st2] eqn:U;
      intros H; inversion H; subst; intros _; exact (unlock_opens _ _ _ U).
  - destruct (_requests_unlock false st1) as [[u|y|] st2] eqn:U;
      intros H; inversion H; subst; intros _; exact (unlock_opens _ _ _ U).
Qed.

(** X16: a request that is not exempted from the gate and finds it
    closed waits, and nothing is sent: the world is as it was, and the
    session has at most instantiated its transport. *)
Theorem closed_gate_holds_requests endpoint jsondata headers method params s w :
  __can_run_requests s = Some false ->
  has_transport s = true ->
  exists t,
    async_api_request endpoint jsondata headers method params false (s, w)
    = (Blocked, (set_transport (Some t) s, w)).
Proof.
  intros Hg Ht.
  destruct s as [av ua uid atok rtok sc an tfa rv tr tf g env obs].
  unfold has_transport in Ht. simpl in Hg, Ht. subst g.
  destruct tr as [t|].
  - exists t. reflexivity.
  - destruct tf as [f|]; [|discriminate].
    exists f. reflexivity.
Qed.

Lemma closed_gate_holds_requests_witness :
  exists t,
    async_api_request "/vpn" None None None None false
      (set_can_run_requests (Some false) Examples.Coordinator.logged_in,
       Examples.Coordinator.world [])
    = (Blocked,
       (set_transport (Some t)
          (set_can_run_requests (Some false) Examples.Coordinator.logged_in),
        Examples.Coordinator.world [])).
Proof.
  apply (closed_gate_holds_requests "/vpn" None None None None
           (set_can_run_requests (Some false) Examples.Coordinator.logged_in)
           (Examples.Coordinator.world [])).
  - reflexivity.
  - reflexivity.
Defined.

(** X17: the operations that lock the gate open it again.  For the
    second factor, the refresh, the locking of the user and the logout
    of an authenticated session, each called without exemption from
    the gate: when the locking returned and the operation does not
    wait for ever, it leaves the gate open, whether it returns or
    raises. *)
Theorem guarded_operations_reopen_the_gate st st1 :
  _requests_lock false st = (Return tt, st1) ->
  (forall code r st',
     async_provide_2fa code false st = (r, st') -> r <> Blocked ->
     gate st' = Some true)
  /\ (forall observed r st',
        async_refresh observed false st = (r, st') -> r <> Blocked ->
        gate st' = Some true)
  /\ (forall r st',
        async_lock false st = (r, st') -> r <> Blocked ->
        gate st' = Some true)
  /\ (forall r st',
        authenticated (fst st) = true ->
        async_logout false st = (r, st') -> r <> Blocked ->
        gate st' = Some true).
Proof.
  intros Hlock. repeat split.
  - intros code r st'. unfold async_provide_2fa. unfold bind at 1.
    rewrite Hlock. apply finally_unlock_opens.
  - intros observed r st'. unfold async_refresh. unfold bind at 1.
    rewrite Hlock. unfold bind at 1. unfold get_session at 1.
    cbv beta iota. rewrite Z.eqb_refl, andb_false_r.
    unfold bind at 1. unfold modify_session at 1. cbv beta iota.
    apply finally_unlock_opens.
  - intros r st'. unfold async_lock. unfold bind at 1.
    rewrite Hlock. apply finally_unlock_opens.
  - intros r st' Hauth. unfold async_logout. unfold bind at 1.
    unfold get_session at 1. cbv beta iota. rewrite Hauth. cbn [negb].
    unfold bind at 1. rewrite Hlock. apply finally_unlock_opens.
Qed.

Lemma guarded_operations_reopen_the_gate_witness :
  gate (snd (async_provide_2fa "123456" false
               (Examples.Coordinator.logged_in,
                Examples.Coordinator.world
                  [Examples.Coordinator.failure 500 []])))
  = Some true.
Proof.
  destruct (guarded_operations_reopen_the_gate
              (Examples.Coordinator.logged_in,
               Examples.Coordinator.world [Examples.Coordinator.failure 500 []])
              _ eq_refl) as [H _].
  eapply H.
  - apply surjective_pairing.
  - vm_compute. discriminate.
Defined.

Lemma loop_waits_at_closed_gate n endpoint jsondata headers method params s w :
  __can_run_requests s = Some false ->
  has_transport s = true ->
  exists t,
    api_request_loop (S n) endpoint jsondata headers method params false (s, w)
    = (Blocked, (set_transport (Some t) s, w)).
Proof.
  intros Hg Ht.
  destruct s as [av ua uid atok rtok sc an tfa rv tr tf g env obs].
  unfold has_transport in Ht. simpl in Hg, Ht. subst g.
  destruct tr as [t|].
  - exists t. reflexivity.
  - destruct tf as [f|]; [|discriminate].
    exists f. reflexivity.
Qed.

(** X18: the forced logout of [async_authenticate] is outside its
    [try]: when it raises, the authentication raises the same
    exception and the gate, closed by the locking, stays closed, so
    that a later request that is not exempted from the gate waits. *)
Theorem failed_forced_logout_leaves_the_gate_closed
    username password st st1 x st2 :
  _requests_lock false st = (Return tt, st1) ->
  async_logout true st1 = (Raise x, st2) ->
  async_authenticate username password false st = (Raise x, st2)
  /\ gate st2 = Some false
  /\ (has_transport (fst st2) = true ->
      forall endpoint jsondata headers method params,
        fst (async_api_request endpoint jsondata headers method params false st2)
        = Blocked).
Proof.
  intros Hlock Hlogout.
  assert (Hg : gate st2 = Some false).
  { pose proof (lock_closes _ _ _ Hlock) as H1.
    exact (logout_unchecked_keeps_gate (Some false) _ _ _ H1 Hlogout). }
  split; [|split; [exact Hg|]].
  - unfold async_authenticate. unfold bind at 1. rewrite Hlock.
    unfold bind at 1. now rewrite Hlogout.
  - intros Ht endpoint jsondata headers method params.
    destruct st2 as [s2 w2].
    destruct (loop_waits_at_closed_gate 2 endpoint jsondata headers method
                params s2 w2 Hg Ht) as [t E].
    unfold async_api_request. now rewrite E.
Qed.

Lemma failed_forced_logout_leaves_the_gate_closed_witness :
  fst (async_api_request "/vpn" None None None None false
         (snd (async_authenticate "alice" "password" false
                 (Examples.Coordinator.logged_in,
                  Examples.Coordinator.world
                    [Examples.Coordinator.failure 500 []]))))
  = Blocked.
Proof.
  destruct (failed_forced_logout_leaves_the_gate_closed "alice" "password"
              (Examples.Coordinator.logged_in,
               Examples.Coordinator.world [Examples.Coordinator.failure 500 []])
              _ (ProtonAPIError (Examples.Coordinator.error 500 [])) _
              eq_refl eq_refl) as (Ha & _ & Hb).
  rewrite Ha. apply Hb. reflexivity.
Defined.

(** *** The observers *)

Lemma acquired_app a b : acquired (a ++ b) = acquired a ++ acquired b.
Proof. apply flat_map_app. Qed.

Lemma released_app a b : released (a ++ b) = released a ++ released b.
Proof. apply flat_map_app. Qed.

Lemma notified_record before locked unlocked observers ev s w :
  acquired [ev] = [] -> released [ev] = [] ->
  notified before locked unlocked observers (s, w) ->
  notified before locked unlocked observers (s, record ev w).
Proof.
  intros Ha Hr [Ho (evs & Ht & Hl & Hu)]. split; [exact Ho|].
  exists (evs ++ [ev]). cbn [snd record trace]. simpl in Ht.
  rewrite Ht, app_assoc, acquired_app, released_app, Ha, Hr, !app_nil_r.
  auto.
Qed.

Ltac notified_upd :=
  first
    [ intros ? ? ?; apply notified_record; [reflexivity|reflexivity|assumption]
    | let Ho := fresh in let Hev := fresh in
      unfold clear_credentials; intros ? ? [Ho Hev];
      split; [exact Ho|exact Hev] ].

Section Quiet.
Variables (before : list event) (locked unlocked observers : list nat).

Lemma environment_quiet :
  preserves (notified before locked unlocked observers) environment.
Proof. preserve notified_upd. Qed.

Lemma getstate_quiet :
  preserves (notified before locked unlocked observers) __getstate__.
Proof. preserve notified_upd. Qed.

Lemma request_quiet endpoint jsondata headers method params ncc :
  preserves (notified before locked unlocked observers)
    (__async_api_request_internal endpoint jsondata headers method params ncc).
Proof. preserve notified_upd. Qed.

Lemma sleep_for_exception_quiet e :
  preserves (notified before locked unlocked observers)
    (__sleep_for_exception e).
Proof. preserve notified_upd. Qed.

Lemma refresh_loop_quiet n :
  preserves (notified before locked unlocked observers) (refresh_loop n).
Proof.
  induction n as [|n IH]; cbn [refresh_loop].
  - apply preserves_ret.
  - pose proof request_quiet as Hq. pose proof sleep_for_exception_quiet as Hs.
    preserve notified_upd.
Qed.

Lemma logout_unchecked_quiet :
  preserves (notified before locked unlocked observers) (async_logout true).
Proof. preserve notified_upd. Qed.

End Quiet.

Lemma notified_start s w :
  notified (trace w) [] [] (__persistence_observers s) (s, w).
Proof. split; [reflexivity|]. exists []. now rewrite app_nil_r. Qed.

Lemma for_each_acquired before unlocked observers account_name session_data :
  forall l locked,
    hoare (notified before locked unlocked observers)
      (for_each (fun o => emit (Acquired o account_name session_data)) l)
      (fun _ => notified before (locked ++ l) unlocked observers)
      (fun _ => True).
Proof.
  induction l as [|o l IH]; intros locked; cbn [for_each].
  - apply hoare_ret. intros st H. now rewrite app_nil_r.
  - replace (locked ++ o :: l) with ((locked ++ [o]) ++ l)
      by (now rewrite <- app_assoc).
    eapply hoare_bind with
      (R := fun _ => notified before (locked ++ [o]) unlocked observers);
      [|intros u; apply IH].
    apply hoare_modify_world. intros s w [Ho (evs & Ht & Hl & Hu)].
    split; [exact Ho|]. exists (evs ++ [Acquired o account_name session_data]).
    cbn [snd record trace]. simpl in Ht.
    rewrite Ht, app_assoc, acquired_app, released_app, Hl, Hu.
    simpl. rewrite ?app_nil_r. auto.
Qed.

Lemma for_each_released before locked observers account_name session_data :
  forall l unlocked,
    hoare (notified before locked unlocked observers)
      (for_each (fun o => emit (Released o account_name session_data)) l)
      (fun _ => notified before locked (unlocked ++ l) observers)
      (fun _ => True).
Proof.
  induction l as [|o l IH]; intros unlocked; cbn [for_each].
  - apply hoare_ret. intros st H. now rewrite app_nil_r.
  - replace (unlocked ++ o :: l) with ((unlocked ++ [o]) ++ l)
      by (now rewrite <- app_assoc).
    eapply hoare_bind with
      (R := fun _ => notified before locked (unlocked ++ [o]) observers);
      [|intros u; apply IH].
    apply hoare_modify_world. intros s w [Ho (evs & Ht & Hl & Hu)].
    split; [exact Ho|]. exists (evs ++ [Released o account_name session_data]).
    cbn [snd record trace]. simpl in Ht.
    rewrite Ht, app_assoc, acquired_app, released_app, Hl, Hu.
    simpl. rewrite ?app_nil_r. auto.
Qed.

Lemma lock_notifies before unlocked observers :
  hoare (notified before [] unlocked observers) (_requests_lock false)
    (fun _ => notified before observers unlocked observers) (fun _ => True).
Proof.
  unfold _requests_lock.
  eapply hoare_bind with (R := fun _ => notified before [] unlocked observers).
  { apply hoare_modify_session. notified_upd. }
  intros _. eapply hoare_bind with
    (R := fun _ => notified before [] unlocked observers).
  { apply hoare_get_session. auto. }
  intros s. eapply hoare_bind with
    (R := fun _ => notified before [] unlocked observers).
  { eapply hoare_consequence;
      [apply (getstate_quiet before [] unlocked observers)|auto|auto|auto]. }
  intros session_data. eapply hoare_bind.
  { apply hoare_get_session with
      (Q := fun s0 st => notified before [] unlocked observers st
                         /\ __persistence_observers s0 = observers).
    intros st H. split; [exact H|apply H]. }
  intros s0 st r st' [H Hobs]. rewrite Hobs.
  apply (for_each_acquired before unlocked observers (AccountName s)
           session_data observers [] st r st' H).
Qed.

Lemma unlock_notifies before locked observers :
  hoare (notified before locked [] observers) (_requests_unlock false)
    (fun _ => notified before locked (rev observers) observers) (fun _ => True).
Proof.
  unfold _requests_unlock.
  eapply hoare_bind with (R := fun _ => notified before locked [] observers).
  { apply hoare_modify_session. notified_upd. }
  intros _. eapply hoare_bind with
    (R := fun _ => notified before locked [] observers).
  { apply hoare_get_session. auto. }
  intros s. eapply hoare_bind with
    (R := fun _ => notified before locked [] observers).
  { eapply hoare_consequence;
      [apply (getstate_quiet before locked [] observers)|auto|auto|auto]. }
  intros session_data. eapply hoare_bind.
  { apply hoare_get_session with
      (Q := fun s0 st => notified before locked [] observers st
                         /\ __persistence_observers s0 = observers).
    intros st H. split; [exact H|apply H]. }
  intros s0 st r st' [H Hobs]. rewrite Hobs.
  apply (for_each_released before locked observers (AccountName s)
           session_data (rev observers) [] st r st' H).
Qed.

(** A body that notifies no observer, before an unlocking that
    returns. *)
Lemma finally_notifies {A} (body : M A) before observers st b st' :
  preserves (notified before observers [] observers) body ->
  notified before observers [] observers st ->
  finally body (_requests_unlock false) st = (Return b, st') ->
  notified before observers (rev observers) observers st'.
Proof.
  intros Hbody H1. unfold finally.
  destruct (body st) as [[a|x|] st2] eqn:B; [| |discriminate].
  - pose proof (Hbody _ _ _ H1 B) as H2.
    destruct (_requests_unlock false st2) as [[[]|y|] st3] eqn:U; try discriminate.
    intros E. inversion E; subst.
    exact (unlock_notifies before observers observers _ _ _ H2 U).
  - destruct (_requests_unlock false st2) as [[[]|y|] st3]; discriminate.
Qed.

(** The same, after a locking that returns. *)
Lemma guarded_notifies {A} (body : M A) before observers st b st' :
  preserves (notified before observers [] observers) body ->
  notified before [] [] observers st ->
  (_requests_lock false ;; finally body (_requests_unlock false))%py st
  = (Return b, st') ->
  notified before observers (rev observers) observers st'.
Proof.
  intros Hbody Hst. unfold bind.
  destruct (_requests_lock false st) as [[[]|x|] st1] eqn:L; try discriminate.
  pose proof (lock_notifies before [] observers _ _ _ Hst L) as H1.
  now apply finally_notifies.
Qed.

(** X19: the observers are locked in the order of their registration
    and unlocked in the reverse order.  For each operation that locks
    the gate, called without exemption: when it returns, the events
    that it has added to the trace lock every registered observer
    once, in the order of registration, and unlock every one once, in
    the reverse order. *)
Theorem observers_are_unlocked_in_reverse_order s w :
  (forall code b st',
     async_provide_2fa code false (s, w) = (Return b, st') ->
     notified (trace w) (__persistence_observers s)
       (rev (__persistence_observers s)) (__persistence_observers s) st')
  /\ (forall observed b st',
        async_refresh observed false (s, w) = (Return b, st') ->
        notified (trace w) (__persistence_observers s)
          (rev (__persistence_observers s)) (__persistence_observers s) st')
  /\ (forall b st',
        async_lock false (s, w) = (Return b, st') ->
        notified (trace w) (__persistence_observers s)
          (rev (__persistence_observers s)) (__persistence_observers s) st')
  /\ (forall b st',
        authenticated s = true ->
        async_logout false (s, w) = (Return b, st') ->
        notified (trace w) (__persistence_observers s)
          (rev (__persistence_observers s)) (__persistence_observers s) st')
  /\ (forall username password b st',
        async_authenticate username password false (s, w) = (Return b, st') ->
        notified (trace w) (__persistence_observers s)
          (rev (__persistence_observers s)) (__persistence_observers s) st').
Proof.
  set (obs := __persistence_observers s).
  pose proof (request_quiet (trace w) obs [] obs) as Hq.
  pose proof (refresh_loop_quiet (trace w) obs [] obs) as Hr.
  split; [|split; [|split; [|split]]].
  - intros code b st'. unfold async_provide_2fa.
    apply guarded_notifies; [preserve notified_upd|apply notified_start].
  - intros observed b st'. unfold async_refresh. unfold bind at 1.
    destruct (_requests_lock false (s, w)) as [[[]|x|] [s1 w1]] eqn:L;
      try discriminate.
    pose proof (lock_notifies (trace w) [] obs _ _ _ (notified_start s w) L)
      as H1.
    unfold bind at 1. unfold get_session at 1. cbv beta iota.
    rewrite Z.eqb_refl, andb_false_r.
    unfold bind at 1. unfold modify_session at 1. cbv beta iota.
    apply finally_notifies; [apply Hr|].
    destruct H1 as [Ho Hev]. split; [exact Ho|exact Hev].
  - intros b st'. unfold async_lock.
    apply guarded_notifies; [preserve notified_upd|apply notified_start].
  - intros b st' Hauth. unfold async_logout. unfold bind at 1.
    unfold get_session at 1. cbv beta iota. cbn [fst]. rewrite Hauth. cbn [negb].
    apply guarded_notifies; [preserve notified_upd|apply notified_start].
  - intros username password b st'. unfold async_authenticate.
    unfold bind at 1.
    destruct (_requests_lock false (s, w)) as [[[]|x|] st1] eqn:L;
      try discriminate.
    pose proof (lock_notifies (trace w) [] obs _ _ _ (notified_start s w) L)
      as H1.
    unfold bind at 1.
    destruct (async_logout true st1) as [[o|x|] st2] eqn:O; try discriminate.
    pose proof (logout_unchecked_quiet (trace w) obs [] obs _ _ _ H1 O) as H2.
    apply finally_notifies; [preserve notified_upd|exact H2].
Qed.

Lemma observers_are_unlocked_in_reverse_order_witness :
  notified [] [7; 8]%nat [8; 7]%nat [7; 8]%nat
    (snd (async_lock false
            (set_persistence_observers [7; 8]%nat Examples.Coordinator.logged_in,
             Examples.Coordinator.world
               [Return []; Return [("Scopes", VList ["self"])]]))).
Proof.
  destruct (observers_are_unlocked_in_reverse_order
              (set_persistence_observers [7; 8]%nat Examples.Coordinator.logged_in)
              (Examples.Coordinator.world
                 [Return []; Return [("Scopes", VList ["self"])]]))
    as (_ & _ & H & _).
  apply (H true). vm_compute. reflexivity.
Defined.

(** *** The environment *)

Ltac established_upd :=
  unfold established, clear_credentials; intros; simpl in *; assumption.

Section Established.
Variable e : Environment.

Lemma environment_established : preserves (established e) environment.
Proof.
  intros [s w] r st' H. unfold environment, bind, get_session.
  unfold established in H. simpl in H. simpl. rewrite H.
  intros E. inversion E; subst. exact H.
Qed.

Lemma setter_established v : preserves (established e) (environment_setter v).
Proof.
  intros [s w] r st' H. unfold environment_setter, bind, get_session.
  unfold established in H. simpl in H. simpl. rewrite H.
  intros E. inversion E; subst. exact H.
Qed.

Lemma getstate_established : preserves (established e) __getstate__.
Proof. pose proof environment_established. preserve established_upd. Qed.

Lemma lock_established ncc : preserves (established e) (_requests_lock ncc).
Proof. pose proof getstate_established. preserve established_upd. Qed.

Lemma unlock_established ncc : preserves (established e) (_requests_unlock ncc).
Proof. pose proof getstate_established. preserve established_upd. Qed.

Lemma request_established endpoint jsondata headers method params ncc :
  preserves (established e)
    (__async_api_request_internal endpoint jsondata headers method params ncc).
Proof. preserve established_upd. Qed.

Lemma sleep_for_exception_established x :
  preserves (established e) (__sleep_for_exception x).
Proof. preserve established_upd. Qed.

Lemma refresh_loop_established n : preserves (established e) (refresh_loop n).
Proof.
  induction n as [|n IH]; cbn [refresh_loop].
  - apply preserves_ret.
  - pose proof request_established. pose proof sleep_for_exception_established.
    preserve established_upd.
Qed.

Lemma refresh_established observed ncc :
  preserves (established e) (async_refresh observed ncc).
Proof.
  pose proof lock_established. pose proof unlock_established.
  pose proof refresh_loop_established.
  preserve established_upd.
Qed.

Lemma api_request_loop_established n endpoint jsondata headers method params ncc :
  preserves (established e)
    (api_request_loop n endpoint jsondata headers method params ncc).
Proof.
  induction n as [|n IH]; [|rewrite SessionFacts.api_request_loop_unfold].
  - apply preserves_ret.
  - pose proof request_established. pose proof sleep_for_exception_established.
    pose proof refresh_established.
    preserve established_upd.
Qed.

Lemma logout_established ncc : preserves (established e) (async_logout ncc).
Proof.
  pose proof lock_established. pose proof unlock_established.
  pose proof request_established.
  preserve established_upd.
Qed.

Lemma authenticate_established username password ncc :
  preserves (established e) (async_authenticate username password ncc).
Proof.
  pose proof lock_established. pose proof unlock_established.
  pose proof request_established. pose proof logout_established.
  preserve established_upd.
Qed.

Lemma provide_2fa_established code ncc :
  preserves (established e) (async_provide_2fa code ncc).
Proof.
  pose proof lock_established. pose proof unlock_established.
  pose proof request_established.
  preserve established_upd.
Qed.

Lemma async_lock_established ncc : preserves (established e) (async_lock ncc).
Proof.
  pose proof lock_established. pose proof unlock_established.
  pose proof request_established.
  preserve established_upd.
Qed.

Lemma kept {A} (m : M A) st :
  preserves (established e) m -> established e st -> established e (snd (m st)).
Proof.
  intros Hm H. destruct (m st) as [r st'] eqn:E.
  specialize (Hm _ _ _ H E). destruct r; exact Hm.
Qed.

Lemma perform_established c st :
  established e st -> established e (perform c st).
Proof.
  destruct c; cbn [perform]; apply kept.
  - apply authenticate_established.
  - apply provide_2fa_established.
  - apply refresh_established.
  - apply logout_established.
  - apply async_lock_established.
  - apply api_request_loop_established.
  - unfold dump. apply getstate_established.
  - apply setter_established.
  - preserve established_upd.
Qed.

End Established.

(** X20: the environment of an established session is never changed.
    Once the session has an environment, every sequence of calls of
    its methods (authenticate, the second factor, refresh, logout,
    the locking of the user, requests, dump, the setter of the
    environment and the registration of observers; the restoring of
    a snapshot apart) leaves this very environment. *)
Theorem established_environment_is_kept e cs : forall st,
  established e st -> established e (perform_all cs st).
Proof.
  unfold perform_all. induction cs as [|c cs IH]; intros st H; simpl.
  - exact H.
  - apply IH. now apply perform_established.
Qed.

Lemma established_environment_is_kept_witness :
  established ProdEnvironment
    (perform_all
       [CallSetEnvironment (AssignEnvironment {| env_class_name := "AtlasEnvironment" |});
        CallLogout false;
        CallAuthenticate "alice" "password" false;
        CallSetEnvironment AssignOther]
       (set_environment (Some ProdEnvironment) Examples.Coordinator.logged_in,
        Examples.Coordinator.world
          (Return [] :: Examples.Coordinator.login_answers))).
Proof.
  apply (established_environment_is_kept ProdEnvironment). reflexivity.
Defined.

(** X27: the environment is set once.  On a session that has no
    environment yet, the setter given an environment establishes it,
    and reading the environment establishes the one that the loader
    finds; on the session that either leaves, the setter raises
    [ValueError] whatever it is given, [None] included, and changes
    nothing. *)
Theorem environment_is_set_once s w :
  __environment s = None ->
  (forall e,
     environment_setter (AssignEnvironment e) (s, w)
     = (Return tt, (set_environment (Some e) s, w)))
  /\ (forall e,
        loader_environment w = Some e ->
        environment (s, w) = (Return e, (set_environment (Some e) s, w)))
  /\ (forall e v,
        environment_setter v (set_environment (Some e) s, w)
        = (Raise ValueError, (set_environment (Some e) s, w))).
Proof.
  intros H. split; [|split].
  - intros e. unfold environment_setter, bind, get_session. simpl.
    now rewrite H.
  - intros e Hw. unfold environment, bind, get_session, get_world. simpl.
    rewrite H. simpl. now rewrite Hw.
  - intros e v. reflexivity.
Qed.

Lemma environment_is_set_once_witness :
  environment_setter AssignNone
    (snd (dump (Examples.Coordinator.logged_in, Examples.Coordinator.world [])))
  = (Raise ValueError,
     snd (dump (Examples.Coordinator.logged_in, Examples.Coordinator.world []))).
Proof.
  destruct (environment_is_set_once Examples.Coordinator.logged_in
              (Examples.Coordinator.world []) eq_refl) as (_ & _ & H).
  apply (H ProdEnvironment AssignNone).
Defined.

End Invariance.

(** ** The number of requests *)

Module Budget.
Import Session Triples Conduct Invariance.
Local Open Scope py_scope.

Section Rules.
Context {A B : Type}.

Lemma sends_weaken k k' (m : M A) :
  sends_at_most k m -> (k <= k')%nat -> sends_at_most k' m.
Proof. intros H Hk st r st' E. specialize (H _ _ _ E). lia. Qed.

(** A coroutine that keeps the number of calls sends nothing. *)
Lemma sends_nothing k (m : M A) :
  (forall n, preserves (fun st => calls (snd st) = n) m) -> sends_at_most k m.
Proof.
  intros H st r st' E. specialize (H (calls (snd st)) _ _ _ eq_refl E).
  destruct r; lia.
Qed.

Lemma sends_bind k1 k2 (m : M A) (f : A -> M B) :
  sends_at_most k1 m -> (forall a, sends_at_most k2 (f a)) ->
  sends_at_most (k1 + k2) (bind m f).
Proof.
  intros Hm Hf st r st' E. unfold bind in E.
  destruct (m st) as [[a|x|] st1] eqn:E1; specialize (Hm _ _ _ E1).
  - specialize (Hf a _ _ _ E). lia.
  - inversion E; subst. lia.
  - inversion E; subst. lia.
Qed.

Lemma sends_try k1 k2 (body : M A) (handler : exn -> api_error -> M A) :
  sends_at_most k1 body -> (forall x e, sends_at_most k2 (handler x e)) ->
  sends_at_most (k1 + k2) (try_except_api body handler).
Proof.
  intros Hb Hh st r st' E. unfold try_except_api in E.
  destruct (body st) as [[a|x|] st1] eqn:E1; specialize (Hb _ _ _ E1).
  - inversion E; subst. lia.
  - destruct (as_api_error x) as [e|].
    + specialize (Hh x e _ _ _ E). lia.
    + inversion E; subst. lia.
  - inversion E; subst. lia.
Qed.

Lemma sends_finally k1 k2 (body : M A) (fin : M unit) :
  sends_at_most k1 body -> sends_at_most k2 fin ->
  sends_at_most (k1 + k2) (finally body fin).
Proof.
  intros Hb Hf st r st' E. unfold finally in E.
  destruct (body st) as [[a|x|] st1] eqn:E1; specialize (Hb _ _ _ E1).
  - destruct (fin st1) as [[u|y|] st2] eqn:E2; specialize (Hf _ _ _ E2);
      inversion E; subst; lia.
  - destruct (fin st1) as [[u|y|] st2] eqn:E2; specialize (Hf _ _ _ E2);
      inversion E; subst; lia.
  - inversion E; subst. lia.
Qed.
End Rules.

Ltac calls_upd := intros; simpl in *; assumption.

Ltac nothing := apply sends_nothing; intro; solve [preserve calls_upd].

Lemma sends_transport_call r : sends_at_most 1 (transport_call r).
Proof.
  intros [s w] o st' E. unfold transport_call, bind, emit, modify_world,
    get_world, lift in E. simpl in E. inversion E; subst. simpl. lia.
Qed.

Lemma sends_request endpoint jsondata headers method params ncc :
  sends_at_most 1
    (__async_api_request_internal endpoint jsondata headers method params ncc).
Proof.
  unfold __async_api_request_internal.
  apply (sends_bind 0 1); [nothing|intros s].
  apply (sends_bind 0 1); [nothing|intros u].
  apply (sends_bind 0 1); [nothing|intros s'].
  destruct (__transport s'); [|nothing].
  apply (sends_bind 0 1); [nothing|intros u'].
  apply sends_transport_call.
Qed.

Lemma sends_refresh_loop n : sends_at_most n (refresh_loop n).
Proof.
  induction n as [|n IH]; cbn [refresh_loop]; [nothing|].
  apply (sends_try 1 n).
  - apply (sends_bind 1 0); [|intros reply; nothing].
    unfold refresh_request. apply (sends_bind 0 1); [nothing|intros s].
    apply sends_request.
  - intros x e. destruct (http_code e =? 409); [exact IH|].
    destruct ((http_code e =? 429) || (http_code e =? 503)).
    + apply (sends_bind 0 n); [nothing|intros u; exact IH].
    + destruct ((http_code e =? 400) || (http_code e =? 422)); nothing.
Qed.

Lemma sends_refresh observed ncc : sends_at_most 3 (async_refresh observed ncc).
Proof.
  unfold async_refresh.
  apply (sends_bind 0 3); [nothing|intros u].
  apply (sends_bind 0 3); [nothing|intros s].
  destruct (_ && _); [nothing|].
  apply (sends_bind 0 3); [nothing|intros u'].
  apply (sends_finally 3 0); [apply sends_refresh_loop|nothing].
Qed.

Lemma sends_api_request_loop n endpoint jsondata headers method params ncc :
  sends_at_most (4 * n)
    (api_request_loop n endpoint jsondata headers method params ncc).
Proof.
  induction n as [|n IH];
    [apply sends_nothing; intro; apply preserves_ret
    |rewrite SessionFacts.api_request_loop_unfold].
  replace (4 * S n)%nat with (0 + (1 + (3 + 4 * n)))%nat by lia.
  apply sends_bind; [nothing|intros s].
  apply sends_try.
  - apply (sends_bind 1 0); [apply sends_request|intros reply; nothing].
  - intros x e. destruct (http_code e =? 403); [nothing|].
    destruct (http_code e =? 401).
    + apply sends_bind; [apply sends_refresh|intros refreshed].
      destruct (truthy refreshed); [exact IH|nothing].
    + destruct ((http_code e =? 408) || (http_code e =? 502)).
      * eapply sends_weaken; [exact IH|lia].
      * destruct ((http_code e =? 429) || (http_code e =? 503)); [|nothing].
        apply (sends_bind 0); [nothing|intros u].
        eapply sends_weaken; [exact IH|lia].
Qed.

Lemma sends_logout ncc : sends_at_most 1 (async_logout ncc).
Proof.
  unfold async_logout.
  apply (sends_bind 0 1); [nothing|intros s].
  destruct (negb (authenticated s)); [nothing|].
  apply (sends_bind 0 1); [nothing|intros u].
  apply (sends_finally 1 0); [|nothing].
  apply (sends_try 1 0).
  - apply (sends_bind 1 0); [apply sends_request|intros reply; nothing].
  - intros x e. nothing.
Qed.

Lemma sends_provide_2fa code ncc : sends_at_most 1 (async_provide_2fa code ncc).
Proof.
  unfold async_provide_2fa.
  apply (sends_bind 0 1); [nothing|intros u].
  apply (sends_finally 1 0); [|nothing].
  apply (sends_bind 1 0); [apply sends_request|intros reply; nothing].
Qed.

Lemma sends_async_lock ncc : sends_at_most 2 (async_lock ncc).
Proof.
  unfold async_lock.
  apply (sends_bind 0 2); [nothing|intros u].
  apply (sends_finally 2 0); [|nothing].
  apply (sends_bind 1 1); [apply sends_request|intros reply].
  apply (sends_bind 1 0); [apply sends_request|intros reply'; nothing].
Qed.

Lemma sends_authenticate username password ncc :
  sends_at_most 3 (async_authenticate username password ncc).
Proof.
  unfold async_authenticate.
  apply (sends_bind 0 3); [nothing|intros u].
  apply (sends_bind 1 2); [apply sends_logout|intros o].
  apply (sends_finally 2 0); [|nothing].
  apply (sends_bind 1 1); [apply sends_request|intros info_response].
  apply (sends_bind 0 1); [nothing|intros w].
  apply (sends_bind 0 1); [nothing|intros armored_modulus].
  destruct (verify_modulus (srp w) armored_modulus) as [modulus|]; [|nothing].
  apply (sends_bind 0 1); [nothing|intros server_challenge].
  apply (sends_bind 0 1); [nothing|intros salt].
  apply (sends_bind 0 1); [nothing|intros version].
  destruct (process_challenge _ _ _ _ _ _) as [client_proof|]; [|nothing].
  apply (sends_bind 0 1); [nothing|intros srp_session].
  apply (sends_bind 1 0); [|intros auth; nothing].
  apply (sends_try 1 0).
  - apply (sends_bind 1 0); [apply sends_request|intros reply; nothing].
  - intros x e. nothing.
Qed.

(** X21: the requests that one call sends are bounded.  A call of
    [async_api_request] calls the transport at most twelve times
    (three attempts, each with a refresh of at most three attempts),
    [async_refresh] and [async_authenticate] at most three times,
    [async_lock] at most twice, [async_provide_2fa] and
    [async_logout] at most once. *)
Theorem requests_are_bounded :
  (forall endpoint jsondata headers method params ncc,
     sends_at_most 12
       (async_api_request endpoint jsondata headers method params ncc))
  /\ (forall observed ncc, sends_at_most 3 (async_refresh observed ncc))
  /\ (forall username password ncc,
        sends_at_most 3 (async_authenticate username password ncc))
  /\ (forall ncc, sends_at_most 2 (async_lock ncc))
  /\ (forall code ncc, sends_at_most 1 (async_provide_2fa code ncc))
  /\ (forall ncc, sends_at_most 1 (async_logout ncc)).
Proof.
  split; [|split; [|split; [|split; [|split]]]].
  - intros. apply (sends_api_request_loop 3).
  - apply sends_refresh.
  - apply sends_authenticate.
  - apply sends_async_lock.
  - apply sends_provide_2fa.
  - apply sends_logout.
Qed.

(** The bound of [async_api_request] is reached: twelve calls, and
    the request returns [None]. *)
Lemma twelve_requests_are_reached :
  exists st',
    async_api_request "/vpn" None None None None false
      (Examples.Coordinator.logged_in,
       Examples.Coordinator.world expiring_answers)
    = (Return None, st')
    /\ calls (snd st') = 12%nat.
Proof. eexists. split; vm_compute; reflexivity. Qed.

End Budget.

(** ** What the operations return and what they leave *)

Module Outcomes.
Import Session Triples SessionFacts Retry Conduct Invariance.
Local Open Scope py_scope.

(** X22: the first call decides, unless its failure is one that the
    loop handles.  When the first call of [async_api_request] returns
    a reply, the reply is returned; when it raises an exception that
    is no [ProtonAPIError], or one whose status is none of 401, 403,
    408, 429, 502 and 503, that exception is raised as it is; when it
    waits, the request waits.  In each case nothing more is sent: the
    state is the one that the call left. *)
Theorem first_call_decides endpoint jsondata headers method params ncc st o st1 :
  __async_api_request_internal endpoint jsondata headers method params ncc st
    = (o, st1) ->
  match o with
  | Return reply =>
      async_api_request endpoint jsondata headers method params ncc st
      = (Return (Some reply), st1)
  | Raise x =>
      match as_api_error x with
      | Some e => handled_status (http_code e) = false
      | None => True
      end ->
      async_api_request endpoint jsondata headers method params ncc st
      = (Raise x, st1)
  | Blocked =>
      async_api_request endpoint jsondata headers method params ncc st
      = (Blocked, st1)
  end.
Proof.
  intros H.
  destruct o as [reply|x|]; [|intros Hx|];
    unfold async_api_request; rewrite api_request_loop_unfold;
    unfold bind at 1; unfold get_session at 1; cbv beta iota; run_with H;
    try reflexivity.
  destruct (as_api_error x) as [e|]; [|reflexivity].
  unfold handled_status in Hx.
  repeat (apply orb_false_iff in Hx; destruct Hx as [Hx ?]).
  repeat match goal with E : (_ =? _) = false |- _ => rewrite E; clear E end.
  reflexivity.
Qed.

Lemma first_call_decides_witness :
  async_api_request "/vpn" None None None None false
    (Examples.Coordinator.logged_in,
     Examples.Coordinator.world [Examples.Coordinator.failure 500 []])
  = (Raise (ProtonAPIError (Examples.Coordinator.error 500 [])),
     snd (__async_api_request_internal "/vpn" None None None None false
            (Examples.Coordinator.logged_in,
             Examples.Coordinator.world [Examples.Coordinator.failure 500 []]))).
Proof.
  apply (first_call_decides "/vpn" None None None None false
           (Examples.Coordinator.logged_in,
            Examples.Coordinator.world [Examples.Coordinator.failure 500 []])
           (Raise (ProtonAPIError (Examples.Coordinator.error 500 [])))).
  - reflexivity.
  - reflexivity.
Defined.

(** *** Refresh *)

(** What [async_refresh] has done when it returns [r], on a session
    that was [s0]. *)
Lemma harmless_same s0 :
  harmless (fun st => same_account s0 st /\ same_credentials s0 st).
Proof. unfold same_account, same_credentials. solve_harmless. Qed.

Lemma refresh_loop_outcome s0 n : forall st r st',
  same_account s0 st /\ same_credentials s0 st ->
  refresh_loop n st = (Return r, st') ->
  same_account s0 st'
  /\ match r with
     | Some true =>
         UID (fst st') = UID s0
         /\ exists reply, scripted reply st' /\ tokens_of reply (fst st')
     | Some false => same_credentials s0 st' \/ cleared (fst st')
     | None => same_credentials s0 st'
     end.
Proof.
  induction n as [|n IH]; intros st r st' HP; cbn [refresh_loop].
  { intros E. inversion E; subst. tauto. }
  unfold try_except_api. unfold bind at 1.
  destruct (refresh_request st) as [[reply|x|] [s1 w1]] eqn:R.
  - pose proof (hoare_refresh_request _ (harmless_same s0) _ _ _ HP R)
      as [[Ha Hc] Hs].
    unfold bind, item, modify_session, ret, raise.
    destruct (Dict.get String.eqb "AccessToken" reply) as [v1|] eqn:G1;
      [|discriminate].
    destruct (Dict.get String.eqb "RefreshToken" reply) as [v2|] eqn:G2;
      [|discriminate].
    destruct (Dict.get String.eqb "Scopes" reply) as [v3|] eqn:G3;
      [|discriminate].
    simpl. intros E. inversion E; subst. clear E.
    unfold same_account, same_credentials, credentials in *. simpl in *.
    split; [exact Ha|]. split; [congruence|].
    exists reply. split; [exact Hs|]. unfold tokens_of. simpl. auto.
  - pose proof (hoare_refresh_request _ (harmless_same s0) _ _ _ HP R) as H1.
    simpl in H1.
    destruct (as_api_error x) as [e|]; [|discriminate].
    destruct (http_code e =? 409); [apply IH; exact H1|].
    destruct ((http_code e =? 429) || (http_code e =? 503)).
    + unfold bind at 1.
      destruct (__sleep_for_exception e (s1, w1)) as [[u|y|] st2] eqn:S;
        try discriminate.
      apply IH.
      exact (preserves_sleep_for_exception _ (harmless_same s0) e _ _ _ H1 S).
    + destruct ((http_code e =? 400) || (http_code e =? 422)).
      * unfold bind, modify_session, ret. simpl. intros E. inversion E; subst.
        split; [apply H1|]. right. repeat split.
      * unfold ret. intros E. inversion E; subst.
        split; [apply H1|]. left. apply H1.
  - discriminate.
Qed.

Lemma harmless_refreshed s0 r :
  harmless (fun st =>
    same_account s0 st
    /\ match r with
       | Some true =>
           UID (fst st) = UID s0
           /\ exists reply, scripted reply st /\ tokens_of reply (fst st)
       | Some false => same_credentials s0 st \/ cleared (fst st)
       | None => same_credentials s0 st
       end).
Proof.
  unfold same_account, same_credentials, tokens_of, scripted.
  destruct r as [[|]|]; solve_harmless.
Qed.

(** What [async_refresh] leaves when it returns, for a session that
    had the account and the credentials of [s0]. *)
Lemma refresh_transition s0 observed ncc :
  hoare (fun st => same_account s0 st /\ same_credentials s0 st)
    (async_refresh observed ncc)
    (fun r st =>
       same_account s0 st
       /\ match r with
          | Some true =>
              UID (fst st) = UID s0
              /\ exists reply, scripted reply st /\ tokens_of reply (fst st)
          | Some false => same_credentials s0 st \/ cleared (fst st)
          | None => same_credentials s0 st
          end)
    (fun _ => True).
Proof.
  intros [s w] o st' H0 E. destruct o as [r|x|]; [|exact I|exact I].
  revert E. unfold async_refresh. unfold bind at 1.
  destruct (_requests_lock ncc (s, w)) as [[u|x|] [s1 w1]] eqn:L;
    try discriminate.
  pose proof (preserves_requests_lock _ (harmless_same s0) ncc _ _ _ H0 L)
    as H1.
  unfold bind at 1. unfold get_session at 1. cbv beta iota.
  rewrite Z.eqb_refl, andb_false_r.
  unfold bind at 1. unfold modify_session at 1. cbv beta iota.
  unfold finally.
  destruct (refresh_loop 3 _) as [[r1|x|] st2] eqn:Lp; [| |discriminate].
  - destruct (_requests_unlock ncc st2) as [[u'|y|] st3] eqn:U; try discriminate.
    intros E. inversion E; subst. clear E.
    apply refresh_loop_outcome with (s0 := s0) in Lp; [|exact H1].
    exact (preserves_requests_unlock _ (harmless_refreshed s0 r) ncc _ _ _ Lp U).
  - destruct (_requests_unlock ncc st2) as [[u'|y|] st3]; discriminate.
Qed.

(** X23: what a refresh that returns has done to the session.  It
    never changes the account name.  When it returns [True], the UID
    is as before and the three tokens are those of a reply of the
    transport; when it returns [False], the four credentials are as
    before or are all cleared; when it returns [None], they are as
    before. *)
Theorem refresh_outcome observed ncc s w r st' :
  async_refresh observed ncc (s, w) = (Return r, st') ->
  AccountName (fst st') = AccountName s
  /\ match r with
     | Some true =>
         UID (fst st') = UID s
         /\ exists reply, scripted reply st' /\ tokens_of reply (fst st')
     | Some false =>
         credentials (fst st') = credentials s \/ cleared (fst st')
     | None => credentials (fst st') = credentials s
     end.
Proof.
  intros H.
  exact (refresh_transition s observed ncc (s, w) (Return r) st'
           (conj eq_refl eq_refl) H).
Qed.

Lemma refresh_outcome_witness :
  exists reply,
    scripted reply
      (snd (async_refresh None false
              (Examples.Coordinator.logged_in,
               Examples.Coordinator.world
                 [Examples.Coordinator.failure 409 [];
                  Return Examples.Coordinator.new_tokens])))
    /\ tokens_of reply
         (fst (snd (async_refresh None false
                      (Examples.Coordinator.logged_in,
                       Examples.Coordinator.world
                         [Examples.Coordinator.failure 409 [];
                          Return Examples.Coordinator.new_tokens])))).
Proof.
  apply (refresh_outcome None false Examples.Coordinator.logged_in
           (Examples.Coordinator.world
              [Examples.Coordinator.failure 409 [];
               Return Examples.Coordinator.new_tokens])
           (Some true)).
  vm_compute. reflexivity.
Defined.

(** *** The second factor *)

Lemma match_code_1000 {A} (a b : A) (v : option value) :
  match v with
  | Some (VInt 1000) => a
  | _ => b
  end
  = if match v with Some (VInt z) => z =? 1000 | _ => false end then a else b.
Proof.
  destruct v as [[|z| | |]|]; try reflexivity.
  destruct z as [|p|p]; try reflexivity.
  repeat match goal with
         | q : positive |- _ => destruct q; try reflexivity
         end.
Qed.

Lemma harmless_same_but_scopes s0 : harmless (same_but_scopes s0).
Proof. unfold same_but_scopes. solve_harmless. Qed.

Lemma harmless_second_factor s0 b :
  harmless (fun st =>
    same_but_scopes s0 st
    /\ exists reply,
         scripted reply st
         /\ Dict.get String.eqb "Scopes" reply = Some (Scopes (fst st))
         /\ (b = true <-> Dict.get String.eqb "Code" reply = Some (VInt 1000))).
Proof. unfold same_but_scopes, scripted. solve_harmless. Qed.

(** What [async_provide_2fa] leaves when it returns, for a session
    that had the UID, the two tokens and the account of [s0]. *)
Lemma second_factor_transition s0 code ncc :
  hoare (same_but_scopes s0) (async_provide_2fa code ncc)
    (fun b st =>
       same_but_scopes s0 st
       /\ exists reply,
            scripted reply st
            /\ Dict.get String.eqb "Scopes" reply = Some (Scopes (fst st))
            /\ (b = true
                <-> Dict.get String.eqb "Code" reply = Some (VInt 1000)))
    (fun _ => True).
Proof.
  intros [s w] o st' H0 E. destruct o as [b|x|]; [|exact I|exact I].
  revert E. unfold async_provide_2fa. unfold bind at 1.
  destruct (_requests_lock ncc (s, w)) as [[u|x|] [s1 w1]] eqn:L;
    try discriminate.
  pose proof (preserves_requests_lock _ (harmless_same_but_scopes s0) ncc
                _ _ _ H0 L) as H1.
  unfold finally. unfold bind at 1.
  destruct (__async_api_request_internal _ _ _ _ _ _ _)
    as [[reply|x|] [s2 w2]] eqn:R.
  - pose proof (hoare_request _ (harmless_same_but_scopes s0) _ _ _ _ _ _ _ _ _
                  H1 R) as [H2 Hs].
    unfold bind at 1. unfold item.
    destruct (Dict.get String.eqb "Scopes" reply) as [v|] eqn:G.
    2:{ unfold raise.
        destruct (_requests_unlock ncc (s2, w2)) as [[u'|y|] st3]; discriminate. }
    unfold ret at 1. unfold bind at 1. unfold modify_session at 1.
    cbv beta iota. cbn [fst snd]. rewrite match_code_1000.
    set (accepted := match Dict.get String.eqb "Code" reply with
                     | Some (VInt z) => z =? 1000
                     | _ => false
                     end).
    assert (Hacc : accepted = true
                   <-> Dict.get String.eqb "Code" reply = Some (VInt 1000)).
    { unfold accepted.
      destruct (Dict.get String.eqb "Code" reply) as [[|z| | |]|];
        try (split; discriminate).
      rewrite Z.eqb_eq. split; [intros ->; reflexivity|congruence]. }
    assert (Hbody :
      (fun st => same_but_scopes s0 st
         /\ exists reply0,
              scripted reply0 st
              /\ Dict.get String.eqb "Scopes" reply0 = Some (Scopes (fst st))
              /\ (accepted = true
                  <-> Dict.get String.eqb "Code" reply0 = Some (VInt 1000)))
        (set_Scopes v s2, w2)).
    { split; [exact H2|]. exists reply. repeat split; auto; apply Hacc. }
    destruct accepted.
    + unfold bind, modify_session, ret. cbn [fst snd].
      destruct (_requests_unlock ncc _) as [[u'|y|] st3] eqn:U; try discriminate.
      intros E. inversion E; subst. clear E.
      refine (preserves_requests_unlock _ (harmless_second_factor s0 true) ncc
                _ _ _ _ U).
      destruct Hbody as [Hb1 (reply0 & Hb2 & Hb3 & Hb4)].
      split; [exact Hb1|]. exists reply0. auto.
    + unfold ret.
      destruct (_requests_unlock ncc _) as [[u'|y|] st3] eqn:U; try discriminate.
      intros E. inversion E; subst. clear E.
      exact (preserves_requests_unlock _ (harmless_second_factor s0 false) ncc
               _ _ _ Hbody U).
  - destruct (_requests_unlock ncc (s2, w2)) as [[u'|y|] st3]; discriminate.
  - discriminate.
Qed.

(** X24: the second factor.  When [async_provide_2fa] returns, the
    scopes of the session are those of the reply, whether the code
    was accepted or not; it returns [True] exactly when the reply
    holds the code 1000; and the UID, the two tokens and the account
    name are as before. *)
Theorem second_factor_outcome code ncc s w b st' :
  async_provide_2fa code ncc (s, w) = (Return b, st') ->
  same_but_scopes s st'
  /\ exists reply,
       scripted reply st'
       /\ Dict.get String.eqb "Scopes" reply = Some (Scopes (fst st'))
       /\ (b = true <-> Dict.get String.eqb "Code" reply = Some (VInt 1000)).
Proof.
  intros H.
  assert (H0 : same_but_scopes s (s, w)) by (repeat split).
  exact (second_factor_transition s code ncc (s, w) (Return b) st' H0 H).
Qed.

(** A code that is refused, with a reply that locks the account. *)
Lemma second_factor_outcome_witness :
  same_but_scopes Examples.Coordinator.awaiting_second_factor
    (snd (async_provide_2fa "000000" false
            (Examples.Coordinator.awaiting_second_factor,
             Examples.Coordinator.world
               [Return [("Code", VInt 8002); ("Scopes", VList ["locked"])]])))
  /\ exists reply,
       scripted reply
         (snd (async_provide_2fa "000000" false
                 (Examples.Coordinator.awaiting_second_factor,
                  Examples.Coordinator.world
                    [Return [("Code", VInt 8002); ("Scopes", VList ["locked"])]])))
       /\ Dict.get String.eqb "Scopes" reply = Some (VList ["locked"])
       /\ (false = true <-> Dict.get String.eqb "Code" reply = Some (VInt 1000)).
Proof.
  apply (second_factor_outcome "000000" false
           Examples.Coordinator.awaiting_second_factor
           (Examples.Coordinator.world
              [Return [("Code", VInt 8002); ("Scopes", VList ["locked"])]])
           false).
  vm_compute. reflexivity.
Defined.

(** *** Logout *)

Ltac account_upd :=
  unfold same_account, clear_credentials; intros; simpl in *; assumption.

Lemma logout_keeps_account s0 ncc : preserves (same_account s0) (async_logout ncc).
Proof. preserve account_upd. Qed.

Lemma getstate_unauthenticated st :
  UID (fst st) = VNone -> __getstate__ st = (Return [], st).
Proof.
  intros H. unfold __getstate__, bind, get_session. simpl. now rewrite H.
Qed.

(** X25: after a logout that returns [True] the session is not
    authenticated and its snapshot is empty; and however a logout
    ends, the session names the account that it named before. *)
Theorem logout_outcome ncc s w r st' :
  async_logout ncc (s, w) = (r, st') ->
  AccountName (fst st') = AccountName s
  /\ (r = Return (Some true) ->
      authenticated (fst st') = false /\ dump st' = (Return [], st')).
Proof.
  intros H. split.
  - pose proof (logout_keeps_account s ncc (s, w) r st' eq_refl H) as K.
    destruct r; exact K.
  - intros ->.
    assert (HU : UID (fst st') = VNone).
    { destruct (authenticated s) eqn:A.
      - pose proof (Logout.logout_clears_only_on_success ncc (s, w) _ _ A H) as C.
        apply C.
      - rewrite (Logout.logout_unauthenticated ncc (s, w) A) in H.
        inversion H; subst. unfold authenticated in A. simpl.
        destruct (UID s); simpl in A; congruence. }
    split.
    + unfold authenticated. now rewrite HU.
    + unfold dump. now apply getstate_unauthenticated.
Qed.

Lemma logout_outcome_witness :
  AccountName
    (fst (snd (async_logout false
                 (Examples.Coordinator.logged_in,
                  Examples.Coordinator.world [Return []]))))
  = AccountName Examples.Coordinator.logged_in
  /\ (Return (Some true) = Return (Some true) ->
      authenticated
        (fst (snd (async_logout false
                     (Examples.Coordinator.logged_in,
                      Examples.Coordinator.world [Return []]))))
      = false
      /\ dump (snd (async_logout false
                      (Examples.Coordinator.logged_in,
                       Examples.Coordinator.world [Return []])))
         = (Return [],
            snd (async_logout false
                   (Examples.Coordinator.logged_in,
                    Examples.Coordinator.world [Return []])))).
Proof.
  apply (logout_outcome false Examples.Coordinator.logged_in
           (Examples.Coordinator.world [Return []]) (Return (Some true))).
  vm_compute. reflexivity.
Defined.

(** *** Authentication *)

Lemma harmless_logged_out_or_same s0 : harmless (logged_out_or_same s0).
Proof.
  unfold logged_out_or_same, same_account, same_credentials. solve_harmless.
Qed.

Lemma harmless_authenticated_as s0 username b :
  harmless (authenticated_as s0 username b).
Proof.
  destruct b; [|apply harmless_logged_out_or_same].
  unfold authenticated_as, session_of, tokens_of, scripted. solve_harmless.
Qed.

Lemma logout_logs_out_or_keeps s0 ncc :
  hoare (fun st => same_account s0 st /\ same_credentials s0 st)
    (async_logout ncc) (fun _ => logged_out_or_same s0) (fun _ => True).
Proof.
  intros [s w] r st' [Ha Hc] H. destruct r as [o| |]; [|exact I|exact I].
  split.
  - pose proof (logout_keeps_account s0 ncc (s, w) _ st' Ha H) as K. exact K.
  - destruct (authenticated s) eqn:A.
    + pose proof (Logout.logout_clears_only_on_success ncc (s, w) _ _ A H) as C.
      unfold same_credentials in *. simpl in *.
      destruct o as [[|]|]; [left; exact C|right; congruence|right; congruence].
    + rewrite (Logout.logout_unauthenticated ncc (s, w) A) in H.
      inversion H; subst. right. exact Hc.
Qed.

Lemma store_authentication_stores s0 reply username :
  Dict.mem String.eqb "ServerProof" reply = true ->
  hoare (fun st => scripted reply st) (store_authentication reply username)
    (fun b st => authenticated_as s0 username b st) (fun _ => True).
Proof.
  intros Hproof [s w] r st' Hs H. unfold store_authentication in H.
  unfold bind, item, modify_session, ret, raise in H.
  destruct (Dict.get String.eqb "UID" reply) as [v0|] eqn:G0;
    [|inversion H; subst; exact I].
  destruct (Dict.get String.eqb "AccessToken" reply) as [v1|] eqn:G1;
    [|inversion H; subst; exact I].
  destruct (Dict.get String.eqb "RefreshToken" reply) as [v2|] eqn:G2;
    [|inversion H; subst; exact I].
  destruct (Dict.get String.eqb "Scopes" reply) as [v3|] eqn:G3;
    [|inversion H; subst; exact I].
  simpl in H. inversion H; subst. clear H.
  exists reply. split; [exact Hs|]. split; [exact Hproof|].
  unfold session_of, tokens_of. simpl. auto.
Qed.

(** What [async_authenticate] leaves when it returns, for a session
    that had the account and the credentials of [s0]. *)
Lemma authenticate_transition s0 username password ncc :
  hoare (fun st => same_account s0 st /\ same_credentials s0 st)
    (async_authenticate username password ncc)
    (authenticated_as s0 username) (fun _ => True).
Proof.
  unfold async_authenticate.
  eapply hoare_bind with
    (R := fun _ st => same_account s0 st /\ same_credentials s0 st).
  { eapply hoare_consequence;
      [apply (preserves_requests_lock _ (harmless_same s0))|auto|auto|auto]. }
  intros u. eapply hoare_bind; [apply logout_logs_out_or_keeps|].
  intros o.
  eapply hoare_finally with
    (R := authenticated_as s0 username) (E' := fun _ => True).
  2:{ intros b0. eapply hoare_consequence;
        [apply (preserves_requests_unlock _
                  (harmless_authenticated_as s0 username b0))|auto|auto|auto]. }
  2:{ intros st r st0 _ _. now destruct r. }
  2:{ auto. }
  eapply hoare_bind with (R := fun _ => logged_out_or_same s0).
  { eapply hoare_consequence;
      [apply (preserves_request _ (harmless_logged_out_or_same s0))
      |auto|auto|auto]. }
  intros info_response.
  eapply hoare_bind with (R := fun _ => logged_out_or_same s0);
    [apply hoare_get_world; auto|].
  intros w0.
  eapply hoare_bind with (R := fun _ => logged_out_or_same s0);
    [apply hoare_item; auto|].
  intros armored_modulus.
  destruct (verify_modulus (srp w0) armored_modulus) as [modulus|];
    [|apply hoare_raise; auto].
  eapply hoare_bind with (R := fun _ => logged_out_or_same s0).
  { eapply hoare_consequence;
      [apply (preserves_item_decoded (logged_out_or_same s0))
      |auto|auto|auto]. }
  intros server_challenge.
  eapply hoare_bind with (R := fun _ => logged_out_or_same s0).
  { eapply hoare_consequence;
      [apply (preserves_item_decoded (logged_out_or_same s0))
      |auto|auto|auto]. }
  intros salt.
  eapply hoare_bind with (R := fun _ => logged_out_or_same s0);
    [apply hoare_item; auto|].
  intros version.
  destruct (process_challenge _ _ _ _ _ _) as [client_proof|];
    [|apply hoare_raise; auto].
  eapply hoare_bind with (R := fun _ => logged_out_or_same s0);
    [apply hoare_item; auto|].
  intros srp_session.
  eapply hoare_bind with
    (R := fun auth st =>
            logged_out_or_same s0 st
            /\ match auth with
               | Some reply => scripted reply st
               | None => True
               end).
  { eapply hoare_try_except_api with (E' := logged_out_or_same s0);
      [| |auto].
    - eapply hoare_bind;
        [apply (hoare_request _ (harmless_logged_out_or_same s0))|].
      intros reply. apply hoare_ret. auto.
    - intros x e. destruct (body_code e =? 8002).
      + apply hoare_ret. auto.
      + apply hoare_raise. auto. }
  intros [auth_response|]; [|apply hoare_ret; intros st Hst; apply Hst].
  destruct (Dict.mem String.eqb "ServerProof" auth_response) eqn:G;
    [|apply hoare_ret; intros st Hst; apply Hst].
  cbn [negb].
  eapply hoare_bind with (R := fun _ => scripted auth_response).
  { eapply hoare_consequence;
      [apply (preserves_item_decoded (scripted auth_response))
      |intros st Hst; apply Hst|auto|auto]. }
  intros server_proof.
  destruct (negb _); [apply hoare_raise; auto|].
  eapply hoare_consequence;
    [apply (store_authentication_stores s0 auth_response username G)
    |auto|auto|auto].
Qed.

(** X26: what an authentication that returns has done.  When
    [async_authenticate] returns [True], the UID and the three tokens
    of the session are those of a reply of the transport that holds a
    server proof, and the session names the account [username]; when
    it returns [False], the session names the account that it named
    before, and its credentials are cleared or are those that it had
    before. *)
Theorem authentication_outcome username password ncc s w b st' :
  async_authenticate username password ncc (s, w) = (Return b, st') ->
  authenticated_as s username b st'.
Proof.
  intros H.
  exact (authenticate_transition s username password ncc (s, w) (Return b) st'
           (conj eq_refl eq_refl) H).
Qed.

Lemma authentication_outcome_witness :
  authenticated_as Examples.Coordinator.fresh "alice" true
    (snd (async_authenticate "alice" "password" false
            (Examples.Coordinator.fresh,
             Examples.Coordinator.world Examples.Coordinator.login_answers))).
Proof.
  apply (authentication_outcome "alice" "password" false
           Examples.Coordinator.fresh
           (Examples.Coordinator.world Examples.Coordinator.login_answers)).
  vm_compute. reflexivity.
Defined.

End Outcomes.

(** ** The credentials as a group *)

Module CredentialGroup.
Import Session Triples SessionFacts Conduct Invariance Outcomes Credentials.
Import Examples.Coordinator.

(** An operation that returns, and a restore however it ends, has
    changed the credentials as a group. *)
Lemma returning_operation_changes_a_group o s w :
  returns o (s, w) = true \/ is_restore o = true ->
  changed_as_a_group o s (run o (s, w)).
Proof.
  intros H.
  destruct o as [username password ncc|code ncc|observed ncc|ncc|data];
    simpl in H; (destruct H as [H|H]; [|try discriminate H]); simpl.
  - destruct (async_authenticate username password ncc (s, w))
      as [[b|x|] st'] eqn:E; try discriminate H.
    pose proof (authenticate_transition s username password ncc (s, w) _ _
                  (conj eq_refl eq_refl) E) as K.
    destruct b; simpl in K.
    + destruct K as (reply & Hs & _ & Hu & Ht & _).
      right. right. exists reply. auto.
    + destruct K as [_ [K|K]]; [right; left; exact K|left; exact K].
  - destruct (async_provide_2fa code ncc (s, w)) as [[b|x|] st'] eqn:E;
      try discriminate H.
    assert (H0 : same_but_scopes s (s, w)) by (repeat split).
    destruct (second_factor_transition s code ncc (s, w) _ _ H0 E)
      as [(Hu & Ha & Hr & _) (reply & Hs & Hsc & _)].
    right. right. simpl. repeat split; try assumption. exists reply. auto.
  - destruct (async_refresh observed ncc (s, w)) as [[r|x|] st'] eqn:E;
      try discriminate H.
    destruct (refresh_transition s observed ncc (s, w) _ _
                (conj eq_refl eq_refl) E) as [_ K].
    destruct r as [[|]|].
    + right. right. exact K.
    + destruct K as [K|K]; [left; exact K|right; left; exact K].
    + left. exact K.
  - destruct (async_logout ncc (s, w)) as [[r|x|] st'] eqn:E;
      try discriminate H.
    destruct (logout_logs_out_or_keeps s ncc (s, w) _ _
                (conj eq_refl eq_refl) E) as [_ [K|K]];
      [right; left; exact K|left; exact K].
  - exfalso. cbv in H. discriminate H.
  - right. right. reflexivity.
Qed.

(** C5, as the code has it.  In a run of [authenticate],
    [provide_2fa], [refresh], [logout] and [restore] that starts from
    credentials that satisfy the invariant, the invariant holds after
    every operation, however the operation ends, and at the end of
    the run, when the replies of the server are complete, refresh and
    second factor are asked of an authenticated coordinator, and the
    snapshots that are restored satisfy the invariant themselves.
    And every operation of the run that returns, and every restore,
    has changed the credentials as a group: not at all, or the four
    are cleared, or those that the operation assigns are taken
    together from one reply of the server or from the snapshot. *)
Theorem credentials_move_as_a_group ops1 o ops2 s w :
  replies_complete w ->
  credentials_invariant s ->
  all_permitted (ops1 ++ o :: ops2) (s, w) ->
  credentials_invariant (fst (run o (run_all ops1 (s, w))))
  /\ credentials_invariant (fst (run_all (ops1 ++ o :: ops2) (s, w)))
  /\ (returns o (run_all ops1 (s, w)) = true \/ is_restore o = true ->
      changed_as_a_group o (fst (run_all ops1 (s, w)))
        (run o (run_all ops1 (s, w)))).
Proof.
  intros Hr Hi Hp.
  assert (Hc : consistent (s, w)) by (split; assumption).
  pose proof (permitted_runs_consistent _ _ Hc Hp) as Hall.
  apply all_permitted_app in Hp as [Hp1 [Ho _]].
  pose proof (permitted_runs_consistent _ _ Hc Hp1) as H1.
  split; [apply (run_consistent _ _ H1 Ho)|]. split; [apply Hall|].
  destruct (run_all ops1 (s, w)) as [s1 w1].
  apply returning_operation_changes_a_group.
Qed.

(** A login, a refresh and a logout, with their four requests: the
    refresh in the middle returns, and has taken the three tokens
    from one reply. *)
Lemma credentials_move_as_a_group_witness :
  credentials_invariant
    (fst (run (Refresh None false)
            (run_all [Authenticate "alice" "password" false]
               (fresh, world login_answers))))
  /\ credentials_invariant
       (fst (run_all ([Authenticate "alice" "password" false]
                      ++ Refresh None false :: [Logout false])
               (fresh, world login_answers)))
  /\ changed_as_a_group (Refresh None false)
       (fst (run_all [Authenticate "alice" "password" false]
               (fresh, world login_answers)))
       (run (Refresh None false)
          (run_all [Authenticate "alice" "password" false]
             (fresh, world login_answers))).
Proof.
  assert (X := credentials_move_as_a_group
                 [Authenticate "alice" "password" false] (Refresh None false)
                 [Logout false] fresh (world login_answers)
                 CoordinatorExamples.login_answers_complete
                 ltac:(unfold credentials_invariant; simpl; tauto)
                 ltac:(vm_compute; repeat split)).
  split; [apply X|]. split; [apply X|].
  apply X. left. vm_compute. reflexivity.
Defined.

(** The run of the witness goes through: the login sets the four
    credentials, the refresh replaces the three tokens, the logout
    clears the four, and four requests are sent. *)
Lemma login_refresh_logout_goes_through :
  returns (Authenticate "alice" "password" false) (fresh, world login_answers)
  = true
  /\ credentials
       (fst (run_all [Authenticate "alice" "password" false]
               (fresh, world login_answers)))
     = (VStr "uid", VStr "access", VStr "refresh", VList ["self"])
  /\ returns (Refresh None false)
       (run_all [Authenticate "alice" "password" false]
          (fresh, world login_answers)) = true
  /\ credentials
       (fst (run_all [Authenticate "alice" "password" false; Refresh None false]
               (fresh, world login_answers)))
     = (VStr "uid", VStr "access2", VStr "refresh2", VList ["self"])
  /\ cleared (fst (run_all login_refresh_logout (fresh, world login_answers)))
  /\ calls (snd (run_all login_refresh_logout (fresh, world login_answers)))
     = 4%nat.
Proof. vm_compute. repeat split. Qed.

(** C5, without its conditions.  On a coordinator that never logged
    in, a refresh that the server answers stores the tokens and leaves
    the UID absent: the invariant is lost.  And the credentials are
    assigned one after the other, so that an operation that raises on
    its way leaves a part of the group changed: on an authenticated
    coordinator, with complete replies, a refresh whose reply holds
    the access token alone replaces the access token, raises
    [KeyError] and leaves the refresh token and the scopes as they
    were. *)
Lemma invariant_and_atomicity_fail :
  (credentials_invariant fresh
   /\ ~ credentials_invariant
          (fst (run_all [Refresh None false]
                  (fresh, world [Return new_tokens]))))
  /\ (replies_complete (world [Return access_token_alone])
      /\ credentials_invariant logged_in
      /\ all_permitted [Refresh None false]
           (logged_in, world [Return access_token_alone])
      /\ fst (async_refresh None false
                (logged_in, world [Return access_token_alone]))
         = Raise (KeyError "RefreshToken")
      /\ credentials
           (fst (run (Refresh None false)
                   (logged_in, world [Return access_token_alone])))
         = (VStr "uid", VStr "access2", VStr "refresh", VList ["self"])
      /\ ~ changed_as_a_group (Refresh None false) logged_in
             (run (Refresh None false)
                (logged_in, world [Return access_token_alone]))).
Proof.
  split; [split|].
  - unfold credentials_invariant. simpl. tauto.
  - intros [H _].
    assert (U : UID (fst (run_all [Refresh None false]
                            (fresh, world [Return new_tokens]))) = VNone)
      by (vm_compute; reflexivity).
    destruct (H U) as [A _]. vm_compute in A. discriminate A.
  - split; [|split; [|split; [|split; [|split]]]].
    + intros n reply H. destruct n as [|n]; simpl in H.
      * inversion H; subst. split.
        -- intros k Hk. simpl in Hk.
           repeat (destruct Hk as [<-|Hk]; [simpl; discriminate|]).
           contradiction.
        -- discriminate.
      * destruct n; discriminate H.
    + unfold credentials_invariant. simpl. split; [discriminate|].
      intros (H & _). discriminate H.
    + vm_compute. repeat split.
    + vm_compute. reflexivity.
    + vm_compute. reflexivity.
    + intros [H|[H|H]].
      * vm_compute in H. discriminate H.
      * destruct H as [H _]. vm_compute in H. discriminate H.
      * destruct H as [_ (reply & [n Hn] & _ & Hr & _)].
        destruct n as [|n]; simpl in Hn.
        -- inversion Hn; subst. vm_compute in Hr. discriminate Hr.
        -- destruct n; discriminate Hn.
Qed.

End CredentialGroup.
